(** * BLACK BOX: name resolution and credential vault

    A shallow embedding of the two subsystems of the repository that carry
    its invariants, followed by the properties proved about them:

    - [src/blackbox/nlp/resolve_deterministic.py]: the deterministic
      resolver (text normaliser, four matcher strategies, threshold policy);
    - [src/blackbox/nlp/resolve.py]: the heuristic resolver with its LLM
      fallback;
    - [src/blackbox/vault/db.py]: the vault database and its lock state.

    Conventions of the embedding.

    - A Python [str] is a [string]; a character is its code point, and the
      model covers the code points 0..255 (Latin-1), on which [str.lower],
      [str.isspace] and the classes [\s] and [\w] of [re] are tabulated
      below.
    - A Python [float] that the code only compares and divides is a rational
      ([Q]); the literals keep the spelling of the source ([0.88], [1.0]).
      A reading of the clock of the process ([time.time()],
      [datetime.now()]) is an argument [now] of the method that takes it,
      one per call of the method; [CURRENT_TIMESTAMP] is the reading that
      the storage engine makes of that time.
    - A [dict] whose iteration order the code relies on (the site catalog)
      is an association list in insertion order; a table looked up by key
      (files by path, metadata rows by key) is a [gmap].
    - The libraries the repository calls but does not contain are taken as
      parameters ([doublemetaphone], the scorer of [rapidfuzz]) or modelled
      at their interface (the storage engine behind [sqlite3], [argon2]). *)

From Stdlib Require Import String Ascii List Bool Arith NArith ZArith QArith Lia.
From stdpp Require Import gmap strings.
From Stdlib Require DecimalString.
Import ListNotations.

Open Scope string_scope.

(** ** Python text primitives *)

Module Text.

Definition in_range (lo hi n : N) : bool := ((lo <=? n) && (n <=? hi))%N.

(** [str.isspace] on one character; also the class [\s] of [re] and the
    separators of [str.strip] and [str.split]. *)
Definition isspace (c : ascii) : bool :=
  let n := N_of_ascii c in
  in_range 9 13 n || in_range 28 32 n || (n =? 133)%N || (n =? 160)%N.

(** The class [\w] of [re] on a [str] pattern: alphanumeric or underscore. *)
Definition isword (c : ascii) : bool :=
  let n := N_of_ascii c in
  in_range 48 57 n || in_range 65 90 n || (n =? 95)%N || in_range 97 122 n
  || (n =? 170)%N || in_range 178 179 n || (n =? 181)%N || in_range 185 186 n
  || in_range 188 190 n || in_range 192 214 n || in_range 216 246 n
  || in_range 248 255 n.

(** [str.lower] on one character. *)
Definition lower_char (c : ascii) : ascii :=
  let n := N_of_ascii c in
  if in_range 65 90 n || in_range 192 214 n || in_range 216 222 n
  then ascii_of_N (n + 32)
  else c.

Definition space : ascii := " "%char.

Fixpoint lstrip (l : list ascii) : list ascii :=
  match l with
  | c :: l' => if isspace c then lstrip l' else l
  | [] => []
  end.

Definition rstrip (l : list ascii) : list ascii := rev (lstrip (rev l)).

(** [str.strip()] *)
Definition strip (l : list ascii) : list ascii := rstrip (lstrip l).

(** [str.lower()] *)
Definition lower (l : list ascii) : list ascii := map lower_char l.

(** [str.split()]: the maximal runs of non-space characters. [cur] holds the
    current run, latest character first. *)
Fixpoint split_from (cur : list ascii) (l : list ascii) : list (list ascii) :=
  match l with
  | [] => match cur with [] => [] | _ => [rev cur] end
  | c :: l' =>
      if isspace c
      then match cur with
           | [] => split_from [] l'
           | _ => rev cur :: split_from [] l'
           end
      else split_from (c :: cur) l'
  end.

Definition split (l : list ascii) : list (list ascii) := split_from [] l.

Fixpoint starts_with (p l : list ascii) : bool :=
  match p, l with
  | [], _ => true
  | x :: p', y :: l' => Ascii.eqb x y && starts_with p' l'
  | _ :: _, [] => false
  end.

(** [p in l] on two [str]: [p] occurs in [l] as a contiguous block. *)
Fixpoint contains (p l : list ascii) : bool :=
  starts_with p l ||
  match l with
  | [] => false
  | _ :: l' => contains p l'
  end.

(** The rest of [l] after the block [p], when [l] starts with it. *)
Fixpoint after_prefix (p l : list ascii) : option (list ascii) :=
  match p, l with
  | [], _ => Some l
  | x :: p', y :: l' => if Ascii.eqb x y then after_prefix p' l' else None
  | _ :: _, [] => None
  end.

Definition starts_with_space (l : list ascii) : bool :=
  match l with
  | c :: _ => isspace c
  | [] => false
  end.

(** [re.sub(r'\s+(dot\s+)?TLD$', '', s)] for a text [s] that has no trailing
    white space (there [$] is the end of the text). The pattern matches at
    most once, at the end, and the match is the leftmost one: the white
    space run before [TLD], extended over a preceding [dot] and the white
    space run before it when there is one. The work is done on the reversed
    text. *)
Definition sub_suffix (tld : string) (s : list ascii) : list ascii :=
  match after_prefix (rev (list_ascii_of_string tld)) (rev s) with
  | None => s
  | Some r1 =>
      if starts_with_space r1 then
        let r2 := lstrip r1 in
        match after_prefix (rev (list_ascii_of_string "dot")) r2 with
        | Some r3 => if starts_with_space r3 then rev (lstrip r3) else rev r2
        | None => rev r2
        end
      else s
  end.

(** [re.sub(r'[^\w\s]', ' ', s)] *)
Definition sub_punctuation (s : list ascii) : list ascii :=
  map (fun c => if isword c || isspace c then c else space) s.

(** [re.sub(r'\s+', ' ', s)]; [in_run] tells that the previous character
    belonged to a white space run, already replaced. *)
Fixpoint sub_spaces_from (in_run : bool) (s : list ascii) : list ascii :=
  match s with
  | [] => []
  | c :: s' =>
      if isspace c
      then if in_run then sub_spaces_from true s'
           else space :: sub_spaces_from true s'
      else c :: sub_spaces_from false s'
  end.

Definition sub_spaces (s : list ascii) : list ascii := sub_spaces_from false s.

Definition words (s : string) : list string :=
  map string_of_list_ascii (split (list_ascii_of_string s)).

Definition str_in (p s : string) : bool :=
  contains (list_ascii_of_string p) (list_ascii_of_string s).

(** [x in xs] on a list of [str] *)
Definition mem (x : string) (xs : list string) : bool :=
  existsb (String.eqb x) xs.

(** *** Shapes of a text, for the statements about the normaliser *)

(** Every character of [l] is one of [m]. *)
Definition within (l m : list ascii) : Prop := forall c, In c l -> In c m.

Definition ends_with_space (l : list ascii) : bool := starts_with_space (rev l).

(** Nothing for [strip] to remove. *)
Definition trimmed (l : list ascii) : Prop :=
  starts_with_space l = false /\ ends_with_space l = false.

(** No white space but single blanks; [after_space] tells that the character
    before the list was one. *)
Fixpoint single_spaced (after_space : bool) (l : list ascii) : bool :=
  match l with
  | [] => true
  | c :: l' =>
      if isspace c
      then Ascii.eqb c space && negb after_space && single_spaced true l'
      else single_spaced false l'
  end.

(** [str.lower] leaves the character alone. *)
Definition lowered (c : ascii) : Prop := lower_char c = c.

(** The character is in [\w] or in [\s]. *)
Definition word_or_space (c : ascii) : Prop := isword c || isspace c = true.

(** Case analysis over the 256 characters. *)
Ltac each_char c := destruct c as [[] [] [] [] [] [] [] []].

End Text.

(** ** Rationals standing for Python floats *)

Module Num.

Definition geb (a b : Q) : bool := Qle_bool b a.
Definition gtb (a b : Q) : bool := negb (Qle_bool a b).
Definition of_nat (n : nat) : Q := inject_Z (Z.of_nat n).

End Num.

(** ** Paths and numbers as text *)

Module Path.

Fixpoint from_slash (l : list ascii) : list ascii :=
  match l with
  | [] => []
  | c :: l' => if Ascii.eqb c "/" then l else from_slash l'
  end.

Fixpoint drop_slashes (l : list ascii) : list ascii :=
  match l with
  | c :: l' => if Ascii.eqb c "/" then drop_slashes l' else l
  | [] => []
  end.

(** [os.path.dirname] of [posixpath]: the text up to the last slash, without
    its trailing slashes unless it is made of slashes only. The work is done
    on the reversed text. *)
Definition dirname (p : string) : string :=
  let head := from_slash (rev (list_ascii_of_string p)) in
  match drop_slashes head with
  | [] => string_of_list_ascii head
  | stripped => string_of_list_ascii (rev stripped)
  end.

(** A path without a slash: a file name on its own. *)
Definition bare (p : string) : bool :=
  negb (existsb (Ascii.eqb "/") (list_ascii_of_string p)).

(** [int(x)] of a [float]: towards zero. *)
Definition int (x : Q) : Z := Z.quot (Qnum x) (Zpos (Qden x)).

(** [str(n)] of an [int] *)
Definition str (n : Z) : string :=
  DecimalString.NilEmpty.string_of_int (Z.to_int n).

End Path.

(** ** rapidfuzz, at the interface the resolvers use *)

Module Fuzz.

Local Open Scope Q_scope.

(** One row of the longest-common-subsequence table: [above] is the previous
    row from column [j+1] on, [diag] its column [j], [left] the value just
    computed in this row. *)
Fixpoint lcs_row (x : ascii) (b : list ascii) (above : list nat)
    (diag left : nat) : list nat :=
  match b, above with
  | y :: b', up :: above' =>
      let v := if Ascii.eqb x y then S diag else Nat.max up left in
      v :: lcs_row x b' above' up v
  | _, _ => []
  end.

Definition lcs_next (b : list ascii) (row : list nat) (x : ascii) : list nat :=
  0%nat :: lcs_row x b (tl row) (hd 0%nat row) 0%nat.

Definition lcs (a b : list ascii) : nat :=
  List.last (fold_left (lcs_next b) a (repeat 0%nat (S (length b)))) 0%nat.

(** [fuzz.ratio]: the normalised Indel similarity, in [0, 100]. *)
Definition ratio (s1 s2 : string) : Q :=
  let a := list_ascii_of_string s1 in
  let b := list_ascii_of_string s2 in
  let n := (length a + length b)%nat in
  if (n =? 0)%nat then 100
  else 100 * (Num.of_nat (2 * lcs a b) / Num.of_nat n).

Section ExtractOne.

Variable scorer : string -> string -> Q.

Definition extract_step (query : string) (best : option (string * Q))
    (choice : string) : option (string * Q) :=
  let score := scorer query choice in
  match best with
  | None => Some (choice, score)
  | Some (_, top) => if Num.gtb score top then Some (choice, score) else best
  end.

(** [process.extractOne(query, choices, scorer=...)]: the first choice of
    highest score with its score, [None] on no choice. *)
Definition extractOne (query : string) (choices : list string)
    : option (string * Q) :=
  fold_left (extract_step query) choices None.

End ExtractOne.

End Fuzz.

(** ** The four matcher strategies

    Both resolver modules run the same strategies over the catalog and
    differ in the fuzzy floor and in the [method] they report; the search of
    each strategy is written once here. *)

Module Matchers.

Local Open Scope Q_scope.

(** [self.sites]: canonical name to aliases, in insertion order. *)
Definition catalog : Type := list (string * list string).

(** [_get_all_aliases] *)
Definition get_all_aliases (sites : catalog) : list string :=
  flat_map snd sites.

(** [for canonical, aliases in self.sites.items(): if a in aliases: ...]:
    the first canonical name that lists [a]. *)
Definition canonical_of (sites : catalog) (a : string) : option string :=
  option_map fst (find (fun entry => Text.mem a (snd entry)) sites).

(** The pairs the nested loops [for canonical, aliases ...: for alias ...]
    visit, in order. *)
Definition alias_pairs (sites : catalog) : list (string * string) :=
  flat_map (fun entry => map (pair (fst entry)) (snd entry)) sites.

(** Truth value of a [str]. *)
Definition truthy (s : string) : bool := negb (String.eqb s "").

Section Strategies.

Variable doublemetaphone : string -> string * string.
Variable scorer : string -> string -> Q.

Definition exact_search (sites : catalog) (text : string) : option string :=
  if Text.mem text (get_all_aliases sites) then canonical_of sites text
  else None.

Definition fuzzy_search (floor : Q) (sites : catalog) (text : string)
    : option (string * Q) :=
  match get_all_aliases sites with
  | [] => None
  | all_aliases =>
      match Fuzz.extractOne scorer text all_aliases with
      | Some (best, score) =>
          if Num.geb score floor then
            match canonical_of sites best with
            | Some canonical => Some (canonical, score / 100)
            | None => None
            end
          else None
      | None => None
      end
  end.

(** The score of one alias against the text, [None] on [continue]. *)
Definition phonetic_score (text_phonetic alias_phonetic : string * string)
    : option Q :=
  if truthy (fst text_phonetic) && truthy (fst alias_phonetic) then
    if String.eqb (fst text_phonetic) (fst alias_phonetic) then Some 0.9
    else if truthy (snd text_phonetic) && truthy (snd alias_phonetic)
            && String.eqb (snd text_phonetic) (snd alias_phonetic)
         then Some 0.8
         else None
  else None.

Definition phonetic_step (text_phonetic : string * string)
    (best : Q * option string) (entry : string * string) : Q * option string :=
  match phonetic_score text_phonetic (doublemetaphone (snd entry)) with
  | Some score =>
      if Num.gtb score (fst best) then (score, Some (fst entry)) else best
  | None => best
  end.

(** [(best_score, best_site)] after the loops of [_phonetic_match]. *)
Definition phonetic_loop (sites : catalog) (text : string) : Q * option string :=
  fold_left (phonetic_step (doublemetaphone text)) (alias_pairs sites) (0.0, None).

Definition phonetic_search (sites : catalog) (text : string)
    : option (option string * Q) :=
  let best := phonetic_loop sites text in
  if Num.geb (fst best) 0.8 then Some (snd best, fst best) else None.

(** [matches]: the words of the text that contain, or are contained in, a
    word of the alias. *)
Definition count_matches (words alias_words : list string) : nat :=
  length (List.filter (fun word =>
    existsb (fun alias_word =>
      Text.str_in word alias_word || Text.str_in alias_word word)
      alias_words) words).

Definition partial_step (words : list string) (best : Q * option string)
    (entry : string * string) : Q * option string :=
  let alias_words := Text.words (snd entry) in
  let matches := count_matches words alias_words in
  if (0 <? matches)%nat then
    let score :=
      Num.of_nat matches / Num.of_nat (Nat.max (length words) (length alias_words)) in
    if Num.gtb score (fst best) && Num.geb score 0.6
    then (score, Some (fst entry))
    else best
  else best.

(** [(best_score, best_site)] after the loops of [_partial_match]. *)
Definition partial_loop (sites : catalog) (text : string) : Q * option string :=
  fold_left (partial_step (Text.words text)) (alias_pairs sites) (0.0, None).

Definition partial_search (sites : catalog) (text : string)
    : option (option string * Q) :=
  let best := partial_loop sites text in
  if Num.geb (fst best) 0.6 then Some (snd best, fst best) else None.

End Strategies.

(** The running best of the phonetic and partial loops: a score comes with a
    site, and is not negative. *)
Definition tracked (best : Q * option string) : Prop :=
  (snd best = None -> fst best = 0.0) /\ 0 <= fst best.

(** [d[k] = v] on the catalog: a key already there keeps its place, a new
    one goes last. *)
Fixpoint dict_set (k : string) (v : list string) (d : catalog) : catalog :=
  match d with
  | [] => [(k, v)]
  | entry :: d' =>
      if String.eqb (fst entry) k then (k, v) :: d'
      else entry :: dict_set k v d'
  end.

(** [d[k]] where [k in d] holds *)
Definition dict_get (k : string) (d : catalog) : option (list string) :=
  option_map snd (find (fun entry => String.eqb (fst entry) k) d).

(** The site of the running best is a canonical name of the catalog. *)
Definition keyed (sites : catalog) (best : Q * option string) : Prop :=
  forall c, snd best = Some c -> In c (map fst sites).

End Matchers.

(** ** The catalog file

    Both resolver modules keep the catalog in a JSON file. What the file
    holds is taken as [json.load] and [data.get] read it; the catalogs are
    those [json.dump] writes, objects of lists of strings. *)

Module CatalogFile.

Import Matchers.

Inductive document :=
| Sites (sites : catalog)     (* an object whose [sites] is a catalog *)
| NoSites                     (* an object without the key [sites] *)
| Broken.                     (* a text on which reading raises *)

Inductive event :=
| LogInfo (msg : string)
| LogError (msg : string).

(** The files by path, and what was logged, oldest first. *)
Record disk := mkDisk {
  files : gmap string document;
  log : list event
}.

Definition logged (e : event) (d : disk) : disk :=
  mkDisk (files d) (log d ++ [e])%list.

Section Writes.

(** [writes path] tells that [os.makedirs] of the directory of [path] and
    [open(path, 'w')] both go through, the directory having a name. *)
Variable writes : string -> bool.

(** [save_catalog]; [os.makedirs] raises on the empty directory name. *)
Definition save_catalog (catalog_path : string) (sites : catalog) (d : disk)
    : disk :=
  if String.eqb (Path.dirname catalog_path) "" then
    logged (LogError "Error saving site catalog") d
  else if writes catalog_path then
    mkDisk (<[catalog_path := Sites sites]> (files d)) (log d)
  else logged (LogError "Error saving site catalog") d.

End Writes.

End CatalogFile.

(** ** [resolve_deterministic.py] *)

Module ResolveDeterministic.

Local Open Scope Q_scope.

Import Matchers.

Record ResolutionResult := mkResult {
  site : option string;
  confidence : Q;
  method : string;
  original_text : string;
  cleaned_text : string;
  needs_confirmation : bool
}.

Definition set_needs_confirmation (r : ResolutionResult) (b : bool)
    : ResolutionResult :=
  mkResult (site r) (confidence r) (method r) (original_text r)
    (cleaned_text r) b.

(** The attributes of a [DeterministicResolver] that resolution reads. *)
Record DeterministicResolver := mkResolver {
  sites : catalog;
  accept_threshold : Q;
  llm_threshold : Q;
  confirmation_threshold : Q
}.

(** [__init__], with the catalog that [load_catalog] read. *)
Definition init (loaded : catalog) : DeterministicResolver :=
  mkResolver loaded 0.88 0.82 0.75.

Definition normalize_chars (text : list ascii) : list ascii :=
  let normalized := Text.strip (Text.lower text) in
  let normalized := Text.sub_suffix "com" normalized in
  let normalized := Text.sub_suffix "org" normalized in
  let normalized := Text.sub_suffix "net" normalized in
  let normalized := Text.sub_suffix "edu" normalized in
  let normalized := Text.sub_suffix "gov" normalized in
  let normalized := Text.sub_suffix "mil" normalized in
  let normalized := Text.sub_punctuation normalized in
  Text.strip (Text.sub_spaces normalized).

Definition _normalize_text (text : string) : string :=
  string_of_list_ascii (normalize_chars (list_ascii_of_string text)).

(** The six suffix substitutions of [_normalize_text], in their order. *)
Definition domain_suffixes : list string :=
  ["com"; "org"; "net"; "edu"; "gov"; "mil"].

Definition sub_domain_suffixes (s : list ascii) : list ascii :=
  fold_left (fun normalized tld => Text.sub_suffix tld normalized)
    domain_suffixes s.

(** None of the six substitutions changes [s]: [s] does not end in white
    space followed by one of the suffixes. *)
Definition suffix_free (s : string) : Prop :=
  forall tld, In tld domain_suffixes ->
    Text.sub_suffix tld (list_ascii_of_string s) = list_ascii_of_string s.

(** What every output of the normaliser looks like. *)
Record normal (n : list ascii) : Prop := {
  normal_lowered : List.Forall Text.lowered n;
  normal_words : List.Forall Text.word_or_space n;
  normal_trimmed : Text.trimmed n;
  normal_spaced : Text.single_spaced false n = true
}.

(** A result without a site carries no confidence. *)
Definition unsited_is_zero (r : ResolutionResult) : Prop :=
  site r = None -> confidence r = 0.0.

(** And a result with a site carries some. *)
Definition settled (r : ResolutionResult) : Prop :=
  unsited_is_zero r /\ (site r <> None -> 0 < confidence r).

Section Resolver.

Variable doublemetaphone : string -> string * string.
Variable scorer : string -> string -> Q.
Variable self : DeterministicResolver.

Definition _exact_match (text : string) : ResolutionResult :=
  match exact_search (sites self) text with
  | Some canonical => mkResult (Some canonical) 1.0 "exact_match" text text false
  | None => mkResult None 0.0 "exact_match" text text false
  end.

Definition _fuzzy_match (text : string) : ResolutionResult :=
  match fuzzy_search scorer 70 (sites self) text with
  | Some (canonical, confidence) =>
      mkResult (Some canonical) confidence "fuzzy_match" text text false
  | None => mkResult None 0.0 "fuzzy_match" text text false
  end.

Definition _phonetic_match (text : string) : ResolutionResult :=
  match phonetic_search doublemetaphone (sites self) text with
  | Some (best_site, best_score) =>
      mkResult best_site best_score "phonetic_match" text text false
  | None => mkResult None 0.0 "phonetic_match" text text false
  end.

Definition _partial_match (text : string) : ResolutionResult :=
  match partial_search (sites self) text with
  | Some (best_site, best_score) =>
      mkResult best_site best_score "partial_match" text text false
  | None => mkResult None 0.0 "partial_match" text text false
  end.

Definition strategies : list (string -> ResolutionResult) :=
  [_exact_match; _fuzzy_match; _phonetic_match; _partial_match].

(** One turn of [for strategy in strategies]. *)
Definition keep_best (cleaned : string) (best_result : ResolutionResult)
    (strategy : string -> ResolutionResult) : ResolutionResult :=
  let result := strategy cleaned in
  if Num.gtb (confidence result) (confidence best_result)
  then result else best_result.

Definition resolve_site (text : string) : ResolutionResult :=
  if String.eqb text "" then mkResult None 0.0 "none" text "" false
  else
    let cleaned := _normalize_text text in
    let best_result :=
      fold_left (keep_best cleaned) strategies
        (mkResult None 0.0 "deterministic" text cleaned false) in
    if Num.geb (confidence best_result) (accept_threshold self) then
      set_needs_confirmation best_result false
    else if Num.geb (confidence best_result) (confirmation_threshold self) then
      set_needs_confirmation best_result true
    else
      set_needs_confirmation best_result false.

End Resolver.

(** *** The catalog of the resolver

    [catalog_path] is [self.catalog_path], and a method that changes the
    resolver or the files returns the new ones. *)

Definition set_sites (self : DeterministicResolver) (sites' : catalog)
    : DeterministicResolver :=
  mkResolver sites' (accept_threshold self) (llm_threshold self)
    (confirmation_threshold self).

Definition load_catalog (catalog_path : string) (d : CatalogFile.disk)
    : catalog * CatalogFile.disk :=
  match CatalogFile.files d !! catalog_path with
  | Some (CatalogFile.Sites sites) =>
      (sites, CatalogFile.logged (CatalogFile.LogInfo "Loaded sites from catalog") d)
  | Some CatalogFile.NoSites =>
      ([], CatalogFile.logged (CatalogFile.LogInfo "Loaded sites from catalog") d)
  | Some CatalogFile.Broken =>
      ([], CatalogFile.logged (CatalogFile.LogError "Error loading site catalog") d)
  | None =>
      ([], CatalogFile.logged (CatalogFile.LogError "Site catalog not found") d)
  end.

(** [DeterministicResolver(catalog_path)] *)
Definition new (catalog_path : string) (d : CatalogFile.disk)
    : DeterministicResolver * CatalogFile.disk :=
  let loaded := load_catalog catalog_path d in
  (init (fst loaded), snd loaded).

(** The dictionary that [get_site_info] returns. *)
Record site_info := mkInfo {
  canonical_name : string;
  aliases : list string;
  alias_count : nat
}.

Definition get_site_info (self : DeterministicResolver) (site : string)
    : option site_info :=
  match dict_get site (sites self) with
  | Some site_aliases => Some (mkInfo site site_aliases (length site_aliases))
  | None => None
  end.

Section Writes.

Variable writes : string -> bool.

Definition save_catalog (catalog_path : string) (self : DeterministicResolver)
    (d : CatalogFile.disk) : CatalogFile.disk :=
  CatalogFile.save_catalog writes catalog_path (sites self) d.

Definition add_site (catalog_path canonical_name : string)
    (aliases : list string) (self : DeterministicResolver)
    (d : CatalogFile.disk) : DeterministicResolver * CatalogFile.disk :=
  let self := set_sites self (dict_set canonical_name aliases (sites self)) in
  (self, save_catalog catalog_path self d).

End Writes.

(** The dictionary that [get_catalog_stats] returns. *)
Record catalog_stats := mkCatalogStats {
  total_sites : nat;
  total_aliases : nat;
  average_aliases_per_site : Q
}.

Definition get_catalog_stats (self : DeterministicResolver) : catalog_stats :=
  let total_sites := length (sites self) in
  let total_aliases := list_sum (map (fun entry => length (snd entry)) (sites self)) in
  mkCatalogStats total_sites total_aliases
    (if (0 <? total_sites)%nat
     then Num.of_nat total_aliases / Num.of_nat total_sites
     else 0).

(** *** Shapes of a result, for the statements below *)

(** The methods that tell of a match. *)
Definition matching_methods : list string :=
  ["exact_match"; "fuzzy_match"; "phonetic_match"; "partial_match"].

(** The scorer keeps to [0, 100] for the text against the aliases of the
    catalog, as [fuzz.ratio] does. *)
Definition bounded_scorer (scorer : string -> string -> Q) (sites : catalog)
    (text : string) : Prop :=
  forall alias, In alias (get_all_aliases sites) -> scorer text alias <= 100.

(** The site of the result is a canonical name of the catalog. *)
Definition known_site (sites : catalog) (r : ResolutionResult) : Prop :=
  forall c, site r = Some c -> In c (map fst sites).

(** The result is that of a strategy that matched the normal form [cleaned]:
    its method is the strategy's, and both its texts are [cleaned]. *)
Definition matched_on (cleaned : string) (r : ResolutionResult) : Prop :=
  site r <> None /\ In (method r) matching_methods /\
  original_text r = cleaned /\ cleaned_text r = cleaned.

End ResolveDeterministic.

(** ** [resolve.py] *)

Module Resolve.

Local Open Scope Q_scope.

Import Matchers.

Record ResolutionResult := mkResult {
  site : option string;
  confidence : Q;
  method : string;
  original_text : string;
  cleaned_text : string
}.

(** [HeuristicResolver._normalize_text] *)
Definition normalize_chars (text : list ascii) : list ascii :=
  let normalized := Text.strip (Text.lower text) in
  let normalized := Text.sub_suffix "com" normalized in
  let normalized := Text.sub_suffix "org" normalized in
  let normalized := Text.sub_suffix "net" normalized in
  let normalized := Text.sub_suffix "edu" normalized in
  Text.strip (Text.sub_spaces normalized).

Definition _normalize_text (text : string) : string :=
  string_of_list_ascii (normalize_chars (list_ascii_of_string text)).

(** A result without a site carries no confidence. *)
Definition unsited_is_zero (r : ResolutionResult) : Prop :=
  site r = None -> confidence r = 0.0.

Definition settled (r : ResolutionResult) : Prop :=
  unsited_is_zero r /\ 0 <= confidence r.

(** *** [HeuristicResolver]; [sites] is [self.catalog.sites]. *)

Section HeuristicResolver.

Variable doublemetaphone : string -> string * string.
Variable scorer : string -> string -> Q.
Variable sites : catalog.

Definition _exact_match (text : string) : ResolutionResult :=
  match exact_search sites text with
  | Some canonical => mkResult (Some canonical) 1.0 "heuristic" text text
  | None => mkResult None 0.0 "heuristic" text text
  end.

Definition _fuzzy_match (text : string) : ResolutionResult :=
  match fuzzy_search scorer 82 sites text with
  | Some (canonical, confidence) =>
      mkResult (Some canonical) confidence "heuristic" text text
  | None => mkResult None 0.0 "heuristic" text text
  end.

Definition _phonetic_match (text : string) : ResolutionResult :=
  match phonetic_search doublemetaphone sites text with
  | Some (best_site, best_score) =>
      mkResult best_site best_score "heuristic" text text
  | None => mkResult None 0.0 "heuristic" text text
  end.

Definition _partial_match (text : string) : ResolutionResult :=
  match partial_search sites text with
  | Some (best_site, best_score) =>
      mkResult best_site best_score "heuristic" text text
  | None => mkResult None 0.0 "heuristic" text text
  end.

Definition strategies : list (string -> ResolutionResult) :=
  [_exact_match; _fuzzy_match; _phonetic_match; _partial_match].

Definition keep_best (cleaned : string) (best_result : ResolutionResult)
    (strategy : string -> ResolutionResult) : ResolutionResult :=
  let result := strategy cleaned in
  if Num.gtb (confidence result) (confidence best_result)
  then result else best_result.

Definition resolve_site (text : string) : ResolutionResult :=
  if String.eqb text "" then mkResult None 0.0 "none" text ""
  else
    let cleaned := _normalize_text text in
    fold_left (keep_best cleaned) strategies
      (mkResult None 0.0 "heuristic" text cleaned).

End HeuristicResolver.

(** *** [LLMResolver] *)

(** What [_call_llm] hands back, read as [_parse_llm_response] reads it: the
    call may raise; the text may hold no JSON object that [json.loads]
    accepts; otherwise it is an object, of which [site] (a string, or
    [None] for [null] or a missing key) and [confidence] (a number, or
    [None] for a missing key) are read. *)
Inductive llm_response :=
| CallRaises
| NoObject
| Object (site : option string) (confidence : option Q).

(** [_create_prompt]: the fixed instructions around the input text; the
    prompt is represented by the text it embeds. *)
Definition _create_prompt (text : string) : string := text.

(** [_call_llm], the placeholder of the source: its mock response
    [{site: null, confidence: 0.0}], whatever the prompt. *)
Definition _call_llm (prompt : string) : llm_response :=
  Object None (Some 0.0).

(** [_parse_llm_response], to the fields [resolve_site] reads with
    [result.get("site")] and [result.get("confidence", 0.0)]. *)
Definition _parse_llm_response (response : llm_response) : option string * Q :=
  match response with
  | Object site (Some confidence) => (site, confidence)
  | Object site None => (site, 0.0)
  | _ => (None, 0.0)
  end.

Section LLMResolver.

(** [self.is_available], and the method [_call_llm] of the object. *)
Variable is_available : bool.
Variable call_llm : string -> llm_response.

(** [LLMResolver.resolve_site]: the result, and the prompts sent to the
    model on the way. *)
Definition llm_resolve_site (text : string) : ResolutionResult * list string :=
  if negb is_available then (mkResult None 0.0 "llm" text text, [])
  else
    let prompt := _create_prompt text in
    match call_llm prompt with
    | CallRaises => (mkResult None 0.0 "llm" text text, [prompt])
    | response =>
        let result := _parse_llm_response response in
        (mkResult (fst result) (snd result) "llm" text text, [prompt])
    end.

End LLMResolver.

(** *** [IntentResolver] *)

Section IntentResolver.

Variable doublemetaphone : string -> string * string.
Variable scorer : string -> string -> Q.
Variable sites : catalog.
Variable is_available : bool.
Variable call_llm : string -> llm_response.

(** [_resolve_site_name], with the prompts sent to the model. *)
Definition _resolve_site_name (text : string) : ResolutionResult * list string :=
  let heuristic_result := resolve_site doublemetaphone scorer sites text in
  if Num.geb (confidence heuristic_result) 0.82 then (heuristic_result, [])
  else if Num.gtb 0.65 (confidence heuristic_result) then
    let llm := llm_resolve_site is_available call_llm text in
    let llm_result := fst llm in
    if Num.gtb (confidence llm_result) (confidence heuristic_result)
    then (llm_result, snd llm)
    else (heuristic_result, snd llm)
  else (heuristic_result, []).

End IntentResolver.

(** The resolver as [IntentResolver.__init__] builds it: the LLM resolver is
    an [LLMResolver], whose [_call_llm] is the placeholder. *)
Definition resolve_site_name (doublemetaphone : string -> string * string)
    (scorer : string -> string -> Q) (sites : catalog) (is_available : bool)
    (text : string) : ResolutionResult * list string :=
  _resolve_site_name doublemetaphone scorer sites is_available _call_llm text.

(** The results the module can hand out: those of the four strategies, of the
    heuristic resolver, of the LLM resolver, and of the intent resolver, the
    model behind [_call_llm] being [call_llm]. *)
Inductive produced (doublemetaphone : string -> string * string)
    (scorer : string -> string -> Q) (sites : catalog)
    (call_llm : string -> llm_response)
    : ResolutionResult -> Prop :=
| by_exact_match text :
    produced doublemetaphone scorer sites call_llm (_exact_match sites text)
| by_fuzzy_match text :
    produced doublemetaphone scorer sites call_llm (_fuzzy_match scorer sites text)
| by_phonetic_match text :
    produced doublemetaphone scorer sites call_llm
      (_phonetic_match doublemetaphone sites text)
| by_partial_match text :
    produced doublemetaphone scorer sites call_llm (_partial_match sites text)
| by_heuristic text :
    produced doublemetaphone scorer sites call_llm
      (resolve_site doublemetaphone scorer sites text)
| by_llm is_available text :
    produced doublemetaphone scorer sites call_llm
      (fst (llm_resolve_site is_available call_llm text))
| by_intent is_available text :
    produced doublemetaphone scorer sites call_llm
      (fst (_resolve_site_name doublemetaphone scorer sites is_available
              call_llm text)).

(** A reply of the model that names no site gives no confidence either:
    the two fields as [LLMResolver.resolve_site] reads them. *)
Definition settled_reply (response : llm_response) : Prop :=
  fst (_parse_llm_response response) = None ->
  snd (_parse_llm_response response) == 0.

(** *** [SiteCatalog]

    The catalog object is its [sites]; [catalog_path] is
    [self.catalog_path], and a method that writes returns the new files. *)

Definition default_catalog : catalog :=
  [ ("gmail", ["gmail"; "google mail"; "googlemail"]);
    ("google", ["google"; "googol"]);
    ("facebook", ["facebook"; "fb"; "face book"]);
    ("amazon", ["amazon"; "amazon.com"]);
    ("netflix", ["netflix"; "net flix"]);
    ("youtube", ["youtube"; "you tube"; "yt"]);
    ("twitter", ["twitter"; "x"; "tweet"]);
    ("instagram", ["instagram"; "insta"; "ig"]);
    ("linkedin", ["linkedin"; "linked in"]);
    ("paypal", ["paypal"; "pay pal"]);
    ("ebay", ["ebay"; "e bay"]);
    ("spotify", ["spotify"; "spot ify"]);
    ("apple", ["apple"; "apple.com"; "icloud"]);
    ("microsoft", ["microsoft"; "ms"; "outlook"; "hotmail"]);
    ("bank", ["bank"; "banking"; "chase"; "wells fargo"; "bank of america"]);
    ("email", ["email"; "e-mail"; "mail"]);
    ("social", ["social media"; "social network"]);
    ("shopping", ["shopping"; "store"; "retail"]);
    ("entertainment", ["entertainment"; "movie"; "music"; "video"]);
    ("news", ["news"; "newspaper"; "media"]) ].

Section SiteCatalog.

Variable writes : string -> bool.

Definition save_catalog (catalog_path : string) (sites : catalog)
    (d : CatalogFile.disk) : CatalogFile.disk :=
  CatalogFile.save_catalog writes catalog_path sites d.

Definition _create_default_catalog (catalog_path : string)
    (d : CatalogFile.disk) : catalog * CatalogFile.disk :=
  (default_catalog, save_catalog catalog_path default_catalog d).

Definition load_catalog (catalog_path : string) (d : CatalogFile.disk)
    : catalog * CatalogFile.disk :=
  match CatalogFile.files d !! catalog_path with
  | Some (CatalogFile.Sites sites) =>
      (sites, CatalogFile.logged (CatalogFile.LogInfo "Loaded sites from catalog") d)
  | Some CatalogFile.NoSites =>
      ([], CatalogFile.logged (CatalogFile.LogInfo "Loaded sites from catalog") d)
  | Some CatalogFile.Broken =>
      _create_default_catalog catalog_path
        (CatalogFile.logged (CatalogFile.LogError "Error loading site catalog") d)
  | None => _create_default_catalog catalog_path d
  end.

Definition add_site (catalog_path canonical_name : string)
    (aliases : list string) (sites : catalog) (d : CatalogFile.disk)
    : catalog * CatalogFile.disk :=
  let sites := dict_set canonical_name aliases sites in
  (sites, save_catalog catalog_path sites d).

End SiteCatalog.

(** *** [PasswordCleaner] *)

Definition remove_phrases : list string :=
  [ "the password is"; "my password is"; "the password"; "my password";
    "password is"; "it's"; "it is"; "uh"; "um"; "er"; "ah"; "like";
    "you know"; "i mean"; "so"; "well"; "okay"; "ok"; "right"; "yeah";
    "yes"; "no"; "the"; "a"; "an"; "and"; "or"; "but"; "for"; "with"; "by";
    "from"; "to"; "in"; "on"; "at"; "of"; "is"; "are"; "was"; "were"; "be";
    "been"; "being"; "have"; "has"; "had"; "do"; "does"; "did"; "will";
    "would"; "could"; "should"; "may"; "might"; "can"; "must"; "shall" ].

(** A literal pattern compiled with [re.IGNORECASE] matches at the head of
    the text: character by character, up to case. *)
Fixpoint matches_here (phrase text : list ascii) : bool :=
  match phrase, text with
  | [], _ => true
  | p :: phrase', c :: text' =>
      Ascii.eqb (Text.lower_char p) (Text.lower_char c)
      && matches_here phrase' text'
  | _ :: _, [] => false
  end.

(** [pattern.sub("", text)] for such a pattern, not empty: its occurrences,
    found from left to right and none within another, are dropped. [skip]
    counts the characters of the occurrence at hand still to drop. *)
Fixpoint sub_phrase_from (skip : nat) (phrase text : list ascii) : list ascii :=
  match text with
  | [] => []
  | c :: text' =>
      match skip with
      | S skip' => sub_phrase_from skip' phrase text'
      | O =>
          if matches_here phrase text
          then sub_phrase_from (length phrase - 1) phrase text'
          else c :: sub_phrase_from 0 phrase text'
      end
  end.

Definition sub_phrase (cleaned : list ascii) (phrase : string) : list ascii :=
  sub_phrase_from 0 (list_ascii_of_string phrase) cleaned.

(** The class [[\w\s\-_@#$%&*+=]] *)
Definition password_char (c : ascii) : bool :=
  Text.isword c || Text.isspace c
  || existsb (Ascii.eqb c) (list_ascii_of_string "-_@#$%&*+=").

(** The class [[a-zA-Z]] *)
Definition ascii_letter (c : ascii) : bool :=
  let n := N_of_ascii c in
  Text.in_range 97 122 n || Text.in_range 65 90 n.

(** The test of the loop over the words: a letter, one of five digit
    sequences, or more than two characters. *)
Definition kept_word (word : list ascii) : bool :=
  existsb ascii_letter word
  || Text.mem (string_of_list_ascii word) ["123"; "456"; "789"; "000"; "111"]
  || (2 <? length word)%nat.

(** [' '.join(words)] *)
Fixpoint join (words : list (list ascii)) : list ascii :=
  match words with
  | [] => []
  | [word] => word
  | word :: rest => (word ++ Text.space :: join rest)%list
  end.

Definition clean_chars (text : list ascii) : list ascii :=
  let cleaned := Text.strip (Text.lower text) in
  let cleaned := fold_left sub_phrase remove_phrases cleaned in
  let cleaned := Text.strip (Text.sub_spaces cleaned) in
  let cleaned := List.filter password_char cleaned in
  let words := Text.split cleaned in
  let filtered_words := List.filter kept_word words in
  let cleaned := join filtered_words in
  Text.strip (Text.sub_spaces cleaned).

Definition clean_password (text : string) : string :=
  if String.eqb text "" then ""
  else string_of_list_ascii (clean_chars (list_ascii_of_string text)).

(** *** [IntentResolver], the entities *)

(** [words[-3:]] *)
Definition last_three {A} (words : list A) : list A :=
  skipn (length words - 3) words.

Definition _extract_password (text : string) : string :=
  let cleaned := clean_password text in
  let words := Text.split (list_ascii_of_string cleaned) in
  if (1 <? length words)%nat then string_of_list_ascii (join (last_three words))
  else cleaned.

(** A value of the dictionary of entities. *)
Inductive value :=
| VNone
| VStr (s : string)
| VFloat (x : Q).

Definition of_site (site : option string) : value :=
  match site with
  | Some s => VStr s
  | None => VNone
  end.

(** The dictionary that [resolve_intent] returns; [intent_confidence] and
    [intent_text] are its keys [confidence] and [original_text]. *)
Record Intent := mkIntent {
  intent : string;
  entities : gmap string value;
  intent_confidence : value;
  processing_time : Q;
  intent_text : string
}.

Section Intents.

Variable doublemetaphone : string -> string * string.
Variable scorer : string -> string -> Q.
Variable sites : catalog.
Variable is_available : bool.

(** [_extract_entities], with the prompts sent to the model. *)
Definition _extract_entities (text intent : string)
    : gmap string value * list string :=
  if Text.mem intent ["save"; "retrieve"] then
    let resolved := resolve_site_name doublemetaphone scorer sites is_available text in
    let site_result := fst resolved in
    let entities : gmap string value :=
      <["site_method" := VStr (method site_result)]>
        (<["site_confidence" := VFloat (confidence site_result)]>
           (<["site" := of_site (site site_result)]> ∅)) in
    if String.eqb intent "save" then
      (<["password" := VStr (_extract_password text)]> entities, snd resolved)
    else (entities, snd resolved)
  else (∅, []).

(** [entities.get("site_confidence", 0.0)] *)
Definition get_site_confidence (entities : gmap string value) : value :=
  default (VFloat 0.0) (entities !! "site_confidence").

(** [resolve_intent]; [started] and [finished] are its two readings of the
    clock. *)
Definition resolve_intent (text ui_state : string) (started finished : Q)
    : Intent * list string :=
  let intent := string_of_list_ascii (Text.lower (list_ascii_of_string ui_state)) in
  let extracted := _extract_entities text intent in
  (mkIntent intent (fst extracted) (get_site_confidence (fst extracted))
     (finished - started) text,
   snd extracted).

End Intents.

Definition get_resolution_confidence (result : ResolutionResult) : string :=
  if Num.geb (confidence result) 0.85 then "high"
  else if Num.geb (confidence result) 0.65 then "medium"
  else "low".

(** *** Shapes of a cleaned password, for the statements below *)

(** A character that [clean_password] can hand back: in lower case, not the
    letter a, and a word character, a blank or one of ten signs. *)
Definition cleaned_char (c : ascii) : Prop :=
  Text.lowered c /\ c <> "a"%char
  /\ (Text.isword c = true \/ c = Text.space
      \/ In c (list_ascii_of_string "-_@#$%&*+=")).

(** A word as [str.split] gives it: not empty, without white space. *)
Definition word (w : list ascii) : Prop :=
  w <> [] /\ List.Forall (fun c => Text.isspace c = false) w.

(** A character of a word of a cleaned password. *)
Definition kept_char (c : ascii) : Prop :=
  Text.lowered c /\ Text.lower_char c <> "a"%char
  /\ password_char c = true /\ Text.isspace c = false.

(** The site of the result is a canonical name of the catalog. *)
Definition known_site (sites : catalog) (r : ResolutionResult) : Prop :=
  forall c, site r = Some c -> In c (map fst sites).

(** The four suffix substitutions of [_normalize_text], in their order. *)
Definition domain_suffixes : list string := ["com"; "org"; "net"; "edu"].

(** None of the four substitutions changes [s]. *)
Definition suffix_free (s : string) : Prop :=
  forall tld, In tld domain_suffixes ->
    Text.sub_suffix tld (list_ascii_of_string s) = list_ascii_of_string s.

(** Every alias of the catalog is found by the exact search under the name
    that lists it, is not empty, and is its own normal form. *)
Definition exact_catalog (sites : catalog) : bool :=
  forallb
    (fun entry =>
       forallb
         (fun a =>
            negb (String.eqb a "") && String.eqb (_normalize_text a) a
            && match exact_search sites a with
               | Some c => String.eqb c (fst entry)
               | None => false
               end)
         (snd entry))
    sites.

End Resolve.

(** ** Sample inputs

    The catalogs and texts the examples below run on, and the values of
    [doublemetaphone] on the texts that occur in them (the library maps a
    text to its primary code and to a secondary code, empty when it is the
    primary one). *)

Module Samples.

Import Matchers.

Definition codes : list (string * (string * string)) :=
  [ ("apple", ("APL", ""));
    ("apple pie", ("APLP", ""));
    ("amazon", ("AMSN", ""));
    ("amazon dot com", ("AMSNTTKM", ""));
    ("america bank", ("AMRKPNK", ""));
    ("bank of america", ("PNKFMRK", ""));
    ("gmail", ("KML", ""));
    ("google mail", ("KKLML", "")) ].

Definition doublemetaphone (text : string) : string * string :=
  match find (fun entry => String.eqb (fst entry) text) codes with
  | Some entry => snd entry
  | None => ("", "")
  end.

Definition apple : catalog := [("apple", ["apple"])].
Definition bank : catalog := [("bank", ["bank of america"])].
Definition gmail : catalog := [("gmail", ["gmail"; "google mail"; "googlemail"])].

End Samples.

(** ** [vault/db.py] *)

Module VaultDb.

Local Open Scope Q_scope.

(** *** Values *)

(** A [str] the vault stores or holds in memory: the encoded hash that
    [PasswordHasher.hash] returns for a passphrase under a fresh salt (kept
    symbolic: the hash of a passphrase verifies that passphrase and no
    other), the text of a time ([CURRENT_TIMESTAMP], [isoformat()]), or any
    other text. *)
Inductive text_value :=
| Argon2 (salt passphrase : string)
| Iso (t : Q)
| Plain (s : string).

(** Truth value of such a [str]. *)
Definition truthy (v : text_value) : bool :=
  match v with
  | Plain s => negb (String.eqb s "")
  | _ => true
  end.

Record VaultEntry := mkEntry {
  id : Z;
  site : string;
  username : option string;
  password : string;
  memo : option string;
  created_at : Q;
  updated_at : Q;
  access_count : Z;
  last_accessed : option Q
}.

(** *** The storage engine, at the interface [db.py] uses

    A database file holds the two tables of [_create_tables], each present
    or not, and the largest row id handed out so far. Files are looked up by
    path; directories are not modelled. A statement and the commit that
    follows it act as one step. The rows are those the vault writes: their
    time columns hold times, which [datetime.fromisoformat] reads back. *)
Record tables := mkTables {
  vault_entries : option (list VaultEntry);
  vault_metadata : option (gmap string text_value);
  last_rowid : Z
}.

Inductive file :=
| Empty                              (* zero bytes, as [connect] creates it *)
| Db (key : string) (t : tables)      (* a database written under [key] *)
| Junk.                              (* anything else *)

(** What the linked engine does with the key, and its clock.
    [accepts_key]: the statement [PRAGMA key = ?], with the key as a bound
    value, is executed; the [sqlite3] module of the standard library, which
    [db.py] imports, rejects it (a [PRAGMA] takes no bound value), and a
    vault over such an engine never opens. [enforces_key]: the engine is
    cipher capable, so that a database written under one key cannot be read
    under another; a stock engine ignores the key. [current_timestamp now]:
    what [CURRENT_TIMESTAMP] gives in a statement run at the time [now] of
    the process; SQLite gives the time in UTC, to the second, where
    [datetime.now()] gives local time, to the microsecond. *)
Record engine := mkEngine {
  accepts_key : bool;
  enforces_key : bool;
  current_timestamp : Q -> Q
}.

Record Connection := mkConnection {
  conn_path : string;
  conn_key : option string
}.

Inductive exn :=
| OperationalError (msg : string)
| DatabaseError (msg : string)
| VerifyMismatchError
| InvalidHashError
| AttributeError
| FileNotFoundError
| SameFileError.

Inductive event :=
| LogInfo (msg : string)
| LogWarning (msg : string)
| LogError (msg : string)
| Argon2Verify (hash : text_value) (passphrase : string).

(** *** The vault object *)

Record VaultDatabase := mkVault {
  db_path : string;
  connection : option Connection;
  is_unlocked : bool;
  master_key : option text_value;
  idle_timeout : Q;
  last_activity : Q
}.

(** What a method of the vault can change: the object, the files, and what
    it logged or asked of [argon2], oldest first. *)
Record state := mkState {
  self : VaultDatabase;
  files : gmap string file;
  trace : list event
}.

(** *** Methods as state transformers that may raise *)

Inductive outcome (A : Type) :=
| Return (a : A)
| Raise (e : exn).

Arguments Return {A} a.
Arguments Raise {A} e.

Definition M (A : Type) : Type := state -> outcome A * state.

Definition ret {A} (a : A) : M A := fun s => (Return a, s).

Definition raise {A} (e : exn) : M A := fun s => (Raise e, s).

Definition bind {A B} (m : M A) (k : A -> M B) : M B :=
  fun s =>
    match m s with
    | (Return a, s') => k a s'
    | (Raise e, s') => (Raise e, s')
    end.

(** [try: body except Exception: handler]; the handler starts from the state
    the body had reached. *)
Definition try_except {A} (body : M A) (handler : exn -> M A) : M A :=
  fun s =>
    match body s with
    | (Return a, s') => (Return a, s')
    | (Raise e, s') => handler e s'
    end.

Notation "x <- m ;; k" := (bind m (fun x => k))
  (at level 100, m at next level, right associativity).
Notation "m ;;; k" := (bind m (fun _ => k))
  (at level 100, right associativity).

Definition get_self : M VaultDatabase := fun s => (Return (self s), s).

Definition get_files : M (gmap string file) := fun s => (Return (files s), s).

Definition put_self (v : VaultDatabase) : M unit :=
  fun s => (Return tt, mkState v (files s) (trace s)).

Definition put_files (fs : gmap string file) : M unit :=
  fun s => (Return tt, mkState (self s) fs (trace s)).

Definition emit (e : event) : M unit :=
  fun s => (Return tt, mkState (self s) (files s) (trace s ++ [e])%list).

Definition set_connection (c : option Connection) : M unit :=
  v <- get_self ;;
  put_self (mkVault (db_path v) c (is_unlocked v) (master_key v)
              (idle_timeout v) (last_activity v)).

Definition set_is_unlocked (b : bool) : M unit :=
  v <- get_self ;;
  put_self (mkVault (db_path v) (connection v) b (master_key v)
              (idle_timeout v) (last_activity v)).

Definition set_master_key (k : option text_value) : M unit :=
  v <- get_self ;;
  put_self (mkVault (db_path v) (connection v) (is_unlocked v) k
              (idle_timeout v) (last_activity v)).

Definition set_last_activity (t : Q) : M unit :=
  v <- get_self ;;
  put_self (mkVault (db_path v) (connection v) (is_unlocked v) (master_key v)
              (idle_timeout v) t).

Section Engine.

Variable eng : engine.

(** [sqlite3.connect(path)]: a handle with no key yet; a missing file is
    created empty. *)
Definition connect (path : string) : M Connection :=
  fs <- get_files ;;
  match fs !! path with
  | Some _ => ret (mkConnection path None)
  | None => put_files (<[path := Empty]> fs) ;;; ret (mkConnection path None)
  end.

(** [c.execute("PRAGMA key = ?", (key,))] *)
Definition pragma_key (c : Connection) (key : string) : M Connection :=
  if accepts_key eng then ret (mkConnection (conn_path c) (Some key))
  else raise (OperationalError "syntax error").

Definition key_opens (c : Connection) (key : string) : bool :=
  negb (enforces_key eng) ||
  match conn_key c with
  | Some k => String.eqb k key
  | None => false
  end.

Definition no_tables : tables := mkTables None None 0%Z.

(** The tables a statement run on [c] sees; raises on a file the handle
    cannot read. *)
Definition read_db (c : Connection) : M tables :=
  fs <- get_files ;;
  match fs !! conn_path c with
  | Some Empty => ret no_tables
  | Some (Db key t) =>
      if key_opens c key then ret t
      else raise (DatabaseError "file is not a database")
  | Some Junk => raise (DatabaseError "file is not a database")
  | None => raise (OperationalError "disk I/O error")
  end.

(** The tables as a committed statement run on [c] leaves them. An empty
    file becomes a database under the key of the handle. *)
Definition write_db (c : Connection) (t : tables) : M unit :=
  fs <- get_files ;;
  match fs !! conn_path c with
  | Some (Db key _) =>
      if key_opens c key then put_files (<[conn_path c := Db key t]> fs)
      else raise (DatabaseError "file is not a database")
  | Some Empty =>
      put_files (<[conn_path c := Db (default "" (conn_key c)) t]> fs)
  | Some Junk => raise (DatabaseError "file is not a database")
  | None => raise (OperationalError "disk I/O error")
  end.

(** [self.connection.cursor()]: [AttributeError] on [None]. *)
Definition cursor : M Connection :=
  v <- get_self ;;
  match connection v with
  | Some c => ret c
  | None => raise AttributeError
  end.

Definition entries_of (t : tables) : M (list VaultEntry) :=
  match vault_entries t with
  | Some rows => ret rows
  | None => raise (OperationalError "no such table: vault_entries")
  end.

Definition metadata_of (t : tables) : M (gmap string text_value) :=
  match vault_metadata t with
  | Some rows => ret rows
  | None => raise (OperationalError "no such table: vault_metadata")
  end.

(** [INSERT OR REPLACE INTO vault_metadata (key, value) VALUES (k, v)] and
    the commit that follows it. *)
Definition put_metadata (c : Connection) (k : string) (v : text_value) : M unit :=
  t <- read_db c ;;
  rows <- metadata_of t ;;
  write_db c (mkTables (vault_entries t) (Some (<[k := v]> rows)) (last_rowid t)).

(** *** Helpers of the statements *)

(** The row id an [AUTOINCREMENT] column gives the next row. *)
Definition next_rowid (t : tables) (rows : list VaultEntry) : Z :=
  (fold_left Z.max (map id rows) (last_rowid t) + 1)%Z.

Definition site_is (name : string) (row : VaultEntry) : bool :=
  String.eqb (site row) name.

(** [UPDATE vault_entries SET password = ?, username = ?, memo = ?,
    updated_at = CURRENT_TIMESTAMP WHERE site = ?] on one row. *)
Definition update_row (name password' : string) (username' memo' : option string)
    (stamp : Q) (row : VaultEntry) : VaultEntry :=
  if site_is name row
  then mkEntry (id row) (site row) username' password' memo' (created_at row)
         stamp (access_count row) (last_accessed row)
  else row.

(** [UPDATE vault_entries SET access_count = access_count + 1,
    last_accessed = CURRENT_TIMESTAMP WHERE id = ?] on one row. *)
Definition touch_row (rowid : Z) (stamp : Q) (row : VaultEntry) : VaultEntry :=
  if (id row =? rowid)%Z
  then mkEntry (id row) (site row) (username row) (password row) (memo row)
         (created_at row) (updated_at row) (access_count row + 1)%Z (Some stamp)
  else row.

Fixpoint insert_by_site (row : VaultEntry) (sorted : list VaultEntry)
    : list VaultEntry :=
  match sorted with
  | [] => [row]
  | r :: rest =>
      if String.leb (site r) (site row) then r :: insert_by_site row rest
      else row :: sorted
  end.

(** [ORDER BY site]: by code points; rows of one site keep their order. *)
Definition order_by_site (rows : list VaultEntry) : list VaultEntry :=
  fold_left (fun sorted row => insert_by_site row sorted) rows [].

(** [LIKE] of SQLite: [%] stands for any run of characters, [_] for any one
    character, and the letters A-Z match their lower case; pattern and text
    are read up to their first NUL. *)
Definition fold_case (c : ascii) : ascii :=
  let n := N_of_ascii c in
  if Text.in_range 65 90 n then ascii_of_N (n + 32) else c.

Fixpoint like_chars (pattern text : list ascii) : bool :=
  match pattern with
  | [] => match text with [] => true | _ => false end
  | p :: pattern' =>
      if Ascii.eqb p "%" then
        (fix any (text : list ascii) : bool :=
           like_chars pattern' text ||
           match text with
           | [] => false
           | _ :: text' => any text'
           end) text
      else
        match text with
        | [] => false
        | c :: text' =>
            (Ascii.eqb p "_" || Ascii.eqb (fold_case p) (fold_case c))
            && like_chars pattern' text'
        end
  end.

(** A text as the C code of [LIKE] reads it: up to its first NUL. *)
Fixpoint c_string (text : list ascii) : list ascii :=
  match text with
  | [] => []
  | c :: text' => if Ascii.eqb c zero then [] else c :: c_string text'
  end.

Definition like (pattern text : string) : bool :=
  like_chars (c_string (list_ascii_of_string pattern))
    (c_string (list_ascii_of_string text)).

(** The bytes of a text in UTF-8: one for a code point below 128, two for
    the others up to 255. *)
Definition utf8_length (text : string) : N :=
  fold_left N.add
    (map (fun c => if (N_of_ascii c <? 128)%N then 1%N else 2%N)
       (list_ascii_of_string text)) 0%N.

(** [SQLITE_MAX_LIKE_PATTERN_LENGTH] of a default build: [LIKE] refuses a
    pattern of more bytes. *)
Definition like_pattern_limit : N := 50000.

(** [WHERE site LIKE ? OR username LIKE ?] with both values
    [f"%{query}%"]; a [NULL] username matches nothing. *)
Definition matches_query (query : string) (row : VaultEntry) : bool :=
  let pattern := "%" ++ query ++ "%" in
  like pattern (site row) ||
  match username row with
  | Some u => like pattern u
  | None => false
  end.

(** [argon2_hasher.verify(hash, passphrase)] *)
Definition argon2_verify (hash : text_value) (passphrase : string) : M unit :=
  emit (Argon2Verify hash passphrase) ;;;
  match hash with
  | Argon2 _ hashed =>
      if String.eqb hashed passphrase then ret tt else raise VerifyMismatchError
  | _ => raise InvalidHashError
  end.

(** *** [VaultDatabase] *)

(** [__init__]; [now] is the reading of [time.time()]. The path has a
    directory part: [os.makedirs] of the empty name raises, and no object is
    built over a path without a slash. *)
Definition init (path : string) (now : Q) : VaultDatabase :=
  mkVault path None false None 300 now.

Definition _create_tables : M unit :=
  c <- cursor ;;
  t <- read_db c ;;
  v <- get_self ;;
  let entries := default [] (vault_entries t) in
  let metadata := default ∅ (vault_metadata t) in
  let metadata :=
    match master_key v with
    | Some k => if truthy k then <["master_hash" := k]> metadata else metadata
    | None => metadata
    end in
  write_db c (mkTables (Some entries) (Some metadata) (last_rowid t)).

Definition _get_master_hash : M (option text_value) :=
  try_except
    (c <- cursor ;;
     t <- read_db c ;;
     rows <- metadata_of t ;;
     ret (rows !! "master_hash"))
    (fun _ => ret None).

Definition _setup_auto_lock : M unit := ret tt.

Definition _update_activity (now : Q) : M unit := set_last_activity now.

Definition lock_vault : M unit :=
  v <- get_self ;;
  match connection v with
  | Some _ => set_connection None
  | None => ret tt
  end ;;;
  set_is_unlocked false ;;;
  set_master_key None ;;;
  set_last_activity 0 ;;;
  emit (LogInfo "Vault locked").

Definition _check_auto_lock (now : Q) : M unit :=
  v <- get_self ;;
  if is_unlocked v && Num.gtb (now - last_activity v) (idle_timeout v) then
    emit (LogInfo "Auto-locking vault due to inactivity") ;;;
    lock_vault
  else ret tt.

(** [salt] is the salt that [hash] draws. *)
Definition initialize_vault (master_passphrase salt : string) (now : Q) : M bool :=
  try_except
    (set_master_key (Some (Argon2 salt master_passphrase)) ;;;
     v <- get_self ;;
     c <- connect (db_path v) ;;
     set_connection (Some c) ;;;
     c <- pragma_key c master_passphrase ;;
     set_connection (Some c) ;;;
     _create_tables ;;;
     _setup_auto_lock ;;;
     set_is_unlocked true ;;;
     set_last_activity now ;;;
     emit (LogInfo "Vault initialized successfully") ;;;
     ret true)
    (fun _ => emit (LogError "Failed to initialize vault") ;;; ret false).

(** The check of the stored hash in [unlock_vault]: [false] stands for the
    [return False] after a mismatch. *)
Definition verify_stored_hash (stored_hash : option text_value)
    (master_passphrase : string) : M bool :=
  match stored_hash with
  | Some h =>
      if truthy h then
        try_except
          (argon2_verify h master_passphrase ;;; ret true)
          (fun e =>
             match e with
             | VerifyMismatchError =>
                 emit (LogError "Invalid master passphrase") ;;; ret false
             | _ => raise e
             end)
      else ret true
  | None => ret true
  end.

Definition unlock_vault (master_passphrase : string) (now : Q) : M bool :=
  try_except
    (v <- get_self ;;
     c <- connect (db_path v) ;;
     set_connection (Some c) ;;;
     c <- pragma_key c master_passphrase ;;
     set_connection (Some c) ;;;
     read_db c ;;;
     stored_hash <- _get_master_hash ;;
     verified <- verify_stored_hash stored_hash master_passphrase ;;
     if verified then
       set_master_key (Some (Plain master_passphrase)) ;;;
       set_is_unlocked true ;;;
       set_last_activity now ;;;
       emit (LogInfo "Vault unlocked successfully") ;;;
       ret true
     else ret false)
    (fun _ => emit (LogError "Failed to unlock vault") ;;; ret false).

Definition save_password (site' password' : string)
    (username' memo' : option string) (now : Q) : M bool :=
  v <- get_self ;;
  if negb (is_unlocked v) then emit (LogError "Vault is locked") ;;; ret false
  else
    try_except
      (_check_auto_lock now ;;;
       v <- get_self ;;
       if negb (is_unlocked v) then ret false
       else
         c <- cursor ;;
         t <- read_db c ;;
         rows <- entries_of t ;;
         let stamp := current_timestamp eng now in
         match find (site_is site') rows with
         | Some _ =>
             write_db c
               (mkTables
                  (Some (map (update_row site' password' username' memo' stamp) rows))
                  (vault_metadata t) (last_rowid t))
         | None =>
             let rowid := next_rowid t rows in
             write_db c
               (mkTables
                  (Some (rows ++ [mkEntry rowid site' username' password' memo'
                                    stamp stamp 0%Z None])%list)
                  (vault_metadata t) rowid)
         end ;;;
         _update_activity now ;;;
         emit (LogInfo "Password saved") ;;;
         ret true)
      (fun _ => emit (LogError "Failed to save password") ;;; ret false).

(** The row is stamped with [CURRENT_TIMESTAMP]; the entry handed back
    carries [datetime.now()]. *)
Definition retrieve_password (site' : string) (now : Q) : M (option VaultEntry) :=
  v <- get_self ;;
  if negb (is_unlocked v) then emit (LogError "Vault is locked") ;;; ret None
  else
    try_except
      (_check_auto_lock now ;;;
       v <- get_self ;;
       if negb (is_unlocked v) then ret None
       else
         c <- cursor ;;
         t <- read_db c ;;
         rows <- entries_of t ;;
         match find (site_is site') rows with
         | Some result =>
             write_db c
               (mkTables
                  (Some (map (touch_row (id result) (current_timestamp eng now))
                           rows))
                  (vault_metadata t) (last_rowid t)) ;;;
             _update_activity now ;;;
             ret (Some (mkEntry (id result) (site result) (username result)
                          (password result) (memo result) (created_at result)
                          (updated_at result) (access_count result + 1)%Z
                          (Some now)))
         | None => ret None
         end)
      (fun _ => emit (LogError "Failed to retrieve password") ;;; ret None).

Definition list_entries (now : Q) : M (list VaultEntry) :=
  v <- get_self ;;
  if negb (is_unlocked v) then emit (LogError "Vault is locked") ;;; ret []
  else
    try_except
      (_check_auto_lock now ;;;
       v <- get_self ;;
       if negb (is_unlocked v) then ret []
       else
         c <- cursor ;;
         t <- read_db c ;;
         rows <- entries_of t ;;
         _update_activity now ;;;
         ret (order_by_site rows))
      (fun _ => emit (LogError "Failed to list entries") ;;; ret []).

Definition delete_entry (site' : string) (now : Q) : M bool :=
  v <- get_self ;;
  if negb (is_unlocked v) then emit (LogError "Vault is locked") ;;; ret false
  else
    try_except
      (_check_auto_lock now ;;;
       v <- get_self ;;
       if negb (is_unlocked v) then ret false
       else
         c <- cursor ;;
         t <- read_db c ;;
         rows <- entries_of t ;;
         let kept := List.filter (fun row => negb (site_is site' row)) rows in
         if (length kept <? length rows)%nat then
           write_db c (mkTables (Some kept) (vault_metadata t) (last_rowid t)) ;;;
           _update_activity now ;;;
           emit (LogInfo "Entry deleted") ;;;
           ret true
         else
           emit (LogWarning "No entry found") ;;;
           ret false)
      (fun _ => emit (LogError "Failed to delete entry") ;;; ret false).

(** [SELECT ... WHERE site LIKE ? OR username LIKE ? ORDER BY site]: [LIKE]
    is evaluated on the rows, and raises on a pattern over the limit. *)
Definition select_like (query : string) (rows : list VaultEntry)
    : M (list VaultEntry) :=
  match rows with
  | [] => ret []
  | _ =>
      if (like_pattern_limit <? utf8_length ("%" ++ query ++ "%"))%N then
        raise (OperationalError "LIKE or GLOB pattern too complex")
      else ret (order_by_site (List.filter (matches_query query) rows))
  end.

Definition search_entries (query : string) (now : Q) : M (list VaultEntry) :=
  v <- get_self ;;
  if negb (is_unlocked v) then emit (LogError "Vault is locked") ;;; ret []
  else
    try_except
      (_check_auto_lock now ;;;
       v <- get_self ;;
       if negb (is_unlocked v) then ret []
       else
         c <- cursor ;;
         t <- read_db c ;;
         rows <- entries_of t ;;
         found <- select_like query rows ;;
         _update_activity now ;;;
         ret found)
      (fun _ => emit (LogError "Failed to search entries") ;;; ret []).

(** [shutil.copy2(src, dst)] *)
Definition copy2 (src dst : string) : M unit :=
  fs <- get_files ;;
  match fs !! src with
  | None => raise FileNotFoundError
  | Some content =>
      if String.eqb src dst then raise SameFileError
      else put_files (<[dst := content]> fs)
  end.

(** [os.makedirs(name, exist_ok=True)]: [FileNotFoundError] on the empty
    name, which is the directory of a path without a slash; directories not
    being modelled, any other is taken to be there or to be made. *)
Definition makedirs (name : string) : M unit :=
  if String.eqb name "" then raise FileNotFoundError else ret tt.

Definition backup_vault (backup_path : string) (now : Q) : M bool :=
  v <- get_self ;;
  if negb (is_unlocked v) then emit (LogError "Vault is locked") ;;; ret false
  else
    try_except
      (_check_auto_lock now ;;;
       v <- get_self ;;
       if negb (is_unlocked v) then ret false
       else
         makedirs (Path.dirname backup_path) ;;;
         copy2 (db_path v) backup_path ;;;
         c <- cursor ;;
         put_metadata c "last_backup" (Iso now) ;;;
         _update_activity now ;;;
         emit (LogInfo "Vault backed up") ;;;
         ret true)
      (fun _ => emit (LogError "Failed to backup vault") ;;; ret false).

(** [source.backup(target)]: the tables of the source, written through the
    target handle. *)
Definition backup_into (source target : Connection) : M unit :=
  t <- read_db source ;;
  read_db target ;;;
  write_db target t.

(** [os.replace(src, dst)] *)
Definition replace (src dst : string) : M unit :=
  fs <- get_files ;;
  match fs !! src with
  | None => raise FileNotFoundError
  | Some content => put_files (<[dst := content]> (delete src fs))
  end.

Definition change_master_passphrase (old_passphrase new_passphrase salt : string)
    (now : Q) : M bool :=
  v <- get_self ;;
  if negb (is_unlocked v) then emit (LogError "Vault is locked") ;;; ret false
  else
    try_except
      (verified <- unlock_vault old_passphrase now ;;
       if negb verified then ret false
       else
         v <- get_self ;;
         let new_db_path := db_path v ++ ".new" in
         new_connection <- connect new_db_path ;;
         new_connection <- pragma_key new_connection new_passphrase ;;
         c <- cursor ;;
         backup_into c new_connection ;;;
         let new_master_key := Argon2 salt new_passphrase in
         put_metadata new_connection "master_hash" new_master_key ;;;
         replace new_db_path (db_path v) ;;;
         c <- connect (db_path v) ;;
         set_connection (Some c) ;;;
         c <- pragma_key c new_passphrase ;;
         set_connection (Some c) ;;;
         set_master_key (Some new_master_key) ;;;
         _update_activity now ;;;
         emit (LogInfo "Master passphrase changed successfully") ;;;
         ret true)
      (fun _ => emit (LogError "Failed to change master passphrase") ;;; ret false).

(** *** The operations of the vault, as one type *)

Inductive operation :=
| Save (site' password' : string) (username' memo' : option string)
| Retrieve (site' : string)
| ListEntries
| Delete (site' : string)
| Search (query : string)
| Backup (backup_path : string)
| ChangePassphrase (old_passphrase new_passphrase salt : string).

Inductive answer :=
| Flag (b : bool)
| Found (e : option VaultEntry)
| Entries (es : list VaultEntry).

Definition run (op : operation) (now : Q) : M answer :=
  match op with
  | Save s p u m => b <- save_password s p u m now ;; ret (Flag b)
  | Retrieve s => e <- retrieve_password s now ;; ret (Found e)
  | ListEntries => es <- list_entries now ;; ret (Entries es)
  | Delete s => b <- delete_entry s now ;; ret (Flag b)
  | Search q => es <- search_entries q now ;; ret (Entries es)
  | Backup p => b <- backup_vault p now ;; ret (Flag b)
  | ChangePassphrase o n salt =>
      b <- change_master_passphrase o n salt now ;; ret (Flag b)
  end.

(** What each operation returns on a locked vault: [False], [None], [[]]. *)
Definition refusal (op : operation) : answer :=
  match op with
  | Save _ _ _ _ | Delete _ | Backup _ | ChangePassphrase _ _ _ => Flag false
  | Retrieve _ => Found None
  | ListEntries | Search _ => Entries []
  end.


(** The store [initialize_vault] creates where there was no file. *)
Definition new_store (passphrase salt : string) : file :=
  Db passphrase
    (mkTables (Some []) (Some (<["master_hash" := Argon2 salt passphrase]> ∅)) 0).

(** The store [initialize_vault] leaves where there was one, written under
    [key], that the passphrase opens: the rows are kept, the hash replaced. *)
Definition reinitialised (passphrase salt key : string) (t : tables) : file :=
  Db key
    (mkTables (Some (default [] (vault_entries t)))
       (Some (<["master_hash" := Argon2 salt passphrase]>
                (default ∅ (vault_metadata t))))
       (last_rowid t)).

(** *** States of the vault, for the statements below *)

(** The operation was refused for a locked vault: it returned its refusal,
    logged the lock, and changed neither the object nor the files. *)
Definition refused (op : operation) (now : Q) (s : state) : Prop :=
  run op now s =
  (Return (refusal op),
   mkState (self s) (files s) (trace s ++ [LogError "Vault is locked"])%list).

(** The master hash a file holds, if it is a database that holds one. *)
Definition stored_hash (f : file) : option text_value :=
  match f with
  | Db _ t =>
      match vault_metadata t with
      | Some rows => rows !! "master_hash"
      | None => None
      end
  | _ => None
  end.

(** What a handle keyed with [passphrase] finds it can read at a path. *)
Definition opens_under (passphrase : string) (f : option file) : bool :=
  match f with
  | None | Some Empty => true
  | Some (Db key _) => negb (enforces_key eng) || String.eqb passphrase key
  | Some Junk => false
  end.

(** An unlocked vault over a store it can read, holding the rows [rows]. *)
Definition open_vault (s : state) (rows : list VaultEntry) : Prop :=
  is_unlocked (self s) = true /\
  exists c key t,
    connection (self s) = Some c /\
    files s !! conn_path c = Some (Db key t) /\
    key_opens c key = true /\
    vault_entries t = Some rows.

(** The idle timeout has not run out at [now]. *)
Definition active (now : Q) (s : state) : Prop :=
  now - last_activity (self s) <= idle_timeout (self s).

End Engine.

(** The state a method leaves, and what it returns. *)
Definition after {A} (m : M A) (s : state) : state := snd (m s).
Definition value {A} (m : M A) (s : state) : outcome A := fst (m s).

(** Unfolds the methods and the plumbing of [M] around them. *)
Ltac methods :=
  repeat (progress
    (cbv beta iota delta
       [unlock_vault initialize_vault save_password retrieve_password
        connect pragma_key read_db write_db cursor _get_master_hash
        metadata_of entries_of verify_stored_hash argon2_verify _create_tables
        _setup_auto_lock _update_activity _check_auto_lock lock_vault key_opens
        bind ret raise try_except get_self get_files put_self put_files emit
        set_connection set_is_unlocked set_master_key set_last_activity
        after value];
     simpl)).

(** [CURRENT_TIMESTAMP] of SQLite, zones aside: the time to the second. *)
Definition whole_seconds (t : Q) : Q := inject_Z (Qnum t / Z.pos (Qden t)).

(** The engine that [db.py] imports, the [sqlite3] module of the standard
    library: it rejects the key statement and knows no key; and a cipher
    capable engine that would take the key statement. *)
Definition sqlite3 : engine := mkEngine false false whole_seconds.

Definition sqlcipher : engine := mkEngine true true whole_seconds.

(** A process that has just built its vault object over no file, and the
    same after [initialize_vault], then [lock_vault]. *)

Definition started : state := mkState (init "/mnt/vault.db" 0) ∅ [].

Definition initialised : state :=
  after (initialize_vault sqlcipher "right horse" "salt" 1) started.

Definition locked : state := after lock_vault initialised.

(** *** The rest of [VaultDatabase] *)

Record VaultStats := mkStats {
  total_entries : Z;
  total_accesses : Z;
  last_backup : option Q;
  vault_size_mb : Q
}.

(** [VaultStats(0, 0, None, 0.0)] *)
Definition no_stats : VaultStats := mkStats 0 0 None 0.0.

(** The dictionary of [get_vault_health]; the three keys that [update] adds
    when the statistics were read are one optional field, and [error] is the
    key set when reading them raised. *)
Record VaultHealth := mkHealth {
  health_is_unlocked : bool;
  health_last_activity : Q;
  idle_time : Q;
  auto_lock_enabled : bool;
  auto_lock_timeout : Q;
  database_exists : bool;
  database_size : Z;
  health_totals : option (Z * Z * option Q);
  health_error : option exn
}.

(** [SUM(access_count)]: [NULL] over no row. *)
Definition sum_access_count (rows : list VaultEntry) : option Z :=
  match rows with
  | [] => None
  | _ => Some (fold_left Z.add (map access_count rows) 0%Z)
  end.

(** [x or 0] on an optional [int] *)
Definition or_zero (x : option Z) : Z :=
  match x with
  | Some n => if (n =? 0)%Z then 0%Z else n
  | None => 0%Z
  end.

Section Administration.

Variable eng : engine.

(** [getsize f] is what [os.path.getsize] gives for a file of content
    [f]. *)
Variable getsize : file -> Z.

(** [datetime.fromisoformat] on a stored text: a [ValueError] on a text
    that is no time, caught with the other exceptions. *)
Definition fromisoformat (v : text_value) : M Q :=
  match v with
  | Iso t => ret t
  | _ => raise (DatabaseError "Invalid isoformat string")
  end.

(** [os.path.getsize(path)] *)
Definition path_getsize (path : string) : M Z :=
  fs <- get_files ;;
  match fs !! path with
  | Some f => ret (getsize f)
  | None => raise FileNotFoundError
  end.

Definition get_vault_stats (now : Q) : M VaultStats :=
  v <- get_self ;;
  if negb (is_unlocked v) then emit (LogError "Vault is locked") ;;; ret no_stats
  else
    try_except
      (_check_auto_lock now ;;;
       v <- get_self ;;
       if negb (is_unlocked v) then ret no_stats
       else
         c <- cursor ;;
         t <- read_db eng c ;;
         rows <- entries_of t ;;
         let total_entries := Z.of_nat (length rows) in
         t <- read_db eng c ;;
         rows <- entries_of t ;;
         let total_accesses := or_zero (sum_access_count rows) in
         t <- read_db eng c ;;
         metadata <- metadata_of t ;;
         last_backup <-
           match metadata !! "last_backup" with
           | Some text => (time <- fromisoformat text ;; ret (Some time))
           | None => ret None
           end ;;
         size <- path_getsize (db_path v) ;;
         let vault_size_mb := inject_Z size / (1024 * 1024) in
         _update_activity now ;;;
         ret (mkStats total_entries total_accesses last_backup vault_size_mb))
      (fun _ => emit (LogError "Failed to get vault stats") ;;; ret no_stats).

(** [token] is what [secrets.token_hex(32)] draws. *)
Definition relock_vault (token : string) : M unit :=
  v <- get_self ;;
  match connection v with
  | Some _ => set_connection None
  | None => ret tt
  end ;;;
  v <- get_self ;;
  match master_key v with
  | Some k =>
      if truthy k then
        set_master_key (Some (Plain token)) ;;;
        set_master_key None
      else ret tt
  | None => ret tt
  end ;;;
  set_is_unlocked false ;;;
  set_last_activity 0 ;;;
  emit (LogInfo "Vault relocked and key wiped from memory").

Definition close : M unit :=
  v <- get_self ;;
  match connection v with
  | Some _ => set_connection None
  | None => ret tt
  end ;;;
  set_is_unlocked false ;;;
  set_master_key None.

Definition export_encrypted_backup (backup_path passphrase : string) (now : Q)
    : M bool :=
  v <- get_self ;;
  if negb (is_unlocked v) then emit (LogError "Vault is locked") ;;; ret false
  else
    try_except
      (makedirs (Path.dirname backup_path) ;;;
       backup_connection <- connect backup_path ;;
       backup_connection <- pragma_key eng backup_connection passphrase ;;
       c <- cursor ;;
       backup_into eng c backup_connection ;;;
       put_metadata eng backup_connection "backup_created" (Iso now) ;;;
       put_metadata eng backup_connection "backup_version" (Plain "1.0") ;;;
       emit (LogInfo "Encrypted backup exported") ;;;
       ret true)
      (fun _ => emit (LogError "Failed to export encrypted backup") ;;; ret false).

(** [f"{self.db_path}.pre_import.{int(time.time())}"] *)
Definition pre_import_path (v : VaultDatabase) (now : Q) : string :=
  db_path v ++ ".pre_import." ++ Path.str (Path.int now).

Definition import_encrypted_backup (backup_path passphrase : string) (now : Q)
    : M bool :=
  try_except
    (fs <- get_files ;;
     match fs !! backup_path with
     | None => emit (LogError "Backup file not found") ;;; ret false
     | Some _ =>
         test_connection <- connect backup_path ;;
         test_connection <- pragma_key eng test_connection passphrase ;;
         readable <-
           try_except (read_db eng test_connection ;;; ret true)
             (fun _ => ret false) ;;
         if negb readable then
           emit (LogError "Invalid backup passphrase") ;;; ret false
         else
           v <- get_self ;;
           let current_backup := pre_import_path v now in
           (if is_unlocked v then backup_vault eng current_backup now ;;; ret tt
            else ret tt) ;;;
           v <- get_self ;;
           copy2 backup_path (db_path v) ;;;
           unlocked <- unlock_vault eng passphrase now ;;
           if unlocked then
             emit (LogInfo "Encrypted backup imported") ;;; ret true
           else
             emit (LogError "Failed to unlock imported backup") ;;; ret false
     end)
    (fun _ => emit (LogError "Failed to import encrypted backup") ;;; ret false).

Definition get_vault_health (now : Q) : M VaultHealth :=
  v <- get_self ;;
  fs <- get_files ;;
  let health :=
    mkHealth (is_unlocked v) (last_activity v)
      (if Num.gtb (last_activity v) 0 then now - last_activity v else 0)
      true (idle_timeout v)
      (match fs !! db_path v with Some _ => true | None => false end)
      (match fs !! db_path v with Some f => getsize f | None => 0%Z end)
      None None in
  if is_unlocked v then
    try_except
      (stats <- get_vault_stats now ;;
       ret (mkHealth (health_is_unlocked health) (health_last_activity health)
              (idle_time health) (auto_lock_enabled health)
              (auto_lock_timeout health) (database_exists health)
              (database_size health)
              (Some (total_entries stats, total_accesses stats, last_backup stats))
              None))
      (fun e =>
         emit (LogError "Error getting vault stats") ;;;
         ret (mkHealth (health_is_unlocked health) (health_last_activity health)
                (idle_time health) (auto_lock_enabled health)
                (auto_lock_timeout health) (database_exists health)
                (database_size health) None (Some e)))
  else ret health.

End Administration.

(** *** The public methods, as calls

    A call of a method with its arguments; [salt] and [token] are what
    [argon2] and [secrets] draw during the call. [rotate_master_key] is not
    among them. *)
Inductive call :=
| Operate (op : operation)
| Initialize (master_passphrase salt : string)
| Unlock (master_passphrase : string)
| Lock
| Relock (token : string)
| Close
| Stats
| Health
| Export (backup_path passphrase : string)
| Import (backup_path passphrase : string).

Section Calls.

Variable eng : engine.
Variable getsize : file -> Z.

(** The call made at [now], what it returns being dropped. *)
Definition perform (c : call) (now : Q) : M unit :=
  match c with
  | Operate op => run eng op now ;;; ret tt
  | Initialize master_passphrase salt =>
      initialize_vault eng master_passphrase salt now ;;; ret tt
  | Unlock master_passphrase => unlock_vault eng master_passphrase now ;;; ret tt
  | Lock => lock_vault
  | Relock token => relock_vault token
  | Close => close
  | Stats => get_vault_stats eng getsize now ;;; ret tt
  | Health => get_vault_health eng getsize now ;;; ret tt
  | Export backup_path passphrase =>
      export_encrypted_backup eng backup_path passphrase now ;;; ret tt
  | Import backup_path passphrase =>
      import_encrypted_backup eng backup_path passphrase now ;;; ret tt
  end.

(** Calls one after the other, each at its time. *)
Fixpoint session (calls : list (call * Q)) : M unit :=
  match calls with
  | [] => ret tt
  | (c, now) :: rest => perform c now ;;; session rest
  end.

End Calls.

(** *** Shapes of the stored rows, for the statements below *)

(** The operations that look at the idle timeout before they run. *)
Definition checks_idle_timeout (op : operation) : bool :=
  match op with
  | ChangePassphrase _ _ _ => false
  | _ => true
  end.

(** The operations on the rows of the store. *)
Definition works_on_rows (op : operation) : bool :=
  match op with
  | Save _ _ _ _ | Retrieve _ | ListEntries | Delete _ | Search _ => true
  | Backup _ | ChangePassphrase _ _ _ => false
  end.

(** Whether the check of [unlock_vault] lets the passphrase through, given
    the master hash that the store holds: no hash and an empty one are not
    checked, and a text that is no hash makes [argon2] raise. *)
Definition hash_admits (hash : option text_value) (passphrase : string) : bool :=
  match hash with
  | None => true
  | Some (Argon2 _ hashed) => String.eqb hashed passphrase
  | Some (Plain s) => String.eqb s ""
  | Some (Iso _) => false
  end.

(** The master key that [relock_vault] leaves: an empty text is falsy and
    stays. *)
Definition wiped_key (k : option text_value) : option text_value :=
  match k with
  | Some k => if truthy k then None else Some k
  | None => None
  end.

(** The tables of an exported backup: those of the store and two more rows
    of metadata. *)
Definition exported (t : tables) (metadata : gmap string text_value) (now : Q)
    : tables :=
  mkTables (vault_entries t)
    (Some (<["backup_version" := Plain "1.0"]>
             (<["backup_created" := Iso now]> metadata)))
    (last_rowid t).

(** The tables after a passphrase change: the master hash is the new one. *)
Definition rekeyed (t : tables) (metadata : gmap string text_value)
    (hash : text_value) : tables :=
  mkTables (vault_entries t) (Some (<["master_hash" := hash]> metadata))
    (last_rowid t).

(** The vault object after an operation that went through at [now]. *)
Definition touched (v : VaultDatabase) (now : Q) : VaultDatabase :=
  mkVault (db_path v) (connection v) (is_unlocked v) (master_key v)
    (idle_timeout v) now.

(** The files once the rows of the store behind [c] are [rows]. *)
Definition rewritten (fs : gmap string file) (c : Connection) (key : string)
    (t : tables) (rows : list VaultEntry) : gmap string file :=
  <[conn_path c := Db key (mkTables (Some rows) (vault_metadata t) (last_rowid t))]> fs.

(** An unlocked vault whose connection reads the store at the path of the
    vault, of tables [t]. *)
Definition open_store (eng : engine) (s : state) (t : tables) : Prop :=
  is_unlocked (self s) = true /\
  exists c key,
    connection (self s) = Some c /\
    conn_path c = db_path (self s) /\
    files s !! db_path (self s) = Some (Db key t) /\
    key_opens eng c key = true.


(** The vault object once locked. *)
Definition locked_object (v : VaultDatabase) : VaultDatabase :=
  mkVault (db_path v) None false None (idle_timeout v) 0.


(** Rows in the order of [ORDER BY site]. *)
Fixpoint ordered_by_site (rows : list VaultEntry) : Prop :=
  match rows with
  | [] => True
  | r :: rest =>
      (forall r', In r' rest -> String.leb (site r) (site r') = true)
      /\ ordered_by_site rest
  end.

(** The query holds neither wild card of [LIKE], and no NUL. *)
Definition plain_query (query : string) : Prop :=
  forall c, In c (list_ascii_of_string query) ->
    c <> "%"%char /\ c <> "_"%char /\ c <> zero.

(** [needle] occurs in [text] before the first NUL of [text], the letters
    A-Z standing for a-z as well. *)
Definition occurs_nocase (needle text : string) : bool :=
  Text.contains (map fold_case (list_ascii_of_string needle))
    (map fold_case (c_string (list_ascii_of_string text))).

(** The pattern that [search_entries] makes of the query is one that [LIKE]
    takes. *)
Definition like_takes (query : string) : bool :=
  (utf8_length ("%" ++ query ++ "%") <=? like_pattern_limit)%N.

(** The vault [initialised] with two passwords saved, at times 5 and 6, and
    the rows it then holds. *)
Definition stocked : state :=
  after (save_password sqlcipher "gmail" "hunter2" (Some "Ann") None 6)
    (after (save_password sqlcipher "amazon" "tr0ub4dor" None None 5) initialised).

Definition stocked_rows : list VaultEntry :=
  [mkEntry 1 "amazon" None "tr0ub4dor" None 5 5 0 None;
   mkEntry 2 "gmail" (Some "Ann") "hunter2" None 6 6 0 None].

(** A vault object in the unlocked state, over a store of the same rows
    written without a key, as [sqlite3] reads it. *)
Definition plain_store : file :=
  Db "" (mkTables (Some stocked_rows) (Some ∅) 2).

Definition opened : state :=
  mkState
    (mkVault "/mnt/vault.db" (Some (mkConnection "/mnt/vault.db" None)) true
       (Some (Plain "right horse")) 300 6)
    (<["/mnt/vault.db" := plain_store]> ∅) [].

End VaultDb.

(** * Properties *)

(** ** Text primitives *)

Module TextFacts.

Import Text.

Lemma lower_char_idem (c : ascii) : lower_char (lower_char c) = lower_char c.
Proof. each_char c; reflexivity. Qed.

Lemma within_refl l : within l l.
Proof. intros c H. exact H. Qed.

Lemma within_trans l m n : within l m -> within m n -> within l n.
Proof. intros H1 H2 c H. apply H2, H1, H. Qed.

Lemma within_rev_l l m : within l m -> within (rev l) m.
Proof. intros H c Hc. apply H. apply in_rev. exact Hc. Qed.

Lemma within_rev_r l m : within l (rev m) -> within l m.
Proof. intros H c Hc. apply in_rev. apply H. exact Hc. Qed.

Lemma lstrip_within l : within (lstrip l) l.
Proof.
  induction l as [|c l IH]; simpl.
  - apply within_refl.
  - destruct (isspace c).
    + intros d Hd. right. apply IH. exact Hd.
    + apply within_refl.
Qed.

Lemma rstrip_within l : within (rstrip l) l.
Proof.
  unfold rstrip. apply within_rev_l, within_rev_r, lstrip_within.
Qed.

Lemma strip_within l : within (strip l) l.
Proof.
  unfold strip. eapply within_trans; [apply rstrip_within | apply lstrip_within].
Qed.

Lemma after_prefix_within p l r : after_prefix p l = Some r -> within r l.
Proof.
  revert l. induction p as [|x p IH]; intros l H; simpl in H.
  - injection H as <-. apply within_refl.
  - destruct l as [|y l]; [discriminate|].
    destruct (Ascii.eqb x y); [|discriminate].
    intros c Hc. right. apply (IH l H c Hc).
Qed.

Lemma sub_suffix_within tld s : within (sub_suffix tld s) s.
Proof.
  unfold sub_suffix.
  destruct (after_prefix _ (rev s)) as [r1|] eqn:E1; [|apply within_refl].
  apply after_prefix_within in E1.
  destruct (starts_with_space r1); [|apply within_refl].
  assert (H2 : within (lstrip r1) (rev s)).
  { eapply within_trans; [apply lstrip_within | exact E1]. }
  destruct (after_prefix _ (lstrip r1)) as [r3|] eqn:E3.
  - apply after_prefix_within in E3.
    destruct (starts_with_space r3).
    + apply within_rev_l, within_rev_r.
      eapply within_trans; [apply lstrip_within|].
      eapply within_trans; [exact E3 | exact H2].
    + apply within_rev_l, within_rev_r, H2.
  - apply within_rev_l, within_rev_r, H2.
Qed.

Lemma within_Forall (P : ascii -> Prop) l m :
  within l m -> List.Forall P m -> List.Forall P l.
Proof.
  intros Hw Hm. apply List.Forall_forall. intros c Hc.
  apply (proj1 (List.Forall_forall P m) Hm). apply Hw, Hc.
Qed.

(** *** Leading and trailing white space *)

Lemma lstrip_starts l : starts_with_space (lstrip l) = false.
Proof.
  induction l as [|c l IH]; simpl; [reflexivity|].
  destruct (isspace c) eqn:E; [exact IH | simpl; exact E].
Qed.

Lemma lstrip_fixed l : starts_with_space l = false -> lstrip l = l.
Proof.
  destruct l as [|c l]; simpl; [reflexivity|]. intros ->. reflexivity.
Qed.

Lemma rstrip_ends l : ends_with_space (rstrip l) = false.
Proof.
  unfold ends_with_space, rstrip. rewrite rev_involutive. apply lstrip_starts.
Qed.

Lemma rstrip_fixed l : ends_with_space l = false -> rstrip l = l.
Proof.
  unfold ends_with_space, rstrip. intros H.
  rewrite (lstrip_fixed _ H). apply rev_involutive.
Qed.

Lemma lstrip_split l : exists w, l = (w ++ lstrip l)%list.
Proof.
  induction l as [|c l [w IH]]; simpl.
  - exists []. reflexivity.
  - destruct (isspace c).
    + exists (c :: w). simpl. f_equal. exact IH.
    + exists []. reflexivity.
Qed.

Lemma rstrip_split l : exists w, l = (rstrip l ++ w)%list.
Proof.
  unfold rstrip. destruct (lstrip_split (rev l)) as [w Hw].
  exists (rev w).
  rewrite <- rev_app_distr, <- Hw. symmetry. apply rev_involutive.
Qed.

Lemma rstrip_starts l :
  starts_with_space l = false -> starts_with_space (rstrip l) = false.
Proof.
  intros H. destruct (rstrip_split l) as [w Hw].
  destruct (rstrip l) as [|c r] eqn:E; [reflexivity|].
  rewrite Hw in H. simpl in H. simpl. exact H.
Qed.

Lemma strip_trimmed l : trimmed (strip l).
Proof.
  unfold strip. split.
  - apply rstrip_starts, lstrip_starts.
  - apply rstrip_ends.
Qed.

Lemma strip_fixed l : trimmed l -> strip l = l.
Proof.
  intros [H1 H2]. unfold strip. rewrite (lstrip_fixed _ H1). apply rstrip_fixed, H2.
Qed.

(** *** White space runs *)

Lemma single_spaced_weaken l :
  single_spaced true l = true -> single_spaced false l = true.
Proof.
  destruct l as [|c l]; simpl; [reflexivity|].
  destruct (isspace c); [|intros H; exact H].
  rewrite andb_false_r. discriminate.
Qed.

Lemma sub_spaces_from_spaced b s : single_spaced b (sub_spaces_from b s) = true.
Proof.
  revert b. induction s as [|c s IH]; intros b; simpl; [reflexivity|].
  destruct (isspace c) eqn:E.
  - destruct b; [apply IH|]. simpl. apply IH.
  - simpl. rewrite E. apply IH.
Qed.

Lemma sub_spaces_from_fixed b s :
  single_spaced b s = true -> sub_spaces_from b s = s.
Proof.
  revert b. induction s as [|c s IH]; intros b H; simpl in *; [reflexivity|].
  destruct (isspace c).
  - apply andb_prop in H as [H H3]. apply andb_prop in H as [H1 H2].
    destruct b; [discriminate|].
    apply Ascii.eqb_eq in H1. subst c. f_equal. apply IH, H3.
  - f_equal. apply IH, H.
Qed.

Lemma single_spaced_lstrip l :
  single_spaced false l = true -> single_spaced false (lstrip l) = true.
Proof.
  induction l as [|c l IH]; simpl; [reflexivity|].
  destruct (isspace c) eqn:E.
  - intros H. apply IH. apply andb_prop in H as [_ H]. apply single_spaced_weaken, H.
  - simpl. rewrite E. intros H. exact H.
Qed.

Lemma single_spaced_prefix b l w :
  single_spaced b (l ++ w)%list = true -> single_spaced b l = true.
Proof.
  revert b. induction l as [|c l IH]; intros b; simpl; [reflexivity|].
  destruct (isspace c).
  - intros H. apply andb_prop in H as [H H3]. rewrite H. simpl. apply (IH _ H3).
  - apply IH.
Qed.

Lemma single_spaced_strip l :
  single_spaced false l = true -> single_spaced false (strip l) = true.
Proof.
  intros H. unfold strip. apply single_spaced_lstrip in H.
  destruct (rstrip_split (lstrip l)) as [w Hw]. rewrite Hw in H.
  apply (single_spaced_prefix _ _ _ H).
Qed.

(** *** Lengths *)

Lemma lstrip_length l : (length (lstrip l) <= length l)%nat.
Proof.
  induction l as [|c l IH]; simpl; [lia|].
  destruct (isspace c); simpl; lia.
Qed.

Lemma lstrip_shorter l :
  starts_with_space l = true -> (length (lstrip l) < length l)%nat.
Proof.
  destruct l as [|c l]; simpl; [discriminate|].
  intros ->. pose proof (lstrip_length l). lia.
Qed.

Lemma strip_length l : (length (strip l) <= length l)%nat.
Proof.
  unfold strip, rstrip. rewrite length_rev.
  pose proof (lstrip_length (rev (lstrip l))) as H. rewrite length_rev in H.
  pose proof (lstrip_length l). lia.
Qed.

Lemma after_prefix_length p l r :
  after_prefix p l = Some r -> (length r <= length l)%nat.
Proof.
  revert l. induction p as [|x p IH]; intros l H; simpl in H.
  - injection H as <-. lia.
  - destruct l as [|y l]; [discriminate|].
    destruct (Ascii.eqb x y); [|discriminate].
    apply IH in H. simpl. lia.
Qed.

(** A suffix substitution that applies removes at least the white space
    before the suffix. *)
Lemma sub_suffix_shrinks tld s :
  sub_suffix tld s = s \/ (length (sub_suffix tld s) < length s)%nat.
Proof.
  unfold sub_suffix.
  destruct (after_prefix _ (rev s)) as [r1|] eqn:E1; [|left; reflexivity].
  apply after_prefix_length in E1. rewrite length_rev in E1.
  destruct (starts_with_space r1) eqn:E2; [|left; reflexivity].
  right. apply lstrip_shorter in E2.
  destruct (after_prefix _ (lstrip r1)) as [r3|] eqn:E3.
  - apply after_prefix_length in E3.
    destruct (starts_with_space r3); rewrite length_rev; [|lia].
    pose proof (lstrip_length r3). lia.
  - rewrite length_rev. lia.
Qed.

Lemma sub_suffix_length tld s : (length (sub_suffix tld s) <= length s)%nat.
Proof. destruct (sub_suffix_shrinks tld s) as [->|H]; lia. Qed.

Lemma sub_punctuation_length s : length (sub_punctuation s) = length s.
Proof. apply length_map. Qed.

Lemma sub_spaces_from_length b s : (length (sub_spaces_from b s) <= length s)%nat.
Proof.
  revert b. induction s as [|c s IH]; intros b; simpl; [lia|].
  destruct (isspace c); [destruct b|]; simpl.
  - pose proof (IH true). lia.
  - pose proof (IH true). lia.
  - pose proof (IH false). lia.
Qed.

(** *** What the substitutions keep *)

Section Kept.

Variable P : ascii -> Prop.
Hypothesis P_space : P space.

Lemma sub_punctuation_keeps s : List.Forall P s -> List.Forall P (sub_punctuation s).
Proof using P_space.
  induction 1 as [|c s Hc Hs IH]; simpl; constructor; [|exact IH].
  destruct (isword c || isspace c); [exact Hc | exact P_space].
Qed.

Lemma sub_spaces_from_keeps b s :
  List.Forall P s -> List.Forall P (sub_spaces_from b s).
Proof using P_space.
  intros H. revert b. induction H as [|c s Hc Hs IH]; intros b; simpl; [constructor|].
  destruct (isspace c); [destruct b|]; try constructor; auto.
Qed.

End Kept.

Lemma lower_lowered l : List.Forall lowered (lower l).
Proof.
  induction l as [|c l IH]; simpl; constructor; [apply lower_char_idem | exact IH].
Qed.

Lemma lower_fixed l : List.Forall lowered l -> lower l = l.
Proof.
  induction 1 as [|c l Hc Hl IH]; simpl; [reflexivity|].
  rewrite Hc. f_equal. exact IH.
Qed.

Lemma sub_punctuation_words s : List.Forall word_or_space (sub_punctuation s).
Proof.
  induction s as [|c s IH]; simpl; constructor; [|exact IH].
  unfold word_or_space. destruct (isword c || isspace c) eqn:E; [exact E | reflexivity].
Qed.

Lemma sub_punctuation_fixed s :
  List.Forall word_or_space s -> sub_punctuation s = s.
Proof.
  induction 1 as [|c s Hc Hs IH]; simpl; [reflexivity|].
  unfold word_or_space in Hc. rewrite Hc. f_equal. exact IH.
Qed.

End TextFacts.

(** ** The normaliser of [resolve_deterministic.py] *)

Module NormalizeFacts.

Import Text TextFacts ResolveDeterministic.

Lemma normalize_chars_stages l :
  normalize_chars l =
  strip (sub_spaces (sub_punctuation (sub_domain_suffixes (strip (lower l))))).
Proof. reflexivity. Qed.

Lemma sub_suffixes_length tlds s :
  (length (fold_left (fun n tld => sub_suffix tld n) tlds s) <= length s)%nat.
Proof.
  revert s. induction tlds as [|t ts IH]; intros s; simpl; [lia|].
  pose proof (IH (sub_suffix t s)). pose proof (sub_suffix_length t s). lia.
Qed.

Lemma sub_suffixes_shorter tlds s tld :
  In tld tlds -> sub_suffix tld s <> s ->
  (length (fold_left (fun n tld => sub_suffix tld n) tlds s) < length s)%nat.
Proof.
  revert s. induction tlds as [|t ts IH]; intros s Hin Hne; simpl; [destruct Hin|].
  destruct (sub_suffix_shrinks t s) as [E|E].
  - rewrite E. apply IH; [|exact Hne].
    destruct Hin as [->|Hin]; [contradiction | exact Hin].
  - pose proof (sub_suffixes_length ts (sub_suffix t s)). lia.
Qed.

Lemma sub_suffixes_fixed tlds s :
  (forall tld, In tld tlds -> sub_suffix tld s = s) ->
  fold_left (fun n tld => sub_suffix tld n) tlds s = s.
Proof.
  induction tlds as [|t ts IH]; intros H; simpl; [reflexivity|].
  rewrite (H t (or_introl eq_refl)). apply IH.
  intros tld Hin. apply H. right. exact Hin.
Qed.

Lemma sub_suffixes_within tlds s :
  within (fold_left (fun n tld => sub_suffix tld n) tlds s) s.
Proof.
  revert s. induction tlds as [|t ts IH]; intros s; simpl; [apply within_refl|].
  eapply within_trans; [apply IH | apply sub_suffix_within].
Qed.

Lemma normalize_chars_normal l : normal (normalize_chars l).
Proof.
  rewrite normalize_chars_stages. split.
  - eapply within_Forall; [apply strip_within|].
    apply sub_spaces_from_keeps; [reflexivity|].
    apply sub_punctuation_keeps; [reflexivity|].
    eapply within_Forall; [apply sub_suffixes_within|].
    eapply within_Forall; [apply strip_within|].
    apply lower_lowered.
  - eapply within_Forall; [apply strip_within|].
    apply sub_spaces_from_keeps; [reflexivity|].
    apply sub_punctuation_words.
  - apply strip_trimmed.
  - apply single_spaced_strip. apply sub_spaces_from_spaced.
Qed.

(** On a normal form only the suffix substitutions can still act. *)
Lemma normalize_chars_on_normal n :
  normal n ->
  normalize_chars n = strip (sub_spaces (sub_punctuation (sub_domain_suffixes n))).
Proof.
  intros [Hl _ Ht _]. rewrite normalize_chars_stages.
  rewrite (lower_fixed _ Hl), (strip_fixed _ Ht). reflexivity.
Qed.

Lemma normalize_chars_fixed n :
  normal n ->
  (forall tld, In tld domain_suffixes -> sub_suffix tld n = n) ->
  normalize_chars n = n.
Proof.
  intros Hn Hfree. rewrite (normalize_chars_on_normal _ Hn).
  destruct Hn as [_ Hw Ht Hs].
  unfold sub_domain_suffixes. rewrite (sub_suffixes_fixed _ _ Hfree).
  rewrite (sub_punctuation_fixed _ Hw).
  unfold sub_spaces. rewrite (sub_spaces_from_fixed _ _ Hs).
  apply strip_fixed, Ht.
Qed.

Lemma normalize_chars_shorter n tld :
  normal n -> In tld domain_suffixes -> sub_suffix tld n <> n ->
  (length (normalize_chars n) < length n)%nat.
Proof.
  intros Hn Hin Hne. rewrite (normalize_chars_on_normal _ Hn).
  pose proof (sub_suffixes_shorter _ _ _ Hin Hne) as H1.
  fold (sub_domain_suffixes n) in H1.
  pose proof (strip_length (sub_spaces (sub_punctuation (sub_domain_suffixes n)))) as H2.
  pose proof (sub_spaces_from_length false (sub_punctuation (sub_domain_suffixes n))) as H3.
  fold (sub_spaces (sub_punctuation (sub_domain_suffixes n))) in H3.
  rewrite sub_punctuation_length in H3. lia.
Qed.

Lemma normalize_chars_twice l :
  normalize_chars (normalize_chars l) = normalize_chars l <->
  (forall tld, In tld domain_suffixes ->
     sub_suffix tld (normalize_chars l) = normalize_chars l).
Proof.
  pose proof (normalize_chars_normal l) as Hn. split.
  - intros Hfix tld Hin.
    destruct (List.list_eq_dec ascii_dec
                (sub_suffix tld (normalize_chars l)) (normalize_chars l))
      as [E|E]; [exact E|].
    pose proof (normalize_chars_shorter _ _ Hn Hin E) as Hlt.
    rewrite Hfix in Hlt. lia.
  - apply normalize_chars_fixed, Hn.
Qed.

Lemma normalize_text_chars text :
  list_ascii_of_string (_normalize_text text) =
  normalize_chars (list_ascii_of_string text).
Proof. unfold _normalize_text. apply list_ascii_of_string_of_list_ascii. Qed.

(** C9, as the code has it. The normaliser is idempotent on a text exactly
    when the normal form of the text does not itself end in white space
    followed by one of the domain suffixes com, org, net, edu, gov, mil
    (none of the six substitutions changes it). *)
Theorem normalize_text_idempotent_iff (text : string) :
  _normalize_text (_normalize_text text) = _normalize_text text <->
  suffix_free (_normalize_text text).
Proof.
  unfold suffix_free. rewrite normalize_text_chars.
  rewrite <- normalize_chars_twice.
  unfold _normalize_text at 1 3. rewrite normalize_text_chars. split.
  - intros H. apply (f_equal list_ascii_of_string) in H.
    rewrite !list_ascii_of_string_of_list_ascii in H. exact H.
  - intros ->. reflexivity.
Qed.

(** C9 as stated fails: an alias of the default catalog, [amazon.com], is
    normalised to [amazon com], and that to [amazon]. *)
Lemma normalize_text_not_idempotent :
  _normalize_text "amazon.com" = "amazon com" /\
  _normalize_text (_normalize_text "amazon.com") = "amazon" /\
  _normalize_text (_normalize_text "amazon.com") <> _normalize_text "amazon.com".
Proof.
  split; [reflexivity|]. split; [reflexivity|].
  vm_compute. discriminate.
Qed.

Example normalize_text_spoken_suffix :
  _normalize_text "  Google   Mail  dot   COM " = "google mail".
Proof. reflexivity. Qed.

Example normalize_text_leftmost_match :
  _normalize_text "a com dot com" = "a com" /\ _normalize_text "xdot com" = "xdot".
Proof. split; reflexivity. Qed.

End NormalizeFacts.

(** ** Comparisons of rationals *)

Module NumFacts.

Local Open Scope Q_scope.

Lemma geb_le a b : Num.geb a b = true <-> b <= a.
Proof. unfold Num.geb. apply Qle_bool_iff. Qed.

Lemma gtb_lt a b : Num.gtb a b = true <-> b < a.
Proof.
  unfold Num.gtb. rewrite negb_true_iff. split.
  - intros H. apply Qnot_le_lt. intros Hle.
    apply Qle_bool_iff in Hle. congruence.
  - intros H. destruct (Qle_bool a b) eqn:E; [|reflexivity].
    apply Qle_bool_iff in E. exfalso. exact (Qlt_not_le _ _ H E).
Qed.

Lemma gtb_false_le a b : Num.gtb a b = false <-> a <= b.
Proof.
  unfold Num.gtb. rewrite negb_false_iff. apply Qle_bool_iff.
Qed.

Lemma geb_false_lt a b : Num.geb a b = false <-> a < b.
Proof.
  unfold Num.geb. split.
  - intros H. apply Qnot_le_lt. intros Hle.
    apply Qle_bool_iff in Hle. congruence.
  - intros H. destruct (Qle_bool b a) eqn:E; [|reflexivity].
    apply Qle_bool_iff in E. exfalso. exact (Qlt_not_le _ _ H E).
Qed.

Lemma of_nat_le n m : (n <= m)%nat -> Num.of_nat n <= Num.of_nat m.
Proof. intros H. unfold Num.of_nat, Qle. simpl. lia. Qed.

Lemma of_nat_pos n : (0 < n)%nat -> 0 < Num.of_nat n.
Proof. intros H. unfold Num.of_nat, Qlt. simpl. lia. Qed.

(** A part over the whole is at most one. *)
Lemma share_le_one n m :
  (n <= m)%nat -> (0 < m)%nat -> Num.of_nat n / Num.of_nat m <= 1.
Proof.
  intros Hle Hpos. apply Qle_shift_div_r; [apply of_nat_pos, Hpos|].
  rewrite Qmult_1_l. apply of_nat_le, Hle.
Qed.

End NumFacts.

(** ** The matcher strategies *)

Module MatcherFacts.

Local Open Scope Q_scope.

Import Matchers NumFacts.

Lemma mem_In x xs : Text.mem x xs = true <-> In x xs.
Proof.
  unfold Text.mem. rewrite existsb_exists. split.
  - intros [y [Hy E]]. apply String.eqb_eq in E. subst y. exact Hy.
  - intros H. exists x. split; [exact H | apply String.eqb_refl].
Qed.


Lemma canonical_of_listed (sites : catalog) a c :
  canonical_of sites a = Some c -> exists al, In (c, al) sites /\ In a al.
Proof.
  unfold canonical_of. destruct (find _ sites) as [[c' al]|] eqn:E; [|discriminate].
  simpl. intros [= <-]. apply find_some in E as [H1 H2].
  exists al. split; [exact H1 | apply mem_In, H2].
Qed.


Lemma exact_search_listed sites text c :
  exact_search sites text = Some c -> exists al, In (c, al) sites /\ In text al.
Proof.
  unfold exact_search. destruct (Text.mem _ _); [|discriminate].
  apply canonical_of_listed.
Qed.


Lemma fold_invariant {A B} (P : A -> Prop) (f : A -> B -> A) (l : list B) (a : A) :
  P a -> (forall x y, P x -> P (f x y)) -> P (fold_left f l a).
Proof.
  intros Ha Hf. revert a Ha. induction l as [|y l IH]; intros a Ha; simpl; [exact Ha|].
  apply IH, Hf, Ha.
Qed.

(** *** Fuzzy *)

Section Fuzzy.

Variable scorer : string -> string -> Q.

Lemma extract_fold query choices best c s :
  fold_left (Fuzz.extract_step scorer query) choices best = Some (c, s) ->
  best = Some (c, s) \/ (In c choices /\ s = scorer query c).
Proof.
  revert best. induction choices as [|x xs IH]; intros best H; simpl in H.
  - left. exact H.
  - apply IH in H. destruct H as [H|[H1 H2]].
    + unfold Fuzz.extract_step in H. destruct best as [[b top]|].
      * destruct (Num.gtb (scorer query x) top).
        -- injection H as <- <-. right. split; [left; reflexivity | reflexivity].
        -- left. exact H.
      * injection H as <- <-. right. split; [left; reflexivity | reflexivity].
    + right. split; [right; exact H1 | exact H2].
Qed.

(** [extractOne] answers with one of the choices and its score. *)
Lemma extractOne_choice query choices c s :
  Fuzz.extractOne scorer query choices = Some (c, s) ->
  In c choices /\ s = scorer query c.
Proof.
  intros H. apply extract_fold in H.
  destruct H as [H|H]; [discriminate | exact H].
Qed.

Lemma fuzzy_search_score floor sites text c q :
  fuzzy_search scorer floor sites text = Some (c, q) ->
  exists a, In a (get_all_aliases sites) /\ q = scorer text a / 100
            /\ floor <= scorer text a.
Proof.
  unfold fuzzy_search.
  destruct (get_all_aliases sites) as [|a0 rest] eqn:Ea; [discriminate|].
  destruct (Fuzz.extractOne _ _ _) as [[best score]|] eqn:E; [|discriminate].
  apply extractOne_choice in E as [Hin ->].
  destruct (Num.geb _ floor) eqn:G; [|discriminate].
  destruct (canonical_of sites best); [|discriminate].
  intros [= <- <-]. exists best. repeat split; [exact Hin | apply geb_le, G].
Qed.

End Fuzzy.

(** *** Phonetic *)

Lemma tracked_start : tracked (0.0, None).
Proof. split; [reflexivity | simpl; unfold Qle; simpl; lia]. Qed.

Lemma phonetic_score_values tp ap q :
  phonetic_score tp ap = Some q -> q = 0.9 \/ q = 0.8.
Proof.
  unfold phonetic_score. destruct (truthy _ && truthy _); [|discriminate].
  destruct (String.eqb _ _); [intros [= <-]; left; reflexivity|].
  destruct (_ && _); [intros [= <-]; right; reflexivity | discriminate].
Qed.

Section Phonetic.

Variable doublemetaphone : string -> string * string.

Lemma phonetic_step_tracked tp best entry :
  tracked best /\ fst best <= 0.9 ->
  tracked (phonetic_step doublemetaphone tp best entry)
  /\ fst (phonetic_step doublemetaphone tp best entry) <= 0.9.
Proof.
  intros [[H1 H2] H3]. unfold phonetic_step.
  destruct (phonetic_score _ _) as [q|] eqn:E; [|repeat split; assumption].
  destruct (Num.gtb q (fst best)) eqn:G; [|repeat split; assumption].
  apply gtb_lt in G. apply phonetic_score_values in E.
  repeat split; simpl.
  - discriminate.
  - apply Qlt_le_weak. eapply Qle_lt_trans; [exact H2 | exact G].
  - destruct E as [-> | ->]; unfold Qle; simpl; lia.
Qed.

Lemma phonetic_loop_tracked sites text :
  tracked (phonetic_loop doublemetaphone sites text)
  /\ fst (phonetic_loop doublemetaphone sites text) <= 0.9.
Proof.
  unfold phonetic_loop.
  apply (fold_invariant (fun b => tracked b /\ fst b <= 0.9)).
  - split; [apply tracked_start | unfold Qle; simpl; lia].
  - intros x y. apply phonetic_step_tracked.
Qed.

(** A phonetic match names a site, with a score of 0.8 or 0.9. *)
Lemma phonetic_search_found sites text s q :
  phonetic_search doublemetaphone sites text = Some (s, q) ->
  s <> None /\ 0 < q /\ q <= 0.9.
Proof.
  unfold phonetic_search.
  destruct (phonetic_loop_tracked sites text) as [[H1 H2] H3].
  destruct (Num.geb _ 0.8) eqn:G; [|discriminate].
  intros [= <- <-]. apply geb_le in G. repeat split.
  - intros Hs. rewrite (H1 Hs) in G. revert G. unfold Qle. simpl. lia.
  - eapply Qlt_le_trans; [|exact G]. unfold Qlt. simpl. lia.
  - exact H3.
Qed.

End Phonetic.

(** *** Partial *)

Lemma count_matches_le words alias_words :
  (count_matches words alias_words <= length words)%nat.
Proof. unfold count_matches. apply List.filter_length_le. Qed.

Lemma partial_step_tracked words best entry :
  tracked best /\ fst best <= 1 ->
  tracked (partial_step words best entry)
  /\ fst (partial_step words best entry) <= 1.
Proof.
  intros [[H1 H2] H3]. unfold partial_step.
  set (aw := Text.words (snd entry)).
  set (m := count_matches words aw).
  destruct (0 <? m)%nat eqn:Em; [|repeat split; assumption].
  apply Nat.ltb_lt in Em.
  destruct (_ && _) eqn:G; [|repeat split; assumption].
  apply andb_prop in G as [G _]. apply gtb_lt in G.
  repeat split; simpl.
  - discriminate.
  - apply Qlt_le_weak. eapply Qle_lt_trans; [exact H2 | exact G].
  - pose proof (count_matches_le words aw). fold m in H.
    apply share_le_one; lia.
Qed.

Lemma partial_loop_tracked sites text :
  tracked (partial_loop sites text) /\ fst (partial_loop sites text) <= 1.
Proof.
  unfold partial_loop.
  apply (fold_invariant (fun b => tracked b /\ fst b <= 1)).
  - split; [apply tracked_start | unfold Qle; simpl; lia].
  - intros x y. apply partial_step_tracked.
Qed.

(** A partial match names a site, with a score of at most one. *)
Lemma partial_search_found sites text s q :
  partial_search sites text = Some (s, q) -> s <> None /\ 0 < q /\ q <= 1.
Proof.
  unfold partial_search.
  destruct (partial_loop_tracked sites text) as [[H1 H2] H3].
  destruct (Num.geb _ 0.6) eqn:G; [|discriminate].
  intros [= <- <-]. apply geb_le in G. repeat split.
  - intros Hs. rewrite (H1 Hs) in G. revert G. unfold Qle. simpl. lia.
  - eapply Qlt_le_trans; [|exact G]. unfold Qlt. simpl. lia.
  - exact H3.
Qed.

End MatcherFacts.

(** ** The deterministic resolver *)

Module DeterministicFacts.

Local Open Scope Q_scope.

Import Matchers NumFacts MatcherFacts ResolveDeterministic.

Lemma exact_unsited self text : unsited_is_zero (_exact_match self text).
Proof.
  unfold unsited_is_zero, _exact_match.
  destruct (exact_search _ _); simpl; [discriminate | reflexivity].
Qed.

Lemma fuzzy_unsited scorer self text : unsited_is_zero (_fuzzy_match scorer self text).
Proof.
  unfold unsited_is_zero, _fuzzy_match.
  destruct (fuzzy_search _ _ _ _) as [[c q]|]; simpl; [discriminate | reflexivity].
Qed.

Lemma phonetic_unsited doublemetaphone self text :
  unsited_is_zero (_phonetic_match doublemetaphone self text).
Proof.
  unfold unsited_is_zero, _phonetic_match.
  destruct (phonetic_search _ _ _) as [[s q]|] eqn:E; simpl; [|reflexivity].
  apply phonetic_search_found in E as [E _]. intros H. contradiction.
Qed.

Lemma partial_unsited self text : unsited_is_zero (_partial_match self text).
Proof.
  unfold unsited_is_zero, _partial_match.
  destruct (partial_search _ _) as [[s q]|] eqn:E; simpl; [|reflexivity].
  apply partial_search_found in E as [E _]. intros H. contradiction.
Qed.

Lemma settled_nonneg r : settled r -> 0 <= confidence r.
Proof.
  intros [H1 H2]. destruct (site r) eqn:E.
  - apply Qlt_le_weak, H2. discriminate.
  - rewrite (H1 E). unfold Qle. simpl. lia.
Qed.

Lemma settled_unmatched m o c b : settled (mkResult None 0.0 m o c b).
Proof.
  split; [intros _; reflexivity | intros H; exfalso; apply H; reflexivity].
Qed.

(** The loop over the strategies only takes a result that scores more. *)
Lemma keep_best_settled cleaned best strategy :
  settled best -> unsited_is_zero (strategy cleaned) ->
  settled (keep_best cleaned best strategy).
Proof.
  intros Hb Hs. unfold keep_best.
  destruct (Num.gtb _ _) eqn:G; [|exact Hb].
  apply gtb_lt in G. pose proof (settled_nonneg _ Hb) as H0.
  assert (Hpos : 0 < confidence (strategy cleaned)).
  { eapply Qle_lt_trans; [exact H0 | exact G]. }
  split; [exact Hs|]. intros _. exact Hpos.
Qed.

Lemma resolve_site_settled doublemetaphone scorer self text :
  settled (resolve_site doublemetaphone scorer self text).
Proof.
  unfold resolve_site. destruct (String.eqb text ""); [apply settled_unmatched|].
  set (best := fold_left _ _ _).
  assert (Hb : settled best).
  { subst best. unfold strategies. cbn [fold_left].
    repeat apply keep_best_settled.
    - apply settled_unmatched.
    - apply exact_unsited.
    - apply fuzzy_unsited.
    - apply phonetic_unsited.
    - apply partial_unsited. }
  destruct (Num.geb _ _); [|destruct (Num.geb _ _)]; exact Hb.
Qed.

(** The flag that the thresholds of [self] give a result. *)
Lemma resolve_site_flag doublemetaphone scorer self text :
  let r := resolve_site doublemetaphone scorer self text in
  needs_confirmation r =
  negb (Num.geb (confidence r) (accept_threshold self))
  && Num.geb (confidence r) (confirmation_threshold self)
  \/ text = "".
Proof.
  unfold resolve_site. destruct (String.eqb_spec text ""); [right; assumption|left].
  set (best := fold_left _ _ _).
  destruct (Num.geb _ (accept_threshold self)) eqn:G1; simpl;
    [rewrite G1; reflexivity|].
  destruct (Num.geb _ (confirmation_threshold self)) eqn:G2; simpl;
    rewrite G1, G2; reflexivity.
Qed.


Lemma fuzzy_bounded scorer self text :
  (forall b, In b (get_all_aliases (sites self)) -> scorer text b <= 100) ->
  confidence (_fuzzy_match scorer self text) <= 1.
Proof.
  intros Hs. unfold _fuzzy_match.
  destruct (fuzzy_search _ _ _ _) as [[c q]|] eqn:E; simpl.
  - apply fuzzy_search_score in E as [a [Ha [-> _]]].
    apply Qle_shift_div_r; [reflexivity|]. rewrite Qmult_1_l. apply Hs, Ha.
  - unfold Qle. simpl. lia.
Qed.

Lemma phonetic_bounded doublemetaphone self text :
  confidence (_phonetic_match doublemetaphone self text) <= 1.
Proof.
  unfold _phonetic_match.
  destruct (phonetic_search _ _ _) as [[s q]|] eqn:E; simpl.
  - apply phonetic_search_found in E as [_ [_ E]].
    eapply Qle_trans; [exact E|]. unfold Qle. simpl. lia.
  - unfold Qle. simpl. lia.
Qed.

Lemma partial_bounded self text : confidence (_partial_match self text) <= 1.
Proof.
  unfold _partial_match.
  destruct (partial_search _ _) as [[s q]|] eqn:E; simpl.
  - apply partial_search_found in E as [_ [_ E]]. exact E.
  - unfold Qle. simpl. lia.
Qed.

(** *** The loop over the strategies *)

(** What the loop keeps is the start or the result of a strategy that beat
    it, and scores at least what every strategy does. *)
Lemma keep_best_choice cleaned best strategy :
  (keep_best cleaned best strategy = best
   /\ confidence (strategy cleaned) <= confidence best)
  \/ (keep_best cleaned best strategy = strategy cleaned
      /\ confidence best < confidence (strategy cleaned)).
Proof.
  unfold keep_best. destruct (Num.gtb _ _) eqn:G.
  - right. split; [reflexivity | apply gtb_lt, G].
  - left. split; [reflexivity | apply gtb_false_le, G].
Qed.

Lemma loop_choice (P : ResolutionResult -> Prop) cleaned start
    (strategies : list (string -> ResolutionResult)) :
  P start ->
  (forall strategy, In strategy strategies ->
     confidence start < confidence (strategy cleaned) -> P (strategy cleaned)) ->
  P (fold_left (keep_best cleaned) strategies start)
  /\ confidence start <= confidence (fold_left (keep_best cleaned) strategies start).
Proof.
  revert start. induction strategies as [|s ss IH]; intros start Hstart Hs; simpl.
  - split; [exact Hstart | apply Qle_refl].
  - destruct (keep_best_choice cleaned start s) as [[E Hle]|[E Hlt]]; rewrite E.
    + apply IH; [exact Hstart|]. intros s' Hin. apply Hs. right. exact Hin.
    + destruct (IH (s cleaned)) as [H1 H2].
      * apply Hs; [left; reflexivity | exact Hlt].
      * intros s' Hin Hgt. apply Hs; [right; exact Hin|].
        eapply Qlt_trans; [exact Hlt | exact Hgt].
      * split; [exact H1|]. apply Qlt_le_weak.
        eapply Qlt_le_trans; [exact Hlt | exact H2].
Qed.

Lemma loop_above cleaned start (strategies : list (string -> ResolutionResult))
    strategy :
  In strategy strategies ->
  confidence (strategy cleaned)
  <= confidence (fold_left (keep_best cleaned) strategies start).
Proof.
  revert start. induction strategies as [|s ss IH]; intros start Hin; [destruct Hin|].
  simpl. destruct Hin as [->|Hin]; [|apply IH, Hin].
  destruct (loop_choice (fun _ => True) cleaned (keep_best cleaned start strategy) ss I)
    as [_ H]; [intros; exact I|].
  eapply Qle_trans; [|exact H].
  destruct (keep_best_choice cleaned start strategy) as [[E Hle]|[E Hlt]]; rewrite E.
  - exact Hle.
  - apply Qle_refl.
Qed.

(** The loop returns its start, or the result of the first strategy that
    reaches the highest score. *)
Lemma loop_result cleaned start (strategies : list (string -> ResolutionResult)) :
  let best := fold_left (keep_best cleaned) strategies start in
  best = start
  \/ exists before strategy after,
       strategies = (before ++ strategy :: after)%list /\
       best = strategy cleaned /\
       confidence start < confidence (strategy cleaned) /\
       forall earlier, In earlier before ->
         confidence (earlier cleaned) < confidence (strategy cleaned).
Proof.
  revert start. induction strategies as [|s ss IH]; intros start; simpl.
  - left. reflexivity.
  - destruct (keep_best_choice cleaned start s) as [[E Hle]|[E Hlt]]; rewrite E.
    + destruct (IH start) as [H|[before [st [rest [Hss [Hbest [Hgt Hbefore]]]]]]].
      * left. exact H.
      * right. exists (s :: before), st, rest.
        split; [rewrite Hss; reflexivity|]. split; [exact Hbest|]. split; [exact Hgt|].
        intros earlier [<-|Hin]; [|apply Hbefore, Hin].
        eapply Qle_lt_trans; [exact Hle | exact Hgt].
    + destruct (IH (s cleaned)) as [H|[before [st [rest [Hss [Hbest [Hgt Hbefore]]]]]]].
      * right. exists [], s, ss.
        split; [reflexivity|]. split; [exact H|]. split; [exact Hlt|].
        intros earlier [].
      * right. exists (s :: before), st, rest.
        split; [rewrite Hss; reflexivity|]. split; [exact Hbest|].
        split; [eapply Qlt_trans; [exact Hlt | exact Hgt]|].
        intros earlier [<-|Hin]; [exact Hgt | apply Hbefore, Hin].
Qed.

Lemma set_flag_fields r b :
  site (set_needs_confirmation r b) = site r
  /\ confidence (set_needs_confirmation r b) = confidence r
  /\ method (set_needs_confirmation r b) = method r
  /\ original_text (set_needs_confirmation r b) = original_text r
  /\ cleaned_text (set_needs_confirmation r b) = cleaned_text r.
Proof. repeat split. Qed.

(** The result of [resolve_site] is the best of the loop, flag aside. *)
Lemma resolve_site_best dm scorer self text :
  text <> "" ->
  let best :=
    fold_left (keep_best (_normalize_text text)) (strategies dm scorer self)
      (mkResult None 0.0 "deterministic" text (_normalize_text text) false) in
  let r := resolve_site dm scorer self text in
  site r = site best /\ confidence r = confidence best /\ method r = method best
  /\ original_text r = original_text best /\ cleaned_text r = cleaned_text best.
Proof.
  intros Hne. unfold resolve_site.
  destruct (String.eqb_spec text ""); [contradiction|].
  cbv zeta.
  destruct (Num.geb _ (accept_threshold self));
    [|destruct (Num.geb _ (confirmation_threshold self))];
    apply set_flag_fields.
Qed.

Lemma strategies_list dm scorer self strategy :
  In strategy (strategies dm scorer self) ->
  strategy = _exact_match self \/ strategy = _fuzzy_match scorer self
  \/ strategy = _phonetic_match dm self \/ strategy = _partial_match self.
Proof.
  unfold strategies. simpl. intros [<-|[<-|[<-|[<-|[]]]]]; auto.
Qed.

(** C1, as the code has it. For every input text and catalog, the result of
    [resolve_site] with the default thresholds has [needs_confirmation]
    false when its confidence is at least 0.88, true when it is in
    [0.75, 0.88), and false when it is below 0.75. Its site is [None]
    exactly when its confidence is zero, and nothing is dropped below the
    floor: for a text that is not empty, no strategy scores more on the
    normal form of the text than the result does, and the result either is
    without a site, at confidence 0.0, or carries the site and the
    confidence of a strategy, the first in the order of [strategies] to
    reach that confidence. *)
Theorem threshold_policy_of_resolve_site
    (doublemetaphone : string -> string * string)
    (scorer : string -> string -> Q) (catalog : Matchers.catalog) (text : string) :
  let self := init catalog in
  let cleaned := _normalize_text text in
  let r := resolve_site doublemetaphone scorer self text in
  (0.88 <= confidence r -> needs_confirmation r = false) /\
  (0.75 <= confidence r /\ confidence r < 0.88 -> needs_confirmation r = true) /\
  (confidence r < 0.75 -> needs_confirmation r = false) /\
  (site r = None <-> confidence r == 0) /\
  (text <> "" ->
   (forall strategy, In strategy (strategies doublemetaphone scorer self) ->
      confidence (strategy cleaned) <= confidence r) /\
   ((site r = None /\ confidence r = 0.0)
    \/ exists before strategy after,
         strategies doublemetaphone scorer self
         = (before ++ strategy :: after)%list /\
         site r = site (strategy cleaned) /\
         confidence r = confidence (strategy cleaned) /\
         forall earlier, In earlier before ->
           confidence (earlier cleaned) < confidence r)).
Proof.
  intros self cleaned r.
  pose proof (resolve_site_settled doublemetaphone scorer self text) as [Hz Hp].
  fold r in Hz, Hp.
  assert (Hflag : needs_confirmation r =
                  negb (Num.geb (confidence r) 0.88) && Num.geb (confidence r) 0.75).
  { destruct (resolve_site_flag doublemetaphone scorer self text) as [H|H].
    - exact H.
    - subst r text. reflexivity. }
  split; [|split; [|split; [|split]]].
  - intros H. apply geb_le in H. rewrite Hflag, H. reflexivity.
  - intros [H1 H2]. apply geb_le in H1. apply geb_false_lt in H2.
    rewrite Hflag, H1, H2. reflexivity.
  - intros H. rewrite Hflag.
    assert (H' : confidence r < 0.75) by exact H.
    apply geb_false_lt in H'. rewrite H'. apply andb_false_r.
  - split.
    + intros H. rewrite (Hz H). reflexivity.
    + intros H. destruct (site r) eqn:E; [|reflexivity].
      exfalso. assert (Hpos : 0 < confidence r) by (apply Hp; discriminate).
      rewrite H in Hpos. exact (Qlt_irrefl _ Hpos).
  - intros Hne.
    destruct (resolve_site_best doublemetaphone scorer self text Hne)
      as [Hsite [Hconf _]].
    fold r cleaned in Hsite, Hconf. rewrite Hsite, Hconf.
    set (start := mkResult None 0.0 "deterministic" text cleaned false).
    split.
    + intros strategy Hin. apply loop_above, Hin.
    + destruct (loop_result cleaned start (strategies doublemetaphone scorer self))
        as [H|[before [st [rest [Hss [Hbest [_ Hbefore]]]]]]].
      * left. rewrite H. split; reflexivity.
      * right. exists before, st, rest. rewrite Hbest.
        split; [exact Hss|]. split; [reflexivity|]. split; [reflexivity|].
        exact Hbefore.
Qed.

(** C1 as stated fails below the confirmation floor: against the catalog
    [apple: [apple]], the text [apple pie] is a fuzzy match of ratio 10/14,
    and comes back with the site [apple]. *)
Lemma low_confidence_keeps_site :
  let r := resolve_site Samples.doublemetaphone Fuzz.ratio (init Samples.apple)
             "apple pie" in
  site r = Some "apple" /\ confidence r == 10 # 14 /\ confidence r < 0.75
  /\ needs_confirmation r = false /\ site r <> None.
Proof.
  vm_compute. repeat split; discriminate.
Qed.




End DeterministicFacts.

(** ** The resolvers of [resolve.py] *)

Module ResolveFacts.

Local Open Scope Q_scope.

Import Matchers NumFacts MatcherFacts Resolve.

Lemma heuristic_exact_unsited sites text : unsited_is_zero (_exact_match sites text).
Proof.
  unfold unsited_is_zero, _exact_match.
  destruct (exact_search _ _); simpl; [discriminate | reflexivity].
Qed.

Lemma heuristic_fuzzy_unsited scorer sites text :
  unsited_is_zero (_fuzzy_match scorer sites text).
Proof.
  unfold unsited_is_zero, _fuzzy_match.
  destruct (fuzzy_search _ _ _ _) as [[c q]|]; simpl; [discriminate | reflexivity].
Qed.

Lemma heuristic_phonetic_unsited doublemetaphone sites text :
  unsited_is_zero (_phonetic_match doublemetaphone sites text).
Proof.
  unfold unsited_is_zero, _phonetic_match.
  destruct (phonetic_search _ _ _) as [[s q]|] eqn:E; simpl; [|reflexivity].
  apply phonetic_search_found in E as [E _]. intros H. contradiction.
Qed.

Lemma heuristic_partial_unsited sites text :
  unsited_is_zero (_partial_match sites text).
Proof.
  unfold unsited_is_zero, _partial_match.
  destruct (partial_search _ _) as [[s q]|] eqn:E; simpl; [|reflexivity].
  apply partial_search_found in E as [E _]. intros H. contradiction.
Qed.

Lemma heuristic_unmatched_settled m o c : settled (mkResult None 0.0 m o c).
Proof. split; [intros _; reflexivity | unfold Qle; simpl; lia]. Qed.

Lemma heuristic_keep_best_settled cleaned best strategy :
  settled best -> unsited_is_zero (strategy cleaned) ->
  settled (keep_best cleaned best strategy).
Proof.
  intros [Hz H0] Hs. unfold keep_best.
  destruct (Num.gtb _ _) eqn:G; [|split; assumption].
  apply gtb_lt in G. split; [exact Hs|].
  apply Qlt_le_weak. eapply Qle_lt_trans; [exact H0 | exact G].
Qed.

Lemma heuristic_resolve_site_settled doublemetaphone scorer sites text :
  settled (resolve_site doublemetaphone scorer sites text).
Proof.
  unfold resolve_site.
  destruct (String.eqb text ""); [apply heuristic_unmatched_settled|].
  unfold strategies. cbn [fold_left].
  repeat apply heuristic_keep_best_settled.
  - apply heuristic_unmatched_settled.
  - apply heuristic_exact_unsited.
  - apply heuristic_fuzzy_unsited.
  - apply heuristic_phonetic_unsited.
  - apply heuristic_partial_unsited.
Qed.

(** With the placeholder [_call_llm], the LLM resolver never finds a site. *)
Lemma placeholder_unsited is_available text :
  fst (llm_resolve_site is_available _call_llm text)
  = mkResult None 0.0 "llm" text text.
Proof. unfold llm_resolve_site. destruct is_available; reflexivity. Qed.

(** Whatever the model answers, [_resolve_site_name] hands out the result of
    the heuristics or that of the LLM resolver. *)
Lemma resolve_site_name_source doublemetaphone scorer sites is_available call_llm text :
  let out := _resolve_site_name doublemetaphone scorer sites is_available call_llm text in
  fst out = resolve_site doublemetaphone scorer sites text
  \/ fst out = fst (llm_resolve_site is_available call_llm text).
Proof.
  unfold _resolve_site_name.
  destruct (Num.geb _ 0.82); [left; reflexivity|].
  destruct (Num.gtb 0.65 _); [|left; reflexivity].
  destruct (Num.gtb _ _); [right | left]; reflexivity.
Qed.

(** The LLM resolver hands on the two fields of the reply. *)
Lemma llm_resolve_site_fields is_available call_llm text :
  let r := fst (llm_resolve_site is_available call_llm text) in
  (site r = None /\ confidence r = 0.0)
  \/ (is_available = true /\
      site r = fst (_parse_llm_response (call_llm (_create_prompt text))) /\
      confidence r = snd (_parse_llm_response (call_llm (_create_prompt text)))).
Proof.
  unfold llm_resolve_site. destruct is_available; simpl; [|left; split; reflexivity].
  destruct (call_llm (_create_prompt text)) as [| |s c]; simpl.
  - left. split; reflexivity.
  - left. split; reflexivity.
  - right. split; [reflexivity|]. split; reflexivity.
Qed.

(** C4. Every result that [resolve.py] produces, by one of the four
    strategies, by the heuristic resolver, by the LLM resolver or by the
    intent resolver that escalates to it, has confidence 0.0 when its site
    is [None]. On the LLM path [LLMResolver.resolve_site] copies the site
    and the confidence of the reply as they are, so that the invariant is
    that of the replies: it holds with the [_call_llm] of the source, whose
    reply is always without a site and of confidence 0.0, and with every
    model whose replies without a site give confidence zero. *)
Theorem unsited_results_have_zero_confidence
    (doublemetaphone : string -> string * string)
    (scorer : string -> string -> Q) (sites : catalog) :
  (forall r,
     produced doublemetaphone scorer sites _call_llm r ->
     site r = None -> confidence r = 0.0) /\
  (forall call_llm,
     (forall prompt, settled_reply (call_llm prompt)) ->
     forall r,
       produced doublemetaphone scorer sites call_llm r ->
       site r = None -> confidence r == 0).
Proof.
  split.
  - intros r Hr. destruct Hr as [text|text|text|text|text|avail text|avail text].
    + apply heuristic_exact_unsited.
    + apply heuristic_fuzzy_unsited.
    + apply heuristic_phonetic_unsited.
    + apply heuristic_partial_unsited.
    + apply heuristic_resolve_site_settled.
    + rewrite placeholder_unsited. reflexivity.
    + destruct (resolve_site_name_source doublemetaphone scorer sites avail
                  _call_llm text) as [E|E]; rewrite E.
      * apply heuristic_resolve_site_settled.
      * rewrite placeholder_unsited. reflexivity.
  - intros call_llm Hreply.
    assert (Hllm : forall avail text,
              site (fst (llm_resolve_site avail call_llm text)) = None ->
              confidence (fst (llm_resolve_site avail call_llm text)) == 0).
    { intros avail text.
      destruct (llm_resolve_site_fields avail call_llm text)
        as [[_ Hc]|[_ [Hs Hc]]]; rewrite Hc.
      - intros _. reflexivity.
      - rewrite Hs. apply Hreply. }
    assert (Hzero : forall r, unsited_is_zero r -> site r = None -> confidence r == 0).
    { intros r Hr Hs. rewrite (Hr Hs). reflexivity. }
    intros r Hr. destruct Hr as [text|text|text|text|text|avail text|avail text].
    + apply Hzero, heuristic_exact_unsited.
    + apply Hzero, heuristic_fuzzy_unsited.
    + apply Hzero, heuristic_phonetic_unsited.
    + apply Hzero, heuristic_partial_unsited.
    + apply Hzero, heuristic_resolve_site_settled.
    + apply Hllm.
    + destruct (resolve_site_name_source doublemetaphone scorer sites avail
                  call_llm text) as [E|E]; rewrite E.
      * apply Hzero, heuristic_resolve_site_settled.
      * apply Hllm.
Qed.

(** The invariant at a result that went through the strategies and the
    escalation: against the default catalog no strategy matches the text
    [gmail hunter2], the heuristic result is without a site, the LLM
    resolver, being available, sends its prompt, and the reply of
    [_call_llm] does not score higher. *)
Lemma unsited_result_of_escalation :
  let heuristic :=
    resolve_site Samples.doublemetaphone Fuzz.ratio default_catalog
      "gmail hunter2" in
  let out :=
    resolve_site_name Samples.doublemetaphone Fuzz.ratio default_catalog true
      "gmail hunter2" in
  confidence heuristic < 0.65 /\ snd out = ["gmail hunter2"] /\
  site (fst out) = None /\ confidence (fst out) = 0.0.
Proof.
  cbv zeta. split; [vm_compute; reflexivity|]. split; [vm_compute; reflexivity|].
  split; [vm_compute; reflexivity|].
  apply (proj1 (unsited_results_have_zero_confidence Samples.doublemetaphone
                  Fuzz.ratio default_catalog)).
  - apply (by_intent Samples.doublemetaphone Fuzz.ratio default_catalog _call_llm
             true "gmail hunter2").
  - vm_compute. reflexivity.
Defined.

(** A model whose reply is not settled breaks the invariant: one that
    answers as the prompt of [_create_prompt] asks it to for an unknown
    text, without a site and at confidence 0.20. *)
Remark answering_model_breaks_invariant :
  let call_llm := fun _ : string => Object None (Some 0.20) in
  let r := fst (llm_resolve_site true call_llm "some random text") in
  site r = None /\ confidence r = 0.20.
Proof. split; reflexivity. Qed.

(** C8, as the code has it. Whatever the model answers: when the heuristic
    confidence is below 0.65 the LLM resolver is called, and sends one
    prompt if it is available; its result replaces the heuristic one if and
    only if its confidence is higher. When the heuristic confidence is 0.65
    or more, and so at 0.82 or more, the heuristic result is returned and
    the model is not consulted. *)
Theorem llm_consulted_below_065
    (doublemetaphone : string -> string * string)
    (scorer : string -> string -> Q) (sites : catalog) (is_available : bool)
    (call_llm : string -> llm_response) (text : string) :
  let heuristic := resolve_site doublemetaphone scorer sites text in
  let llm := llm_resolve_site is_available call_llm text in
  let out := _resolve_site_name doublemetaphone scorer sites is_available call_llm text in
  (confidence heuristic < 0.65 ->
     snd out = (if is_available then [text] else []) /\
     (confidence heuristic < confidence (fst llm) -> fst out = fst llm) /\
     (confidence (fst llm) <= confidence heuristic -> fst out = heuristic)) /\
  (0.65 <= confidence heuristic -> out = (heuristic, [])).
Proof.
  intros heuristic llm out. subst out. unfold _resolve_site_name.
  fold heuristic. fold llm. split.
  - intros Hlow.
    assert (G1 : Num.geb (confidence heuristic) 0.82 = false).
    { apply geb_false_lt. eapply Qlt_trans; [exact Hlow|]. reflexivity. }
    assert (G2 : Num.gtb 0.65 (confidence heuristic) = true) by (apply gtb_lt, Hlow).
    rewrite G1, G2.
    assert (Hcalls : snd llm = if is_available then [text] else []).
    { subst llm. unfold llm_resolve_site.
      destruct is_available; [|reflexivity]. simpl.
      destruct (call_llm _); reflexivity. }
    destruct (Num.gtb (confidence (fst llm)) (confidence heuristic)) eqn:G3; simpl.
    + apply gtb_lt in G3. repeat split.
      * exact Hcalls.
      * intros Hle. exfalso. exact (Qlt_not_le _ _ G3 Hle).
    + apply gtb_false_le in G3. repeat split.
      * exact Hcalls.
      * intros Hlt. exfalso. exact (Qlt_not_le _ _ Hlt G3).
  - intros Hhigh. destruct (Num.geb (confidence heuristic) 0.82); [reflexivity|].
    assert (G2 : Num.gtb 0.65 (confidence heuristic) = false)
      by (apply gtb_false_le, Hhigh).
    rewrite G2. reflexivity.
Qed.

(** C8 as stated fails between 0.65 and 0.82: against the catalog
    [bank: [bank of america]], the text [america bank] is a partial match
    of confidence 2/3, and is returned without a prompt to the model, though
    the LLM resolver is available. *)
Lemma llm_not_consulted_between_065_and_082 :
  let heuristic :=
    resolve_site Samples.doublemetaphone Fuzz.ratio Samples.bank "america bank" in
  let out :=
    _resolve_site_name Samples.doublemetaphone Fuzz.ratio Samples.bank true
      _call_llm "america bank" in
  site heuristic = Some "bank" /\ confidence heuristic == 2 # 3
  /\ confidence heuristic < 0.82 /\ snd out = [] /\ fst out = heuristic.
Proof.
  vm_compute. repeat split; discriminate.
Qed.

End ResolveFacts.

(** ** The vault *)

Module VaultFacts.

Local Open Scope Q_scope.

Import NumFacts VaultDb.

(** *** The lock *)

Lemma guard_refuses (eng : engine) (op : operation) (now : Q) (s : state) :
  is_unlocked (self s) = false -> refused eng op now s.
Proof.
  intros H. unfold refused.
  destruct op;
    cbv beta iota delta
      [run save_password retrieve_password list_entries delete_entry
       search_entries backup_vault change_master_passphrase bind get_self];
    rewrite H; reflexivity.
Qed.

Lemma lock_vault_state (s : state) :
  self (after lock_vault s)
  = mkVault (db_path (self s)) None false None (idle_timeout (self s)) 0
  /\ files (after lock_vault s) = files s
  /\ trace (after lock_vault s) = (trace s ++ [LogInfo "Vault locked"])%list.
Proof.
  methods. destruct (connection (self s)) eqn:E; simpl; rewrite ?E;
    repeat split; reflexivity.
Qed.

(** C2. Whatever the engine, the operation (save, retrieve, list, delete,
    search, backup, passphrase change), its arguments and the time: on a
    vault that is not unlocked, and so on one just locked by [lock_vault],
    the operation returns its refusal ([False], [None] or the empty list)
    without raising, logs that the vault is locked, and leaves the vault
    object and the files as they were. *)
Theorem locked_vault_refuses (eng : engine) (op : operation) (now : Q) (s : state) :
  (is_unlocked (self s) = false -> refused eng op now s) /\
  is_unlocked (self (after lock_vault s)) = false /\
  refused eng op now (after lock_vault s).
Proof.
  destruct (lock_vault_state s) as [Hself _].
  assert (Hlocked : is_unlocked (self (after lock_vault s)) = false).
  { rewrite Hself. reflexivity. }
  split; [apply guard_refuses|]. split; [exact Hlocked|].
  apply guard_refuses, Hlocked.
Qed.

Example uninitialized_vault_refuses :
  run sqlcipher (Save "gmail" "hunter2" None None) 1 started
  = (Return (Flag false),
     mkState (self started) (files started) [LogError "Vault is locked"]).
Proof. exact (guard_refuses sqlcipher (Save "gmail" "hunter2" None None) 1 started eq_refl). Qed.

(** *** The key statement *)

(** The files once [connect] has opened [path]: a missing file is there,
    empty. *)
Lemma connect_files (path : string) (s : state) :
  connect path s
  = (Return (mkConnection path None),
     mkState (self s)
       (match files s !! path with
        | Some _ => files s
        | None => <[path := Empty]> (files s)
        end)
       (trace s)).
Proof.
  destruct s as [v fs tr]. unfold connect, bind, get_files, put_files, ret. simpl.
  destruct (fs !! path); reflexivity.
Qed.

(** Over an engine that rejects the key statement, [unlock_vault] fails
    whatever the passphrase and the store: it has opened a handle by then,
    which stays in the object, and [connect] has created the file if there
    was none; nothing is read, and [argon2] is not asked. *)
Lemma unlock_vault_rejected (eng : engine) (passphrase : string) (now : Q)
    (s : state) :
  accepts_key eng = false ->
  unlock_vault eng passphrase now s
  = (Return false,
     mkState
       (mkVault (db_path (self s)) (Some (mkConnection (db_path (self s)) None))
          (is_unlocked (self s)) (master_key (self s)) (idle_timeout (self s))
          (last_activity (self s)))
       (match files s !! db_path (self s) with
        | Some _ => files s
        | None => <[db_path (self s) := Empty]> (files s)
        end)
       (trace s ++ [LogError "Failed to unlock vault"])%list).
Proof.
  intros Hacc. destruct s as [v fs tr].
  repeat (progress (methods; rewrite ?Hacc)).
  destruct (fs !! db_path v); repeat (progress (methods; rewrite ?Hacc));
    reflexivity.
Qed.

(** And so does [initialize_vault], which has set the master key to the
    hash of the passphrase by then. *)
Lemma initialize_vault_rejected (eng : engine) (passphrase salt : string)
    (now : Q) (s : state) :
  accepts_key eng = false ->
  initialize_vault eng passphrase salt now s
  = (Return false,
     mkState
       (mkVault (db_path (self s)) (Some (mkConnection (db_path (self s)) None))
          (is_unlocked (self s)) (Some (Argon2 salt passphrase))
          (idle_timeout (self s)) (last_activity (self s)))
       (match files s !! db_path (self s) with
        | Some _ => files s
        | None => <[db_path (self s) := Empty]> (files s)
        end)
       (trace s ++ [LogError "Failed to initialize vault"])%list).
Proof.
  intros Hacc. destruct s as [v fs tr].
  repeat (progress (methods; rewrite ?Hacc)).
  destruct (fs !! db_path v); repeat (progress (methods; rewrite ?Hacc));
    reflexivity.
Qed.

(** *** [unlock_vault] *)

(** C10, on the code as it runs. [unlock_vault] executes [PRAGMA key = ?]
    with the passphrase as a bound value on a connection of [sqlite3],
    which rejects the statement. Whatever the passphrase and the state, and
    so over a store that reads without error and holds no master hash, the
    call returns [False]: the vault is as locked or unlocked as it was, its
    key and last activity are unchanged, the store is not read and [argon2]
    is not asked; the handle opened on the way stays in the object, and a
    missing file has been created, empty. *)
Theorem unlock_vault_fails_on_sqlite3 (passphrase : string) (now : Q) (s : state) :
  let s' := after (unlock_vault sqlite3 passphrase now) s in
  value (unlock_vault sqlite3 passphrase now) s = Return false /\
  is_unlocked (self s') = is_unlocked (self s) /\
  master_key (self s') = master_key (self s) /\
  last_activity (self s') = last_activity (self s) /\
  connection (self s') = Some (mkConnection (db_path (self s)) None) /\
  (forall f, files s !! db_path (self s) = Some f -> files s' = files s) /\
  trace s' = (trace s ++ [LogError "Failed to unlock vault"])%list.
Proof.
  unfold after, value.
  rewrite (unlock_vault_rejected sqlite3 passphrase now s eq_refl). simpl.
  repeat split. intros f Hf. rewrite Hf. reflexivity.
Qed.

(** A store with both tables and no master hash, written without a key,
    which [sqlite3] reads as it is: the passphrase is refused all the same. *)
Example unlock_of_hashless_store_fails :
  let s := mkState (init "/mnt/vault.db" 0)
             (<["/mnt/vault.db" := Db "" (mkTables (Some []) (Some ∅) 0)]> ∅) [] in
  read_db sqlite3 (mkConnection "/mnt/vault.db" None) s
  = (Return (mkTables (Some []) (Some ∅) 0), s) /\
  stored_hash (Db "" (mkTables (Some []) (Some ∅) 0)) = None /\
  value (unlock_vault sqlite3 "guess" 1) s = Return false /\
  is_unlocked (self (after (unlock_vault sqlite3 "guess" 1) s)) = false.
Proof. vm_compute. repeat split; reflexivity. Qed.

(** C3, as the code has it. On a locked vault whose store was written under
    [key] and holds the hash of [key], [unlock_vault] with any other
    passphrase returns [False]; the vault stays locked, its key material and
    last activity are unchanged, and so are the files. The object does
    change: [connection] is left holding the handle opened on the store,
    keyed with the wrong passphrase when the engine took the key. *)
Theorem wrong_passphrase_keeps_vault_locked (eng : engine)
    (passphrase : string) (now : Q) (s : state) (key : string) (t : tables)
    (salt : string) :
  is_unlocked (self s) = false ->
  files s !! db_path (self s) = Some (Db key t) ->
  stored_hash (Db key t) = Some (Argon2 salt key) ->
  passphrase <> key ->
  let s' := after (unlock_vault eng passphrase now) s in
  value (unlock_vault eng passphrase now) s = Return false /\
  is_unlocked (self s') = false /\
  master_key (self s') = master_key (self s) /\
  last_activity (self s') = last_activity (self s) /\
  files s' = files s /\
  connection (self s')
  = Some (mkConnection (db_path (self s))
            (if accepts_key eng then Some passphrase else None)).
Proof.
  intros Hlocked Hfile Hhash Hwrong.
  assert (E1 : String.eqb passphrase key = false) by (apply String.eqb_neq, Hwrong).
  assert (E2 : String.eqb key passphrase = false).
  { apply String.eqb_neq. intros E. apply Hwrong. symmetry. exact E. }
  destruct s as [v fs tr]. destruct eng as [accepts enforces stamp].
  simpl in *.
  destruct accepts, enforces;
    repeat (progress (methods; rewrite ?Hfile, ?E1));
    try (repeat split; solve [reflexivity | exact Hlocked]).
  destruct (vault_metadata t) as [rows|]; [|discriminate].
  simpl. rewrite Hhash. simpl. rewrite E2. simpl.
  repeat split; solve [reflexivity | exact Hlocked].
Qed.

(** The vault initialised under [right horse], locked, then tried with
    [wrong horse]. *)
Lemma wrong_passphrase_on_locked_sample :
  let s' := after (unlock_vault sqlcipher "wrong horse" 2) locked in
  value (unlock_vault sqlcipher "wrong horse" 2) locked = Return false /\
  is_unlocked (self s') = false /\
  master_key (self s') = master_key (self locked) /\
  last_activity (self s') = last_activity (self locked) /\
  files s' = files locked /\
  connection (self s')
  = Some (mkConnection (db_path (self locked))
            (if accepts_key sqlcipher then Some "wrong horse" else None)).
Proof.
  apply (wrong_passphrase_keeps_vault_locked sqlcipher "wrong horse" 2 locked
           "right horse"
           (mkTables (Some [])
              (Some (<["master_hash" := Argon2 "salt" "right horse"]> ∅)) 0)
           "salt").
  - reflexivity.
  - vm_compute. reflexivity.
  - vm_compute. reflexivity.
  - discriminate.
Defined.

(** C3 as stated fails in its last part: the failed attempt changes the
    vault object, whose [connection] was [None] and is now an open handle. *)
Lemma failed_unlock_changes_vault_object :
  is_unlocked (self locked) = false /\
  connection (self locked) = None /\
  value (unlock_vault sqlcipher "wrong horse" 2) locked = Return false /\
  connection (self (after (unlock_vault sqlcipher "wrong horse" 2) locked))
  = Some (mkConnection "/mnt/vault.db" (Some "wrong horse")) /\
  self (after (unlock_vault sqlcipher "wrong horse" 2) locked) <> self locked.
Proof.
  vm_compute. repeat split; discriminate.
Qed.

(** *** [initialize_vault] *)

(** C6, on the code as it runs. [initialize_vault] executes
    [PRAGMA key = ?] with the passphrase as a bound value on a connection
    of [sqlite3], which rejects the statement. Whatever the passphrase and
    the state, with a store at the path or without one, the call returns
    [False]: no table is made and no hash is persisted, a file that was
    there is left as it was, and where there was none [connect] has
    created an empty one; the vault is as locked as it was, with the hash of
    the passphrase as master key and the handle opened on the way. *)
Theorem initialize_vault_fails_on_sqlite3 (master_passphrase salt : string)
    (now : Q) (s : state) :
  let s' := after (initialize_vault sqlite3 master_passphrase salt now) s in
  value (initialize_vault sqlite3 master_passphrase salt now) s = Return false /\
  is_unlocked (self s') = is_unlocked (self s) /\
  master_key (self s') = Some (Argon2 salt master_passphrase) /\
  connection (self s') = Some (mkConnection (db_path (self s)) None) /\
  (files s !! db_path (self s) = None ->
   files s' = <[db_path (self s) := Empty]> (files s)) /\
  (forall f, files s !! db_path (self s) = Some f -> files s' = files s) /\
  trace s' = (trace s ++ [LogError "Failed to initialize vault"])%list.
Proof.
  unfold after, value.
  rewrite (initialize_vault_rejected sqlite3 master_passphrase salt now s eq_refl).
  simpl. repeat split.
  - intros Hf. rewrite Hf. reflexivity.
  - intros f Hf. rewrite Hf. reflexivity.
Qed.

(** First-time setup as the vault test sets out: over no file, and over the
    empty file that the test has made at the path. *)
Example initialize_of_fresh_vault_fails :
  value (initialize_vault sqlite3 "test_passphrase_123" "salt" 1) started
  = Return false /\
  files (after (initialize_vault sqlite3 "test_passphrase_123" "salt" 1) started)
  = <["/mnt/vault.db" := Empty]> ∅ /\
  value (initialize_vault sqlite3 "test_passphrase_123" "salt" 1)
    (mkState (init "/tmp/test.db" 0) (<["/tmp/test.db" := Empty]> ∅) [])
  = Return false.
Proof. vm_compute. repeat split; reflexivity. Qed.

(** *** [save_password] and [retrieve_password] *)







Lemma active_check now (v : VaultDatabase) :
  now - last_activity v <= idle_timeout v ->
  Num.gtb (now - last_activity v) (idle_timeout v) = false.
Proof. intros H. apply gtb_false_le, H. Qed.

Section OpenVault.

Variable eng : engine.
Variables (v : VaultDatabase) (fs : gmap string file) (tr : list event).
Variables (c : Connection) (key : string) (t : tables) (rows : list VaultEntry).
Hypothesis Hunlocked : is_unlocked v = true.
Hypothesis Hconn : connection v = Some c.
Hypothesis Hfile : fs !! conn_path c = Some (Db key t).
Hypothesis Hkey : key_opens eng c key = true.
Hypothesis Hrows : vault_entries t = Some rows.


Lemma retrieve_password_open name now :
  now - last_activity v <= idle_timeout v ->
  value (retrieve_password eng name now) (mkState v fs tr)
  = Return
      (option_map
         (fun result =>
            mkEntry (id result) (site result) (username result) (password result)
              (memo result) (created_at result) (updated_at result)
              (access_count result + 1)%Z (Some now))
         (find (site_is name) rows))
  /\ (find (site_is name) rows = None ->
      retrieve_password eng name now (mkState v fs tr) = (Return None, mkState v fs tr)).
Proof using Hunlocked Hconn Hfile Hkey Hrows.
  intros Hactive. apply active_check in Hactive.
  unfold key_opens in Hkey.
  repeat (progress (methods; rewrite ?Hunlocked, ?Hactive, ?Hconn, ?Hfile, ?Hkey, ?Hrows)).
  destruct (find (site_is name) rows);
    repeat (progress (methods; rewrite ?Hunlocked, ?Hconn, ?Hfile, ?Hkey)).
  - split; [reflexivity | discriminate].
  - split; reflexivity.
Qed.

End OpenVault.



Example upsert_keeps_one_row :
  let s1 := after (save_password sqlcipher "gmail" "first" None None 5) initialised in
  let s2 := after (save_password sqlcipher "gmail" "second" None None 6) s1 in
  match value (list_entries sqlcipher 7) s2 with
  | Return es => map password es = ["second"]
  | Raise _ => False
  end.
Proof. vm_compute. reflexivity. Qed.

End VaultFacts.

(** ** The life cycle of the vault *)

Module VaultLifecycle.

Local Open Scope Q_scope.

Import NumFacts VaultDb.

(** Unfolds the methods of the vault, those of [methods] and the others. *)
Ltac all_methods :=
  repeat (progress
    (cbv beta iota delta
       [run list_entries delete_entry search_entries select_like backup_vault
        change_master_passphrase copy2 backup_into replace put_metadata
        get_vault_stats relock_vault close export_encrypted_backup
        import_encrypted_backup get_vault_health makedirs fromisoformat
        path_getsize];
     methods)).

(** *** The idle timeout *)

(** X2. An operation that looks at the idle timeout (all of them but the
    passphrase change), called on an unlocked vault more than
    [idle_timeout] after its last activity, locks the vault instead of
    running: it returns its refusal, the object is left as [lock_vault]
    leaves it, the files are untouched, and the log tells of the
    automatic lock. *)
Theorem idle_vault_locks_itself (eng : engine) (op : operation) (now : Q)
    (s : state) :
  checks_idle_timeout op = true ->
  is_unlocked (self s) = true ->
  idle_timeout (self s) < now - last_activity (self s) ->
  run eng op now s
  = (Return (refusal op),
     mkState (locked_object (self s)) (files s)
       (trace s ++ [LogInfo "Auto-locking vault due to inactivity";
                    LogInfo "Vault locked"])%list).
Proof.
  intros Hop Hunlocked Hidle. apply gtb_lt in Hidle.
  destruct s as [v fs tr]. simpl in *.
  destruct op; try discriminate;
    repeat (progress (all_methods; rewrite ?Hunlocked, ?Hidle));
    destruct (connection v) eqn:E; all_methods; rewrite ?E, <- app_assoc;
    reflexivity.
Qed.

(** The vault initialised at time 1 and asked for its entries at time 302. *)
Lemma idle_vault_locks_itself_sample :
  run sqlcipher ListEntries 302 initialised
  = (Return (refusal ListEntries),
     mkState (locked_object (self initialised)) (files initialised)
       (trace initialised ++ [LogInfo "Auto-locking vault due to inactivity";
                              LogInfo "Vault locked"])%list).
Proof.
  apply (idle_vault_locks_itself sqlcipher ListEntries 302 initialised).
  - reflexivity.
  - reflexivity.
  - vm_compute. reflexivity.
Defined.

(** *** The other ways to lock *)

(** X5. [relock_vault] and [close] lock the vault as [lock_vault] does, from
    any state and without touching the files, up to two fields of the
    object: [relock_vault] leaves a master key that is the empty text in
    place (it is falsy, so the wipe is skipped), and [close] leaves the time
    of the last activity as it was. After either, every operation is
    refused as on a locked vault. *)
Theorem relock_and_close_lock_the_vault (token : string) (s : state) :
  let v := self s in
  self (after (relock_vault token) s)
  = mkVault (db_path v) None false (wiped_key (master_key v)) (idle_timeout v) 0 /\
  self (after close s)
  = mkVault (db_path v) None false None (idle_timeout v) (last_activity v) /\
  files (after (relock_vault token) s) = files s /\
  files (after close s) = files s /\
  (forall eng op now,
     refused eng op now (after (relock_vault token) s) /\
     refused eng op now (after close s)).
Proof.
  destruct s as [v fs tr].
  assert (Hrelock : after (relock_vault token) (mkState v fs tr)
                    = mkState
                        (mkVault (db_path v) None false (wiped_key (master_key v))
                           (idle_timeout v) 0)
                        fs
                        (tr ++ [LogInfo "Vault relocked and key wiped from memory"])%list).
  { unfold wiped_key. all_methods.
    destruct (connection v) eqn:E; all_methods; rewrite ?E;
      (destruct (master_key v) as [k|] eqn:K; all_methods; rewrite ?K, ?E;
       [destruct (truthy k) eqn:T; all_methods; rewrite ?K, ?T, ?E|];
       reflexivity). }
  assert (Hclose : after close (mkState v fs tr)
                   = mkState
                       (mkVault (db_path v) None false None (idle_timeout v)
                          (last_activity v))
                       fs tr).
  { all_methods. destruct (connection v) eqn:E; all_methods; rewrite ?E; reflexivity. }
  simpl. rewrite Hrelock, Hclose. simpl. repeat split.
  - apply VaultFacts.guard_refuses. reflexivity.
  - apply VaultFacts.guard_refuses. reflexivity.
Qed.

(** *** The health report *)

(** X8. [get_vault_health] reads the lock state before it asks for the
    statistics, and the statistics look at the idle timeout. Called on an
    unlocked vault whose idle timeout has run out, it reports the vault as
    unlocked, with no entry and no access whatever the store holds, and
    with no error; the vault is locked when it returns. *)
Theorem health_report_of_idle_vault (eng : engine) (getsize : file -> Z)
    (now : Q) (s : state) :
  is_unlocked (self s) = true ->
  idle_timeout (self s) < now - last_activity (self s) ->
  let report := get_vault_health eng getsize now in
  exists health,
    value report s = Return health /\
    health_is_unlocked health = true /\
    health_totals health = Some (0%Z, 0%Z, None) /\
    health_error health = None /\
    self (after report s) = locked_object (self s) /\
    files (after report s) = files s.
Proof.
  intros Hunlocked Hidle. apply gtb_lt in Hidle.
  destruct s as [v fs tr]. simpl in *.
  repeat (progress (all_methods; rewrite ?Hunlocked, ?Hidle)).
  destruct (connection v) eqn:E;
    repeat (progress (all_methods; rewrite ?Hunlocked, ?Hidle, ?E));
    eexists; repeat split.
Qed.

(** The report of the vault initialised at time 1, asked for at time 302. *)
Lemma health_report_of_idle_vault_sample :
  let report := get_vault_health sqlcipher (fun _ => 4096%Z) 302 in
  exists health,
    value report initialised = Return health /\
    health_is_unlocked health = true /\
    health_totals health = Some (0%Z, 0%Z, None) /\
    health_error health = None /\
    self (after report initialised) = locked_object (self initialised) /\
    files (after report initialised) = files initialised.
Proof.
  apply (health_report_of_idle_vault sqlcipher (fun _ => 4096%Z) 302 initialised).
  - reflexivity.
  - vm_compute. reflexivity.
Defined.

(** *** An engine that rejects the key statement

    The [sqlite3] module is one: what follows is how the vault of [db.py]
    runs as it is written. *)

Lemma lock_vault_run (s : state) :
  lock_vault s
  = (Return tt,
     mkState (locked_object (self s)) (files s)
       (trace s ++ [LogInfo "Vault locked"])%list).
Proof.
  destruct s as [v fs tr]. unfold locked_object. all_methods.
  destruct (connection v) eqn:E; all_methods; rewrite ?E; reflexivity.
Qed.

Lemma relock_vault_run (token : string) (s : state) :
  relock_vault token s
  = (Return tt,
     mkState
       (mkVault (db_path (self s)) None false (wiped_key (master_key (self s)))
          (idle_timeout (self s)) 0)
       (files s)
       (trace s ++ [LogInfo "Vault relocked and key wiped from memory"])%list).
Proof.
  destruct s as [v fs tr]. unfold wiped_key. all_methods.
  destruct (connection v) eqn:E; all_methods; rewrite ?E;
    (destruct (master_key v) as [k|] eqn:K; all_methods; rewrite ?K, ?E;
     [destruct (truthy k) eqn:T; all_methods; rewrite ?K, ?T, ?E|];
     reflexivity).
Qed.

Lemma close_run (s : state) :
  close s
  = (Return tt,
     mkState
       (mkVault (db_path (self s)) None false None (idle_timeout (self s))
          (last_activity (self s)))
       (files s) (trace s)).
Proof.
  destruct s as [v fs tr]. all_methods.
  destruct (connection v) eqn:E; all_methods; rewrite ?E; reflexivity.
Qed.

(** [import_encrypted_backup] runs the key statement on its test handle
    before anything else is done with the backup. *)
Lemma import_rejected (eng : engine) (backup_path passphrase : string) (now : Q)
    (s : state) :
  accepts_key eng = false ->
  import_encrypted_backup eng backup_path passphrase now s
  = (Return false,
     mkState (self s) (files s)
       (trace s ++
        [LogError (match files s !! backup_path with
                   | Some _ => "Failed to import encrypted backup"
                   | None => "Backup file not found"
                   end)])%list).
Proof.
  intros Hacc. destruct s as [v fs tr]. all_methods.
  destruct (fs !! backup_path) eqn:E;
    repeat (progress (all_methods; rewrite ?E, ?Hacc)); reflexivity.
Qed.


(** [change_master_passphrase] on an unlocked vault: the old passphrase goes
    to [unlock_vault] first. *)
Lemma change_rejected (eng : engine)
    (old_passphrase new_passphrase salt : string) (now : Q) (s : state) :
  accepts_key eng = false ->
  is_unlocked (self s) = true ->
  change_master_passphrase eng old_passphrase new_passphrase salt now s
  = (Return false,
     mkState
       (mkVault (db_path (self s)) (Some (mkConnection (db_path (self s)) None))
          true (master_key (self s)) (idle_timeout (self s))
          (last_activity (self s)))
       (match files s !! db_path (self s) with
        | Some _ => files s
        | None => <[db_path (self s) := Empty]> (files s)
        end)
       (trace s ++ [LogError "Failed to unlock vault"])%list).
Proof.
  intros Hacc Hunlocked. destruct s as [v fs tr]. simpl in *.
  unfold change_master_passphrase, bind at 1, get_self at 1. simpl.
  rewrite Hunlocked. simpl. unfold try_except, bind at 1.
  rewrite (VaultFacts.unlock_vault_rejected eng old_passphrase now
             (mkState v fs tr) Hacc).
  simpl. rewrite Hunlocked. reflexivity.
Qed.

(** One call on a locked vault leaves it locked, over the same path, and
    changes no file but to create the store, empty, where it was missing. *)
Lemma perform_locked (eng : engine) (getsize : file -> Z) (c : call) (now : Q)
    (s : state) :
  accepts_key eng = false ->
  is_unlocked (self s) = false ->
  exists s',
    perform eng getsize c now s = (Return tt, s') /\
    is_unlocked (self s') = false /\
    db_path (self s') = db_path (self s) /\
    (files s' = files s
     \/ (files s !! db_path (self s) = None /\
         files s' = <[db_path (self s) := Empty]> (files s))).
Proof.
  intros Hacc Hlocked.
  assert (Hfiles : forall fs' : gmap string file,
            fs' = match files s !! db_path (self s) with
                  | Some _ => files s
                  | None => <[db_path (self s) := Empty]> (files s)
                  end ->
            fs' = files s
            \/ (files s !! db_path (self s) = None /\
                fs' = <[db_path (self s) := Empty]> (files s))).
  { intros fs' ->. destruct (files s !! db_path (self s)); [left | right; split];
      reflexivity. }
  destruct c as [op|p salt|p| |token| | | |path p|path p]; unfold perform.
  - pose proof (VaultFacts.guard_refuses eng op now s Hlocked) as H.
    unfold refused in H. unfold bind. rewrite H.
    eexists. split; [reflexivity|]. simpl. auto.
  - unfold bind. rewrite (VaultFacts.initialize_vault_rejected eng p salt now s Hacc).
    eexists. split; [reflexivity|]. simpl. auto.
  - unfold bind. rewrite (VaultFacts.unlock_vault_rejected eng p now s Hacc).
    eexists. split; [reflexivity|]. simpl. auto.
  - rewrite lock_vault_run. eexists. split; [reflexivity|]. simpl. auto.
  - rewrite relock_vault_run. eexists. split; [reflexivity|]. simpl. auto.
  - rewrite close_run. eexists. split; [reflexivity|]. simpl. auto.
  - destruct s as [v fs tr]. simpl in *.
    repeat (progress (all_methods; rewrite ?Hlocked)).
    eexists. split; [reflexivity|]. simpl. auto.
  - destruct s as [v fs tr]. simpl in *.
    repeat (progress (all_methods; rewrite ?Hlocked)).
    eexists. split; [reflexivity|]. simpl. auto.
  - destruct s as [v fs tr]. simpl in *.
    repeat (progress (all_methods; rewrite ?Hlocked)).
    eexists. split; [reflexivity|]. simpl. auto.
  - unfold bind. rewrite (import_rejected eng path p now s Hacc).
    eexists. split; [reflexivity|]. simpl. auto.
Qed.

(** X1. Over an engine that rejects the key statement, as [sqlite3] does, a
    locked vault never opens: after any calls of its methods ([initialize_vault],
    [unlock_vault], the seven operations, the locks, the statistics and the
    health report, export and import), at any times and with any
    arguments, the vault is still locked, and no file has changed but for
    the store, which [connect] has created empty if it was missing. *)
Theorem locked_vault_never_opens (eng : engine) (getsize : file -> Z)
    (calls : list (call * Q)) (s : state) :
  accepts_key eng = false ->
  is_unlocked (self s) = false ->
  let s' := after (session eng getsize calls) s in
  value (session eng getsize calls) s = Return tt /\
  is_unlocked (self s') = false /\
  (files s' = files s
   \/ (files s !! db_path (self s) = None /\
       files s' = <[db_path (self s) := Empty]> (files s))).
Proof.
  intros Hacc. revert s. induction calls as [|[c now] calls IH]; intros s Hlocked.
  - simpl. split; [reflexivity|]. split; [exact Hlocked | left; reflexivity].
  - destruct (perform_locked eng getsize c now s Hacc Hlocked)
      as [s1 [Hrun [Hlocked1 [Hpath Hfiles1]]]].
    destruct (IH s1 Hlocked1) as [Hvalue [Hlocked' Hfiles']].
    assert (Hstep : session eng getsize ((c, now) :: calls) s
                    = session eng getsize calls s1).
    { simpl. unfold bind. rewrite Hrun. reflexivity. }
    cbv zeta. unfold after, value in *. rewrite Hstep.
    split; [exact Hvalue|]. split; [exact Hlocked'|].
    rewrite Hpath in Hfiles'.
    destruct Hfiles1 as [E1|[Hnone E1]]; rewrite E1 in Hfiles'.
    + exact Hfiles'.
    + destruct Hfiles' as [E'|[Hnone' _]].
      * right. split; [exact Hnone | exact E'].
      * rewrite lookup_insert_eq in Hnone'. discriminate.
Qed.

(** A fresh process that tries to set its vault up, to unlock it, to save a
    password, to look it up and to restore a backup. *)
Lemma locked_vault_never_opens_sample :
  let calls :=
    [(Initialize "right horse" "salt", 1); (Unlock "right horse", 2);
     (Operate (Save "gmail" "hunter2" None None), 3);
     (Operate (Retrieve "gmail"), 4);
     (Import "/mnt/backup/vault.bak" "right horse", 5); (Stats, 6)] in
  let s' := after (session sqlite3 (fun _ => 0%Z) calls) started in
  value (session sqlite3 (fun _ => 0%Z) calls) started = Return tt /\
  is_unlocked (self s') = false /\
  (files s' = files started
   \/ (files started !! db_path (self started) = None /\
       files s' = <[db_path (self started) := Empty]> (files started))).
Proof.
  apply (locked_vault_never_opens sqlite3 (fun _ => 0%Z)
           [(Initialize "right horse" "salt", 1); (Unlock "right horse", 2);
            (Operate (Save "gmail" "hunter2" None None), 3);
            (Operate (Retrieve "gmail"), 4);
            (Import "/mnt/backup/vault.bak" "right horse", 5); (Stats, 6)]
           started).
  - reflexivity.
  - reflexivity.
Defined.

Lemma append_length (s1 s2 : string) :
  String.length (s1 ++ s2) = (String.length s1 + String.length s2)%nat.
Proof. induction s1 as [|c s1 IH]; simpl; [reflexivity | rewrite IH; reflexivity]. Qed.

Lemma suffixed_path_differs (path suffix : string) :
  suffix <> "" -> path ++ suffix <> path.
Proof.
  intros Hsuffix E. apply (f_equal String.length) in E.
  rewrite append_length in E. destruct suffix; [congruence | simpl in E; lia].
Qed.

(** X3. Over an engine that rejects the key statement, as [sqlite3] does,
    a passphrase change never goes through: [change_master_passphrase]
    returns [False] whatever the two passphrases and the time. The vault
    is as locked or unlocked as it was, with its key and its last activity;
    a store that is there is left as it is, and no [.new] file is made. On
    a vault in the unlocked state the handle of the vault is replaced by
    the one that [unlock_vault] opened for the old passphrase. *)
Theorem passphrase_change_fails_on_rejecting_engine (eng : engine)
    (old_passphrase new_passphrase salt : string) (now : Q) (s : state) :
  accepts_key eng = false ->
  let change := change_master_passphrase eng old_passphrase new_passphrase salt now in
  let s' := after change s in
  value change s = Return false /\
  is_unlocked (self s') = is_unlocked (self s) /\
  master_key (self s') = master_key (self s) /\
  last_activity (self s') = last_activity (self s) /\
  connection (self s')
  = (if is_unlocked (self s) then Some (mkConnection (db_path (self s)) None)
     else connection (self s)) /\
  (forall f, files s !! db_path (self s) = Some f -> files s' = files s) /\
  files s' !! (db_path (self s) ++ ".new") = files s !! (db_path (self s) ++ ".new").
Proof.
  intros Hacc. cbv zeta. unfold after, value.
  destruct (is_unlocked (self s)) eqn:Hunlocked.
  - rewrite (change_rejected eng old_passphrase new_passphrase salt now s Hacc
               Hunlocked).
    simpl. repeat split.
    + intros f Hf. rewrite Hf. reflexivity.
    + destruct (files s !! db_path (self s)); [reflexivity|].
      apply lookup_insert_ne. intros E. symmetry in E. revert E.
      apply suffixed_path_differs. discriminate.
  - destruct s as [v fs tr]. simpl in *.
    repeat (progress (all_methods; rewrite ?Hunlocked)).
    repeat split.
Qed.

(** The vault in the unlocked state over a plain store, asked to change
    the passphrase it was given for another. *)
Lemma passphrase_change_fails_sample :
  let change := change_master_passphrase sqlite3 "right horse" "new horse" "pepper" 7 in
  let s' := after change opened in
  value change opened = Return false /\
  is_unlocked (self s') = is_unlocked (self opened) /\
  master_key (self s') = master_key (self opened) /\
  last_activity (self s') = last_activity (self opened) /\
  connection (self s')
  = (if is_unlocked (self opened)
     then Some (mkConnection (db_path (self opened)) None)
     else connection (self opened)) /\
  (forall f, files opened !! db_path (self opened) = Some f ->
     files s' = files opened) /\
  files s' !! (db_path (self opened) ++ ".new")
  = files opened !! (db_path (self opened) ++ ".new").
Proof.
  apply (passphrase_change_fails_on_rejecting_engine sqlite3 "right horse"
           "new horse" "pepper" 7 opened).
  reflexivity.
Defined.

(** *** Backups under a passphrase of their own *)



(** X7. Over an engine that rejects the key statement, as [sqlite3] does,
    [import_encrypted_backup] never imports: it returns [False] whatever
    the backup, the passphrase, the time and the state of the vault, and
    changes neither the vault object nor any file; the store is not
    replaced, and no copy of it is made. *)
Theorem import_fails_on_rejecting_engine (eng : engine)
    (backup_path passphrase : string) (now : Q) (s : state) :
  accepts_key eng = false ->
  let import := import_encrypted_backup eng backup_path passphrase now in
  value import s = Return false /\
  self (after import s) = self s /\
  files (after import s) = files s.
Proof.
  intros Hacc. cbv zeta. unfold after, value.
  rewrite (import_rejected eng backup_path passphrase now s Hacc).
  simpl. destruct s; repeat split.
Qed.

(** A fresh process with a plain store put at the backup path. *)
Lemma import_fails_sample :
  let s := mkState (init "/mnt/vault.db" 0)
             (<["/mnt/backup/vault.bak" := plain_store]> ∅) [] in
  let import := import_encrypted_backup sqlite3 "/mnt/backup/vault.bak" "" 1 in
  value import s = Return false /\
  self (after import s) = self s /\
  files (after import s) = files s.
Proof.
  apply (import_fails_on_rejecting_engine sqlite3 "/mnt/backup/vault.bak" "" 1
           (mkState (init "/mnt/vault.db" 0)
              (<["/mnt/backup/vault.bak" := plain_store]> ∅) [])).
  reflexivity.
Defined.

End VaultLifecycle.

(** ** The rows of the vault *)

Module VaultRows.

Local Open Scope Q_scope.

Import NumFacts VaultDb.

Ltac all_methods :=
  repeat (progress
    (cbv beta iota delta
       [run list_entries delete_entry search_entries select_like
        get_vault_stats fromisoformat path_getsize];
     methods)).

(** *** The order of [ORDER BY site] *)

Lemma compare_not_gt_trans (s1 s2 s3 : string) :
  String.compare s1 s2 <> Gt -> String.compare s2 s3 <> Gt ->
  String.compare s1 s3 <> Gt.
Proof.
  revert s2 s3. induction s1 as [|a s1 IH]; intros [|b s2] [|c s3]; simpl;
    try congruence.
  unfold Ascii.compare.
  destruct (N.compare_spec (N_of_ascii a) (N_of_ascii b)) as [E1|E1|E1];
    destruct (N.compare_spec (N_of_ascii b) (N_of_ascii c)) as [E2|E2|E2];
    destruct (N.compare_spec (N_of_ascii a) (N_of_ascii c)) as [E3|E3|E3];
    try congruence; try lia.
  apply IH.
Qed.

Lemma leb_trans (s1 s2 s3 : string) :
  String.leb s1 s2 = true -> String.leb s2 s3 = true -> String.leb s1 s3 = true.
Proof.
  unfold String.leb. intros H1 H2.
  pose proof (compare_not_gt_trans s1 s2 s3) as H.
  destruct (String.compare s1 s2), (String.compare s2 s3), (String.compare s1 s3);
    try reflexivity; try discriminate; exfalso; apply H; congruence.
Qed.

Lemma leb_false_le (s1 s2 : string) :
  String.leb s1 s2 = false -> String.leb s2 s1 = true.
Proof.
  intros H. destruct (String.leb_total s1 s2) as [E|E]; [congruence | exact E].
Qed.

Lemma insert_by_site_In (row x : VaultEntry) (l : list VaultEntry) :
  In x (insert_by_site row l) <-> x = row \/ In x l.
Proof.
  induction l as [|r l IH]; simpl.
  - split; intros [H|H]; auto.
  - destruct (String.leb (site r) (site row)); simpl; rewrite ?IH;
      split; intros H; repeat destruct H as [H|H]; auto.
Qed.

Lemma insert_by_site_ordered (row : VaultEntry) (l : list VaultEntry) :
  ordered_by_site l -> ordered_by_site (insert_by_site row l).
Proof.
  induction l as [|r l IH]; simpl; [intros _; split; [intros ? []|exact I]|].
  intros [Hr Hl].
  destruct (String.leb (site r) (site row)) eqn:E; simpl.
  - split; [|apply IH, Hl].
    intros r' Hin. apply insert_by_site_In in Hin as [->|Hin]; [exact E|].
    apply Hr, Hin.
  - apply leb_false_le in E. split; [|split; assumption].
    intros r' [<-|Hin]; [exact E|].
    apply (leb_trans _ (site r)); [exact E | apply Hr, Hin].
Qed.

Lemma insert_by_site_perm (row : VaultEntry) (l : list VaultEntry) :
  Permutation (insert_by_site row l) (row :: l).
Proof.
  induction l as [|r l IH]; simpl; [reflexivity|].
  destruct (String.leb (site r) (site row)); [|reflexivity].
  rewrite IH. apply perm_swap.
Qed.

Lemma fold_insert_ordered (rows sorted : list VaultEntry) :
  ordered_by_site sorted ->
  ordered_by_site (fold_left (fun sorted row => insert_by_site row sorted) rows sorted).
Proof.
  revert sorted. induction rows as [|r rows IH]; simpl; intros sorted H; [exact H|].
  apply IH, insert_by_site_ordered, H.
Qed.

Lemma fold_insert_perm (rows sorted : list VaultEntry) :
  Permutation (fold_left (fun sorted row => insert_by_site row sorted) rows sorted)
    (sorted ++ rows).
Proof.
  revert sorted. induction rows as [|r rows IH]; simpl; intros sorted.
  - rewrite app_nil_r. reflexivity.
  - rewrite IH, insert_by_site_perm. apply Permutation_middle.
Qed.

Lemma order_by_site_ordered (rows : list VaultEntry) :
  ordered_by_site (order_by_site rows).
Proof. apply fold_insert_ordered. exact I. Qed.

Lemma order_by_site_perm (rows : list VaultEntry) :
  Permutation (order_by_site rows) rows.
Proof. apply (fold_insert_perm rows []). Qed.

(** *** The operations on an open store *)

Section OpenStore.

Variable eng : engine.
Variables (v : VaultDatabase) (fs : gmap string file) (tr : list event).
Variables (c : Connection) (key : string) (t : tables) (rows : list VaultEntry).
Hypothesis Hunlocked : is_unlocked v = true.
Hypothesis Hconn : connection v = Some c.
Hypothesis Hfile : fs !! conn_path c = Some (Db key t).
Hypothesis Hkey : key_opens eng c key = true.
Hypothesis Hrows : vault_entries t = Some rows.

Ltac open_store Hactive :=
  apply VaultFacts.active_check in Hactive;
  unfold key_opens in Hkey;
  unfold touched, rewritten;
  repeat (progress (all_methods;
    rewrite ?Hunlocked, ?Hactive, ?Hconn, ?Hfile, ?Hkey, ?Hrows)).

Lemma list_entries_open now :
  now - last_activity v <= idle_timeout v ->
  list_entries eng now (mkState v fs tr)
  = (Return (order_by_site rows), mkState (touched v now) fs tr).
Proof using Hunlocked Hconn Hfile Hkey Hrows.
  intros Hactive. open_store Hactive. reflexivity.
Qed.

Lemma search_entries_open query now :
  now - last_activity v <= idle_timeout v ->
  search_entries eng query now (mkState v fs tr)
  = match rows with
    | [] => (Return [], mkState (touched v now) fs tr)
    | _ =>
        if like_takes query
        then (Return (order_by_site (List.filter (matches_query query) rows)),
              mkState (touched v now) fs tr)
        else (Return [],
              mkState v fs (tr ++ [LogError "Failed to search entries"])%list)
    end.
Proof using Hunlocked Hconn Hfile Hkey Hrows.
  intros Hactive. open_store Hactive. unfold like_takes.
  destruct rows as [|row rest];
    [repeat (progress (all_methods; rewrite ?Hunlocked, ?Hconn)); reflexivity|].
  rewrite N.ltb_antisym.
  destruct (utf8_length ("%" ++ query ++ "%") <=? like_pattern_limit)%N;
    repeat (progress (all_methods; rewrite ?Hunlocked, ?Hconn)); reflexivity.
Qed.

Lemma delete_entry_open name now :
  now - last_activity v <= idle_timeout v ->
  delete_entry eng name now (mkState v fs tr)
  = if existsb (site_is name) rows
    then (Return true,
          mkState (touched v now)
            (rewritten fs c key t (List.filter (fun row => negb (site_is name row)) rows))
            (tr ++ [LogInfo "Entry deleted"])%list)
    else (Return false, mkState v fs (tr ++ [LogWarning "No entry found"])%list).
Proof using Hunlocked Hconn Hfile Hkey Hrows.
  intros Hactive. open_store Hactive.
  assert (E : (length (List.filter (fun row => negb (site_is name row)) rows)
               <? length rows)%nat = existsb (site_is name) rows).
  { clear. induction rows as [|r l IH]; simpl; [reflexivity|].
    pose proof (List.filter_length_le (fun row => negb (site_is name row)) l) as Hle.
    destruct (site_is name r); simpl.
    - apply Nat.ltb_lt. lia.
    - rewrite <- IH. reflexivity. }
  rewrite E. destruct (existsb (site_is name) rows);
    repeat (progress (all_methods; rewrite ?Hunlocked, ?Hconn, ?Hfile, ?Hkey));
    reflexivity.
Qed.


End OpenStore.

(** An open vault stays open over the rows an operation has written. *)
Lemma open_vault_rewritten (eng : engine) (v : VaultDatabase)
    (fs : gmap string file) (tr tr' : list event) (c : Connection) (key : string)
    (t : tables) (rows' : list VaultEntry) (now : Q) :
  is_unlocked v = true ->
  connection v = Some c ->
  key_opens eng c key = true ->
  open_vault eng (mkState (touched v now) (rewritten fs c key t rows') tr') rows'.
Proof.
  intros Hunlocked Hconn Hkey. split; [exact Hunlocked|].
  exists c, key, (mkTables (Some rows') (vault_metadata t) (last_rowid t)).
  repeat split; try assumption. apply lookup_insert_eq.
Qed.

(** *** Listing *)

(** X9. On an unlocked vault over a store it can read, before the idle
    timeout: [list_entries] returns the stored rows, each once, in the
    order of their sites (by code points), writes nothing, and counts as
    an activity. *)
Theorem list_entries_sorted_by_site (eng : engine) (s : state)
    (rows : list VaultEntry) (now : Q) :
  open_vault eng s rows ->
  active now s ->
  exists es,
    value (list_entries eng now) s = Return es /\
    Permutation es rows /\
    ordered_by_site es /\
    files (after (list_entries eng now) s) = files s /\
    last_activity (self (after (list_entries eng now) s)) = now.
Proof.
  intros [Hunlocked [c [key [t [Hconn [Hfile [Hkey Hrows]]]]]]] Hactive.
  destruct s as [v fs tr]. unfold active in Hactive. simpl in *.
  unfold after, value.
  rewrite (list_entries_open eng v fs tr c key t rows Hunlocked Hconn Hfile Hkey
             Hrows now Hactive).
  exists (order_by_site rows). simpl. repeat split.
  - apply order_by_site_perm.
  - apply order_by_site_ordered.
Qed.

Lemma stocked_open : open_vault sqlcipher stocked stocked_rows.
Proof.
  split; [reflexivity|].
  exists (mkConnection "/mnt/vault.db" (Some "right horse")), "right horse",
    (mkTables (Some stocked_rows)
       (Some (<["master_hash" := Argon2 "salt" "right horse"]> ∅)) 2).
  repeat split; vm_compute; reflexivity.
Qed.

(** The two rows of [stocked], listed at time 7. *)
Lemma list_entries_sorted_sample :
  exists es,
    value (list_entries sqlcipher 7) stocked = Return es /\
    Permutation es stocked_rows /\
    ordered_by_site es /\
    files (after (list_entries sqlcipher 7) stocked) = files stocked /\
    last_activity (self (after (list_entries sqlcipher 7) stocked)) = 7.
Proof.
  apply (list_entries_sorted_by_site sqlcipher stocked stocked_rows 7).
  - exact stocked_open.
  - unfold active. vm_compute. discriminate.
Defined.

(** *** Searching *)

Lemma like_any_tail (text : list ascii) : like_chars ["%"%char] text = true.
Proof.
  induction text as [|c text IH]; [reflexivity|].
  simpl in *. exact IH.
Qed.

Lemma like_prefix (query text : list ascii) :
  (forall c, In c query -> c <> "%"%char /\ c <> "_"%char) ->
  like_chars (query ++ ["%"%char]) text
  = Text.starts_with (map fold_case query) (map fold_case text).
Proof.
  revert text. induction query as [|p query IH]; intros text Hplain.
  - rewrite like_any_tail. reflexivity.
  - destruct (Hplain p (or_introl eq_refl)) as [H1 H2].
    apply Ascii.eqb_neq in H1, H2.
    change (like_chars ((p :: query) ++ ["%"%char]) text)
      with (if Ascii.eqb p "%" then
              (fix any (text : list ascii) : bool :=
                 like_chars (query ++ ["%"%char]) text ||
                 match text with [] => false | _ :: text' => any text' end) text
            else
              match text with
              | [] => false
              | c :: text' =>
                  (Ascii.eqb p "_" || Ascii.eqb (fold_case p) (fold_case c))
                  && like_chars (query ++ ["%"%char]) text'
              end).
    rewrite H1. destruct text as [|c text]; [reflexivity|].
    rewrite H2, IH by (intros x Hx; apply Hplain; right; exact Hx).
    reflexivity.
Qed.

Lemma like_infix (query text : list ascii) :
  (forall c, In c query -> c <> "%"%char /\ c <> "_"%char) ->
  like_chars ("%"%char :: query ++ ["%"%char]) text
  = Text.contains (map fold_case query) (map fold_case text).
Proof.
  intros Hplain. induction text as [|c text IH].
  - simpl. rewrite like_prefix by exact Hplain. simpl.
    rewrite ?orb_false_r. reflexivity.
  - simpl in *. rewrite like_prefix by exact Hplain. rewrite IH. reflexivity.
Qed.

Lemma chars_of_append (s1 s2 : string) :
  list_ascii_of_string (s1 ++ s2)
  = (list_ascii_of_string s1 ++ list_ascii_of_string s2)%list.
Proof. induction s1 as [|c s1 IH]; simpl; [reflexivity | rewrite IH; reflexivity]. Qed.

Lemma c_string_plain (text : list ascii) :
  (forall c, In c text -> c <> zero) -> c_string text = text.
Proof.
  induction text as [|c text IH]; intros H; simpl; [reflexivity|].
  destruct (Ascii.eqb_spec c zero) as [E|_].
  - exfalso. exact (H c (or_introl eq_refl) E).
  - rewrite IH; [reflexivity|]. intros x Hx. apply H. right. exact Hx.
Qed.

Lemma like_plain_query (query text : string) :
  plain_query query ->
  like ("%" ++ query ++ "%") text = occurs_nocase query text.
Proof.
  intros Hplain. unfold like, occurs_nocase.
  change (list_ascii_of_string ("%" ++ query ++ "%"))
    with ("%"%char :: list_ascii_of_string (query ++ "%")).
  rewrite chars_of_append. rewrite c_string_plain.
  - apply like_infix. intros x Hx. destruct (Hplain x Hx) as [H1 [H2 _]].
    split; assumption.
  - intros x [<-|Hx]; [discriminate|].
    apply in_app_or in Hx as [Hx|[<-|[]]]; [|discriminate].
    apply (Hplain x Hx).
Qed.

Lemma contains_nothing (text : list ascii) : Text.contains [] text = true.
Proof. destruct text; reflexivity. Qed.

Lemma matches_empty_query (row : VaultEntry) : matches_query "" row = true.
Proof.
  unfold matches_query. rewrite (like_plain_query "" (site row)) by (intros ? []).
  unfold occurs_nocase. simpl. rewrite contains_nothing. reflexivity.
Qed.

Lemma order_by_site_nil : order_by_site [] = [].
Proof. reflexivity. Qed.

Lemma filter_all {A} (f : A -> bool) (l : list A) :
  (forall x, In x l -> f x = true) -> List.filter f l = l.
Proof.
  induction l as [|x l IH]; simpl; intros H; [reflexivity|].
  rewrite (H x (or_introl eq_refl)), IH; [reflexivity|].
  intros y Hy. apply H. right. exact Hy.
Qed.

(** X10. On an unlocked vault over a store it can read, before the idle
    timeout, and for a query whose pattern, the query between two [%], is
    within the 50000 bytes that [LIKE] takes: [search_entries] returns, in
    the order of their sites, the stored rows whose site or user name
    matches the pattern, as [LIKE] reads them, up to their first NUL. When
    the query holds neither [%] nor [_] nor a NUL, these are the rows whose
    site or user name contains the query, the letters A-Z and a-z taken as
    the same; a row without a user name is judged on its site alone; and
    the empty query returns what [list_entries] returns. For a longer
    query the search returns the empty list, whatever the rows. *)
Theorem search_entries_finds_substrings (eng : engine) (s : state)
    (rows : list VaultEntry) (query : string) (now : Q) :
  open_vault eng s rows ->
  active now s ->
  (like_takes query = true ->
   exists es,
     value (search_entries eng query now) s = Return es /\
     ordered_by_site es /\
     (forall row, In row es <-> In row rows /\ matches_query query row = true) /\
     (plain_query query ->
      forall row,
        matches_query query row
        = occurs_nocase query (site row)
          || match username row with
             | Some u => occurs_nocase query u
             | None => false
             end) /\
     (query = "" -> value (list_entries eng now) s = Return es)) /\
  (like_takes query = false ->
   value (search_entries eng query now) s = Return []).
Proof.
  intros [Hunlocked [c [key [t [Hconn [Hfile [Hkey Hrows]]]]]]] Hactive.
  destruct s as [v fs tr]. unfold active in Hactive. simpl in *.
  unfold value.
  rewrite (search_entries_open eng v fs tr c key t rows Hunlocked Hconn Hfile Hkey
             Hrows query now Hactive).
  rewrite (list_entries_open eng v fs tr c key t rows Hunlocked Hconn Hfile Hkey
             Hrows now Hactive).
  split.
  - intros Htakes.
    assert (E : fst (match rows with
                     | [] => (Return [], mkState (touched v now) fs tr)
                     | _ =>
                         if like_takes query
                         then (Return (order_by_site
                                         (List.filter (matches_query query) rows)),
                               mkState (touched v now) fs tr)
                         else (Return [],
                               mkState v fs
                                 (tr ++ [LogError "Failed to search entries"])%list)
                     end)
                = Return (order_by_site (List.filter (matches_query query) rows))).
    { rewrite Htakes. destruct rows; reflexivity. }
    rewrite E. clear E.
    eexists. split; [reflexivity|]. simpl. repeat split.
    + apply order_by_site_ordered.
    + apply (Permutation_in _ (order_by_site_perm _)) in H.
      apply List.filter_In in H. apply H.
    + apply (Permutation_in _ (order_by_site_perm _)) in H.
      apply List.filter_In in H. apply H.
    + intros [Hin Hmatch].
      apply (Permutation_in _ (Permutation_sym (order_by_site_perm _))).
      apply List.filter_In. split; assumption.
    + intros Hplain row. unfold matches_query.
      rewrite (like_plain_query query (site row)) by exact Hplain.
      destruct (username row) as [u|]; [|reflexivity].
      rewrite (like_plain_query query u) by exact Hplain. reflexivity.
    + intros ->. rewrite filter_all; [reflexivity|].
      intros row _. apply matches_empty_query.
  - intros Htakes. rewrite Htakes. destruct rows; reflexivity.
Qed.

(** A search for [ANN] among the rows of [stocked], at time 7. *)
Lemma search_entries_sample :
  (like_takes "ANN" = true ->
   exists es,
     value (search_entries sqlcipher "ANN" 7) stocked = Return es /\
     ordered_by_site es /\
     (forall row, In row es <-> In row stocked_rows /\ matches_query "ANN" row = true) /\
     (plain_query "ANN" ->
      forall row,
        matches_query "ANN" row
        = occurs_nocase "ANN" (site row)
          || match username row with
             | Some u => occurs_nocase "ANN" u
             | None => false
             end) /\
     ("ANN" = "" -> value (list_entries sqlcipher 7) stocked = Return es)) /\
  (like_takes "ANN" = false ->
   value (search_entries sqlcipher "ANN" 7) stocked = Return []).
Proof.
  apply (search_entries_finds_substrings sqlcipher stocked stocked_rows "ANN" 7).
  - exact stocked_open.
  - unfold active. vm_compute. discriminate.
Defined.

(** The text of a row is read up to its first NUL, and so is the query. *)
Example like_stops_at_nul :
  like "%b%" (String "a" (String zero "b")) = false /\
  like (String "%" (String zero "%")) "gmail" = true.
Proof. split; reflexivity. Qed.

(** *** Deleting *)

Lemma existsb_site_false name (rows : list VaultEntry) :
  existsb (site_is name) rows = false ->
  List.filter (fun row => negb (site_is name row)) rows = rows.
Proof.
  intros H. apply filter_all. intros row Hin.
  destruct (site_is name row) eqn:E; [|reflexivity].
  assert (existsb (site_is name) rows = true)
    by (apply existsb_exists; exists row; split; assumption).
  congruence.
Qed.

Lemma find_none_of_filtered name (rows : list VaultEntry) :
  find (site_is name) (List.filter (fun row => negb (site_is name row)) rows) = None.
Proof.
  induction rows as [|r rows IH]; simpl; [reflexivity|].
  destruct (site_is name r) eqn:E; simpl; [exact IH|]. rewrite E. exact IH.
Qed.

(** X11. On an unlocked vault over a store it can read, before the idle
    timeout: [delete_entry] returns [True] exactly when some row holds the
    site, and then the store holds the rows of the other sites, in their
    order, and nothing else; when no row holds the site, neither the files
    nor the vault object change (the call is no activity). Either way a
    later [retrieve_password] of the site finds nothing. *)
Theorem delete_entry_removes_site (eng : engine) (s : state)
    (rows : list VaultEntry) (name : string) (now : Q) :
  open_vault eng s rows ->
  active now s ->
  let s' := after (delete_entry eng name now) s in
  let kept := List.filter (fun row => negb (site_is name row)) rows in
  value (delete_entry eng name now) s = Return (existsb (site_is name) rows) /\
  open_vault eng s' kept /\
  (existsb (site_is name) rows = false -> self s' = self s /\ files s' = files s) /\
  (forall later, active later s' ->
     retrieve_password eng name later s' = (Return None, s')).
Proof.
  intros [Hunlocked [c [key [t [Hconn [Hfile [Hkey Hrows]]]]]]] Hactive.
  destruct s as [v fs tr]. unfold active in Hactive. simpl in *.
  unfold after, value.
  rewrite (delete_entry_open eng v fs tr c key t rows Hunlocked Hconn Hfile Hkey
             Hrows name now Hactive).
  destruct (existsb (site_is name) rows) eqn:E; simpl.
  - split; [reflexivity|]. split; [|split; [discriminate|]].
    + apply open_vault_rewritten; assumption.
    + intros later Hlater. unfold active in Hlater. simpl in Hlater.
      apply (VaultFacts.retrieve_password_open eng (touched v now)
               (rewritten fs c key t (List.filter (fun row => negb (site_is name row)) rows))
               (tr ++ [LogInfo "Entry deleted"])%list c key
               (mkTables (Some (List.filter (fun row => negb (site_is name row)) rows))
                  (vault_metadata t) (last_rowid t))
               (List.filter (fun row => negb (site_is name row)) rows)
               Hunlocked Hconn (lookup_insert_eq _ _ _) Hkey eq_refl name later Hlater).
      apply find_none_of_filtered.
  - rewrite (existsb_site_false name rows E).
    split; [reflexivity|]. split; [|split; [intros _; split; reflexivity|]].
    + split; [exact Hunlocked|]. exists c, key, t. repeat split; assumption.
    + intros later Hlater. unfold active in Hlater. simpl in Hlater.
      apply (VaultFacts.retrieve_password_open eng v fs
               (tr ++ [LogWarning "No entry found"])%list c key t rows
               Hunlocked Hconn Hfile Hkey Hrows name later Hlater).
      rewrite <- (existsb_site_false name rows E). apply find_none_of_filtered.
Qed.

(** The row of [gmail] deleted from [stocked] at time 7. *)
Lemma delete_entry_sample :
  let s' := after (delete_entry sqlcipher "gmail" 7) stocked in
  let kept := List.filter (fun row => negb (site_is "gmail" row)) stocked_rows in
  value (delete_entry sqlcipher "gmail" 7) stocked
  = Return (existsb (site_is "gmail") stocked_rows) /\
  open_vault sqlcipher s' kept /\
  (existsb (site_is "gmail") stocked_rows = false ->
   self s' = self stocked /\ files s' = files stocked) /\
  (forall later, active later s' ->
     retrieve_password sqlcipher "gmail" later s' = (Return None, s')).
Proof.
  apply (delete_entry_removes_site sqlcipher stocked stocked_rows "gmail" 7).
  - exact stocked_open.
  - unfold active. vm_compute. discriminate.
Defined.

(** *** Saving over a site and counting accesses *)









Lemma touch_row_id rowid now row : id (touch_row rowid now row) = id row.
Proof. unfold touch_row. destruct (id row =? rowid)%Z; reflexivity. Qed.





(** The two clocks of the sample. *)
Example stored_and_returned_last_access :
  current_timestamp sqlite3 7.5 = 7 /\ ~ 7.5 == 7.
Proof. split; [reflexivity | vm_compute; discriminate]. Qed.

(** *** Statistics *)










End VaultRows.

(** ** What the deterministic resolver hands back *)

Module ResolutionFacts.

Local Open Scope Q_scope.

Import Matchers NumFacts MatcherFacts ResolveDeterministic DeterministicFacts.

Lemma fold_invariant_in {A B} (P : A -> Prop) (f : A -> B -> A) (l : list B) (a : A) :
  P a -> (forall x y, In y l -> P x -> P (f x y)) -> P (fold_left f l a).
Proof.
  revert a. induction l as [|y l IH]; intros a Ha Hf; simpl; [exact Ha|].
  apply IH.
  - apply Hf; [left; reflexivity | exact Ha].
  - intros x z Hz. apply Hf. right. exact Hz.
Qed.

Lemma In_alias_pairs (sites : catalog) c a :
  In (c, a) (alias_pairs sites) <-> exists al, In (c, al) sites /\ In a al.
Proof.
  unfold alias_pairs. rewrite in_flat_map. split.
  - intros [[c' al] [H1 H2]]. simpl in H2. apply in_map_iff in H2 as [a' [E H2]].
    injection E as <- <-. exists al. split; assumption.
  - intros [al [H1 H2]]. exists (c, al). split; [exact H1|].
    simpl. apply in_map. exact H2.
Qed.

Lemma alias_pair_key (sites : catalog) entry :
  In entry (alias_pairs sites) -> In (fst entry) (map fst sites).
Proof.
  destruct entry as [c a]. intros H. apply In_alias_pairs in H as [al [H _]].
  apply (in_map fst) in H. exact H.
Qed.

(** *** The sites come from the catalog *)

Lemma phonetic_loop_keyed dm sites text : keyed sites (phonetic_loop dm sites text).
Proof.
  unfold phonetic_loop. apply fold_invariant_in.
  - intros c H. discriminate.
  - intros best entry Hin Hbest. unfold phonetic_step.
    destruct (phonetic_score _ _); [|exact Hbest].
    destruct (Num.gtb _ _); [|exact Hbest].
    intros c [= <-]. apply alias_pair_key, Hin.
Qed.

Lemma partial_loop_keyed sites text : keyed sites (partial_loop sites text).
Proof.
  unfold partial_loop. apply fold_invariant_in.
  - intros c H. discriminate.
  - intros best entry Hin Hbest. unfold partial_step.
    destruct (0 <? _)%nat; [|exact Hbest].
    destruct (_ && _); [|exact Hbest].
    intros c [= <-]. apply alias_pair_key, Hin.
Qed.

Lemma exact_known self text : known_site (sites self) (_exact_match self text).
Proof.
  unfold known_site, _exact_match.
  destruct (exact_search _ _) as [c|] eqn:E; simpl; [|discriminate].
  intros c' [= <-]. apply exact_search_listed in E as [al [H _]].
  apply (in_map fst) in H. exact H.
Qed.

Lemma fuzzy_known scorer self text :
  known_site (sites self) (_fuzzy_match scorer self text).
Proof.
  unfold known_site, _fuzzy_match, fuzzy_search.
  destruct (get_all_aliases (sites self)); [discriminate|].
  destruct (Fuzz.extractOne _ _ _) as [[best score]|]; [|discriminate].
  destruct (Num.geb _ _); [|discriminate].
  destruct (canonical_of _ _) as [c|] eqn:E; simpl; [|discriminate].
  intros c' [= <-]. apply canonical_of_listed in E as [al [H _]].
  apply (in_map fst) in H. exact H.
Qed.

Lemma phonetic_known dm self text :
  known_site (sites self) (_phonetic_match dm self text).
Proof.
  unfold known_site, _phonetic_match, phonetic_search.
  destruct (Num.geb _ _); simpl; [|discriminate].
  apply phonetic_loop_keyed.
Qed.

Lemma partial_known self text : known_site (sites self) (_partial_match self text).
Proof.
  unfold known_site, _partial_match, partial_search.
  destruct (Num.geb _ _); simpl; [|discriminate].
  apply partial_loop_keyed.
Qed.

(** X15. For every catalog, scorer that keeps to [0, 100], and text, the
    result of [resolve_site] has a confidence between 0 and 1, and its
    site, when there is one, is a canonical name of the catalog: the
    resolver never makes up a site. *)
Theorem resolve_site_within_catalog
    (doublemetaphone : string -> string * string)
    (scorer : string -> string -> Q) (self : DeterministicResolver)
    (text : string) :
  bounded_scorer scorer (sites self) (_normalize_text text) ->
  let r := resolve_site doublemetaphone scorer self text in
  0 <= confidence r /\ confidence r <= 1 /\ known_site (sites self) r.
Proof.
  intros Hscorer r.
  split; [apply settled_nonneg, resolve_site_settled|].
  destruct (String.eqb_spec text "") as [->|Hne].
  { subst r. unfold resolve_site. simpl. split; [|intros c H; discriminate].
    unfold Qle. simpl. lia. }
  destruct (resolve_site_best doublemetaphone scorer self text Hne)
    as [Hsite [Hconf _]].
  fold r in Hsite, Hconf. unfold known_site. rewrite Hsite, Hconf.
  apply (loop_choice
           (fun b => confidence b <= 1 /\ known_site (sites self) b)).
  - split; [unfold Qle; simpl; lia | intros c H; discriminate].
  - intros strategy Hin _.
    apply strategies_list in Hin as [->|[->|[->| ->]]].
    + split; [|apply exact_known]. unfold _exact_match.
      destruct (exact_search _ _); unfold Qle; simpl; lia.
    + split; [|apply fuzzy_known]. apply fuzzy_bounded.
      exact Hscorer.
    + split; [apply phonetic_bounded | apply phonetic_known].
    + split; [apply partial_bounded | apply partial_known].
Qed.

(** The catalog [gmail] and the text [G-Mail], which its normal form
    [g mail] matches by ratio only. *)
Lemma resolve_site_within_catalog_sample :
  let r := resolve_site Samples.doublemetaphone Fuzz.ratio (init Samples.gmail)
             "G-Mail" in
  0 <= confidence r /\ confidence r <= 1
  /\ known_site (sites (init Samples.gmail)) r.
Proof.
  apply (resolve_site_within_catalog Samples.doublemetaphone Fuzz.ratio
           (init Samples.gmail) "G-Mail").
  intros b [<-|[<-|[<-|[]]]]; vm_compute; discriminate.
Defined.

(** *** The method and the texts of a result *)

Lemma exact_matched self text :
  site (_exact_match self text) <> None -> matched_on text (_exact_match self text).
Proof.
  unfold matched_on, matching_methods, _exact_match.
  destruct (exact_search _ _); simpl; intros H; [|contradiction].
  repeat split; auto.
Qed.

Lemma fuzzy_matched scorer self text :
  site (_fuzzy_match scorer self text) <> None ->
  matched_on text (_fuzzy_match scorer self text).
Proof.
  unfold matched_on, matching_methods, _fuzzy_match.
  destruct (fuzzy_search _ _ _ _) as [[c q]|]; simpl; intros H; [|contradiction].
  repeat split; auto.
Qed.

Lemma phonetic_matched dm self text :
  site (_phonetic_match dm self text) <> None ->
  matched_on text (_phonetic_match dm self text).
Proof.
  unfold matched_on, matching_methods, _phonetic_match.
  destruct (phonetic_search _ _ _) as [[s q]|]; simpl; intros H; [|contradiction].
  repeat split; auto.
Qed.

Lemma partial_matched self text :
  site (_partial_match self text) <> None ->
  matched_on text (_partial_match self text).
Proof.
  unfold matched_on, matching_methods, _partial_match.
  destruct (partial_search _ _) as [[s q]|]; simpl; intros H; [|contradiction].
  repeat split; auto 6.
Qed.

Lemma strategy_sited dm scorer self strategy cleaned :
  In strategy (strategies dm scorer self) ->
  0 < confidence (strategy cleaned) -> site (strategy cleaned) <> None.
Proof.
  intros Hin Hpos Hnone.
  assert (Hz : unsited_is_zero (strategy cleaned)).
  { apply strategies_list in Hin as [->|[->|[->| ->]]].
    - apply exact_unsited.
    - apply fuzzy_unsited.
    - apply phonetic_unsited.
    - apply partial_unsited. }
  rewrite (Hz Hnone) in Hpos. revert Hpos. unfold Qlt. simpl. lia.
Qed.

Lemma strategy_matched dm scorer self strategy cleaned :
  In strategy (strategies dm scorer self) ->
  site (strategy cleaned) <> None -> matched_on cleaned (strategy cleaned).
Proof.
  intros Hin. apply strategies_list in Hin as [->|[->|[->| ->]]].
  - apply exact_matched.
  - apply fuzzy_matched.
  - apply phonetic_matched.
  - apply partial_matched.
Qed.

(** X16. The result of [resolve_site] tells how it came about. Without a
    site, its method is [none] (empty text) or [deterministic] (no strategy
    matched), and its original text is the text given. With a site, its
    method names the strategy that matched ([exact_match], [fuzzy_match],
    [phonetic_match] or [partial_match]), and its original text is not the
    text given but its normal form, as its cleaned text is: a result that
    matched does not carry the words as they were said. *)
Theorem resolve_site_tells_its_method
    (doublemetaphone : string -> string * string)
    (scorer : string -> string -> Q) (self : DeterministicResolver)
    (text : string) :
  let r := resolve_site doublemetaphone scorer self text in
  (site r = None ->
   original_text r = text /\
   (text = "" -> method r = "none" /\ cleaned_text r = "") /\
   (text <> "" -> method r = "deterministic"
                  /\ cleaned_text r = _normalize_text text)) /\
  (site r <> None -> text <> "" /\ matched_on (_normalize_text text) r).
Proof.
  intros r. destruct (String.eqb_spec text "") as [->|Hne].
  { subst r. unfold resolve_site. simpl. split.
    - intros _. split; [reflexivity|].
      split; [intros _; split; reflexivity | intros H; contradiction].
    - intros H. contradiction. }
  destruct (resolve_site_best doublemetaphone scorer self text Hne)
    as [Hsite [Hconf [Hmethod [Horig Hclean]]]].
  fold r in Hsite, Hconf, Hmethod, Horig, Hclean.
  unfold matched_on. rewrite Hsite, Hmethod, Horig, Hclean.
  set (cleaned := _normalize_text text).
  set (start := mkResult None 0.0 "deterministic" text cleaned false).
  destruct (loop_choice
              (fun b => (site b = None -> b = start)
                        /\ (site b <> None -> matched_on cleaned b))
              cleaned start (strategies doublemetaphone scorer self))
    as [[Hnone Hsome] _].
  - split; [reflexivity | intros H; contradiction].
  - intros strategy Hin Hgt.
    assert (Hs : site (strategy cleaned) <> None).
    { apply (strategy_sited doublemetaphone scorer self); [exact Hin|].
      eapply Qle_lt_trans; [|exact Hgt]. unfold Qle. simpl. lia. }
    split; [intros H; contradiction|]. intros _.
    apply (strategy_matched doublemetaphone scorer self); assumption.
  - split.
    + intros H. rewrite (Hnone H). simpl. split; [reflexivity|].
      split; [intros E; contradiction | intros _; split; reflexivity].
    + intros H. split; [exact Hne | apply Hsome, H].
Qed.

(** *** Sound-alikes *)

Lemma phonetic_step_grows dm tp best entry :
  fst best <= fst (phonetic_step dm tp best entry).
Proof.
  unfold phonetic_step. destruct (phonetic_score _ _); [|apply Qle_refl].
  destruct (Num.gtb _ _) eqn:G; [|apply Qle_refl].
  apply gtb_lt in G. apply Qlt_le_weak. exact G.
Qed.

Lemma phonetic_fold_grows dm tp (pairs : list (string * string)) best :
  fst best <= fst (fold_left (phonetic_step dm tp) pairs best).
Proof.
  revert best. induction pairs as [|entry pairs IH]; intros best; simpl;
    [apply Qle_refl|].
  eapply Qle_trans; [apply phonetic_step_grows | apply IH].
Qed.

Lemma phonetic_fold_reaches dm tp (pairs : list (string * string)) best entry :
  In entry pairs ->
  phonetic_score tp (dm (snd entry)) = Some 0.9 ->
  0.9 <= fst (fold_left (phonetic_step dm tp) pairs best).
Proof.
  revert best. induction pairs as [|e pairs IH]; intros best Hin Hscore;
    [destruct Hin|].
  simpl. destruct Hin as [->|Hin]; [|apply IH; assumption].
  eapply Qle_trans; [|apply phonetic_fold_grows].
  unfold phonetic_step. rewrite Hscore.
  destruct (Num.gtb _ _) eqn:G; simpl; [apply Qle_refl|].
  apply gtb_false_le in G. exact G.
Qed.

(** X17. A text that is not empty and whose normal form has the primary
    Double Metaphone code of some alias of the catalog, that code not being
    empty, is resolved to a site with a confidence of at least 0.9, and so
    never asks for confirmation, whatever the other strategies find. *)
Theorem sound_alike_is_accepted
    (doublemetaphone : string -> string * string)
    (scorer : string -> string -> Q) (catalog : Matchers.catalog)
    (text c a : string) (al : list string) :
  text <> "" ->
  In (c, al) catalog ->
  In a al ->
  fst (doublemetaphone (_normalize_text text)) <> "" ->
  fst (doublemetaphone a) = fst (doublemetaphone (_normalize_text text)) ->
  let r := resolve_site doublemetaphone scorer (init catalog) text in
  0.9 <= confidence r /\ site r <> None /\ needs_confirmation r = false.
Proof.
  intros Hne Hc Ha Hcode Hsame r.
  set (cleaned := _normalize_text text) in *.
  assert (Hscore : phonetic_score (doublemetaphone cleaned) (doublemetaphone a)
                   = Some 0.9).
  { unfold phonetic_score, truthy. rewrite Hsame.
    apply String.eqb_neq in Hcode. rewrite Hcode. simpl.
    rewrite String.eqb_refl. reflexivity. }
  assert (Hloop : 0.9 <= fst (phonetic_loop doublemetaphone catalog cleaned)).
  { unfold phonetic_loop.
    apply (phonetic_fold_reaches doublemetaphone _ _ _ (c, a)); [|exact Hscore].
    apply In_alias_pairs. exists al. split; assumption. }
  assert (Hphon : 0.9 <= confidence (_phonetic_match doublemetaphone (init catalog) cleaned)).
  { unfold _phonetic_match, phonetic_search. simpl.
    assert (G : Num.geb (fst (phonetic_loop doublemetaphone catalog cleaned)) 0.8 = true).
    { apply geb_le. eapply Qle_trans; [|exact Hloop]. unfold Qle. simpl. lia. }
    rewrite G. simpl. exact Hloop. }
  destruct (resolve_site_best doublemetaphone scorer (init catalog) text Hne)
    as [Hsite [Hconf _]].
  fold r in Hsite, Hconf. fold cleaned in Hsite, Hconf.
  assert (Hr : 0.9 <= confidence r).
  { rewrite Hconf. eapply Qle_trans; [exact Hphon|].
    apply loop_above. unfold strategies. simpl. auto. }
  split; [exact Hr|]. split.
  - intros Hnone.
    pose proof (resolve_site_settled doublemetaphone scorer (init catalog) text)
      as [Hz _].
    fold r in Hz. rewrite (Hz Hnone) in Hr. revert Hr. unfold Qle. simpl. lia.
  - destruct (resolve_site_flag doublemetaphone scorer (init catalog) text)
      as [Hflag|Hflag]; [|contradiction].
    fold r in Hflag. rewrite Hflag.
    assert (G : Num.geb (confidence r) (accept_threshold (init catalog)) = true).
    { apply geb_le. eapply Qle_trans; [|exact Hr]. unfold Qle. simpl. lia. }
    rewrite G. reflexivity.
Qed.

(** The text [Apple!] against the catalog [apple]. *)
Lemma sound_alike_is_accepted_sample :
  let r := resolve_site Samples.doublemetaphone Fuzz.ratio (init Samples.apple)
             "Apple!" in
  0.9 <= confidence r /\ site r <> None /\ needs_confirmation r = false.
Proof.
  apply (sound_alike_is_accepted Samples.doublemetaphone Fuzz.ratio Samples.apple
           "Apple!" "apple" "apple" ["apple"]).
  - discriminate.
  - left. reflexivity.
  - left. reflexivity.
  - vm_compute. discriminate.
  - reflexivity.
Defined.

End ResolutionFacts.

(** ** The password cleaner *)

Module PasswordFacts.

Import Text TextFacts Resolve.

(** *** Words *)

Lemma split_from_run cur w rest :
  List.Forall (fun c => isspace c = false) w ->
  split_from cur (w ++ rest) = split_from (rev w ++ cur) rest.
Proof.
  intros Hw. revert cur. induction Hw as [|c w Hc Hw IH]; intros cur; [reflexivity|].
  simpl. rewrite Hc, IH, <- app_assoc. reflexivity.
Qed.

Lemma isspace_space : isspace space = true.
Proof. reflexivity. Qed.

Lemma split_join (words : list (list ascii)) :
  List.Forall word words -> split (join words) = words.
Proof.
  unfold split. induction 1 as [|w ws [Hne Hw] Hws IH]; [reflexivity|].
  destruct ws as [|w2 ws].
  - simpl. rewrite <- (app_nil_r w) at 1.
    rewrite (split_from_run [] w [] Hw), app_nil_r. simpl.
    destruct (rev w) eqn:E.
    + apply (f_equal (@rev ascii)) in E. rewrite rev_involutive in E.
      simpl in E. contradiction.
    + rewrite <- E, rev_involutive. reflexivity.
  - change (join (w :: w2 :: ws)) with (w ++ space :: join (w2 :: ws))%list.
    rewrite (split_from_run [] w _ Hw), app_nil_r.
    change (split_from (rev w) (space :: join (w2 :: ws)))
      with (match rev w with
            | [] => split_from [] (join (w2 :: ws))
            | _ => rev (rev w) :: split_from [] (join (w2 :: ws))
            end).
    destruct (rev w) eqn:E.
    + apply (f_equal (@rev ascii)) in E. rewrite rev_involutive in E.
      simpl in E. contradiction.
    + rewrite <- E, rev_involutive, IH. reflexivity.
Qed.

(** The words of a text are words, made of its characters. *)
Lemma split_from_words (P : ascii -> Prop) cur l :
  List.Forall (fun c => isspace c = false) cur -> List.Forall P cur ->
  List.Forall P l ->
  List.Forall (fun w => word w /\ List.Forall P w) (split_from cur l).
Proof.
  intros Hcur Pcur Pl. revert cur Hcur Pcur.
  induction Pl as [|c l Pc Pl IH]; intros cur Hcur Pcur; simpl.
  - destruct cur as [|x cur]; constructor; [|constructor].
    split; [split|].
    + intros E. apply (f_equal (@length ascii)) in E.
      rewrite length_rev in E. discriminate.
    + apply List.Forall_rev. exact Hcur.
    + apply List.Forall_rev. exact Pcur.
  - destruct (isspace c) eqn:Ec.
    + destruct cur as [|x cur]; [apply IH; constructor|].
      constructor; [|apply IH; constructor].
      split; [split|].
      * intros E. apply (f_equal (@length ascii)) in E.
        rewrite length_rev in E. discriminate.
      * apply List.Forall_rev. exact Hcur.
      * apply List.Forall_rev. exact Pcur.
    + apply IH; constructor; assumption.
Qed.

Lemma split_words (P : ascii -> Prop) l :
  List.Forall P l -> List.Forall (fun w => word w /\ List.Forall P w) (split l).
Proof. intros H. apply split_from_words; [constructor | constructor | exact H]. Qed.

(** *** Joining words *)

Lemma single_spaced_run b w rest :
  word w -> single_spaced b (w ++ rest) = single_spaced false rest.
Proof.
  intros [Hne Hw]. destruct w as [|c w]; [contradiction|]. clear Hne.
  revert b c Hw. induction w as [|d w IH]; intros b c Hw.
  - apply List.Forall_inv in Hw. simpl. rewrite Hw. reflexivity.
  - pose proof (List.Forall_inv Hw) as Hc. apply List.Forall_inv_tail in Hw.
    change (single_spaced b ((c :: d :: w) ++ rest))
      with (if isspace c
            then Ascii.eqb c space && negb b && single_spaced true ((d :: w) ++ rest)
            else single_spaced false ((d :: w) ++ rest)).
    rewrite Hc. apply IH, Hw.
Qed.

Lemma join_spaced_from b (words : list (list ascii)) :
  List.Forall word words -> single_spaced b (join words) = true.
Proof.
  intros H. revert b. induction H as [|w ws Hw Hws IH]; intros b; [reflexivity|].
  destruct ws as [|w2 ws].
  - change (join [w]) with w. rewrite <- (app_nil_r w).
    rewrite single_spaced_run by exact Hw. reflexivity.
  - change (join (w :: w2 :: ws)) with (w ++ space :: join (w2 :: ws))%list.
    rewrite single_spaced_run by exact Hw.
    change (single_spaced false (space :: join (w2 :: ws)))
      with (Ascii.eqb space space && negb false
            && single_spaced true (join (w2 :: ws))).
    rewrite (IH true). reflexivity.
Qed.

Lemma join_spaced (words : list (list ascii)) :
  List.Forall word words -> single_spaced false (join words) = true.
Proof. apply join_spaced_from. Qed.

Lemma join_ends (words : list (list ascii)) :
  List.Forall word words -> words <> [] ->
  exists l c, join words = (l ++ [c])%list /\ isspace c = false.
Proof.
  induction 1 as [|w ws Hw Hws IH]; intros Hne; [contradiction|].
  assert (Hlast : exists l c, w = (l ++ [c])%list /\ isspace c = false).
  { destruct Hw as [Hw Hs]. destruct (exists_last Hw) as [l [c E]].
    exists l, c. split; [exact E|]. rewrite E in Hs.
    apply List.Forall_app in Hs as [_ Hs]. apply List.Forall_inv in Hs. exact Hs. }
  destruct ws as [|w2 ws]; [exact Hlast|].
  destruct IH as [l [c [E Hc]]]; [discriminate|].
  exists (w ++ space :: l)%list, c. split; [|exact Hc].
  change (join (w :: w2 :: ws)) with (w ++ space :: join (w2 :: ws))%list.
  rewrite E, <- app_assoc. reflexivity.
Qed.

Lemma join_trimmed (words : list (list ascii)) :
  List.Forall word words -> trimmed (join words).
Proof.
  intros H. destruct words as [|w ws]; [split; reflexivity|]. split.
  - apply List.Forall_inv in H as [Hne Hs].
    destruct w as [|c w]; [contradiction|]. apply List.Forall_inv in Hs.
    destruct ws; simpl; exact Hs.
  - destruct (join_ends _ H) as [l [c [E Hc]]]; [discriminate|].
    unfold ends_with_space. rewrite E, rev_app_distr. simpl. exact Hc.
Qed.

(** A text made by [join] from words is left alone by the last clean-up. *)
Lemma join_clean (words : list (list ascii)) :
  List.Forall word words -> strip (sub_spaces (join words)) = join words.
Proof.
  intros H. unfold sub_spaces.
  rewrite (sub_spaces_from_fixed _ _ (join_spaced _ H)).
  apply strip_fixed, join_trimmed, H.
Qed.

Lemma join_chars (P : ascii -> Prop) (words : list (list ascii)) :
  P space -> List.Forall (List.Forall P) words -> List.Forall P (join words).
Proof.
  intros Hspace. induction 1 as [|w ws Hw Hws IH]; [constructor|].
  destruct ws as [|w2 ws]; [exact Hw|].
  change (join (w :: w2 :: ws)) with (w ++ space :: join (w2 :: ws))%list.
  apply List.Forall_app. split; [exact Hw|]. constructor; assumption.
Qed.

(** *** Dropping the phrases *)

Lemma sub_phrase_from_keeps (P : ascii -> Prop) skip phrase text :
  List.Forall P text -> List.Forall P (sub_phrase_from skip phrase text).
Proof.
  intros H. revert skip. induction H as [|c text Hc Ht IH]; intros skip; simpl;
    [constructor|].
  destruct skip; [|apply IH].
  destruct (matches_here _ _); [apply IH|]. constructor; [exact Hc | apply IH].
Qed.

Lemma sub_phrases_keep (P : ascii -> Prop) (phrases : list string) text :
  List.Forall P text -> List.Forall P (fold_left sub_phrase phrases text).
Proof.
  revert text. induction phrases as [|p ps IH]; intros text H; simpl; [exact H|].
  apply IH. apply sub_phrase_from_keeps. exact H.
Qed.

Lemma sub_phrase_a text :
  List.Forall (fun c => lower_char c <> "a"%char) (sub_phrase text "a").
Proof.
  unfold sub_phrase.
  change (list_ascii_of_string "a") with ["a"%char].
  induction text as [|c text IH]; [constructor|].
  change (sub_phrase_from 0 ["a"%char] (c :: text))
    with (if Ascii.eqb (lower_char "a") (lower_char c) && true
          then sub_phrase_from 0 ["a"%char] text
          else c :: sub_phrase_from 0 ["a"%char] text).
  rewrite andb_true_r.
  destruct (Ascii.eqb_spec (lower_char "a") (lower_char c)) as [E|E];
    [exact IH|].
  constructor; [|exact IH]. intros E'. apply E. rewrite E'. reflexivity.
Qed.

Lemma sub_phrases_drop_a (phrases : list string) text :
  In "a" phrases ->
  List.Forall (fun c => lower_char c <> "a"%char)
    (fold_left sub_phrase phrases text).
Proof.
  revert text. induction phrases as [|p ps IH]; intros text Hin; [destruct Hin|].
  simpl. destruct (string_dec p "a") as [->|Hne].
  - apply sub_phrases_keep, sub_phrase_a.
  - apply IH. destruct Hin as [E|Hin]; [contradiction | exact Hin].
Qed.

Lemma a_is_removed : In "a" remove_phrases.
Proof. unfold remove_phrases. simpl. tauto. Qed.

(** *** The cleaned text *)

Lemma Forall_and {A} (P Q : A -> Prop) (l : list A) :
  List.Forall P l -> List.Forall Q l -> List.Forall (fun x => P x /\ Q x) l.
Proof.
  induction 1 as [|x l Hx Hl IH]; intros HQ; [constructor|].
  constructor; [split; [exact Hx | exact (List.Forall_inv HQ)]|].
  apply IH. exact (List.Forall_inv_tail HQ).
Qed.

Lemma filter_Forall {A} (P : A -> Prop) (f : A -> bool) (l : list A) :
  List.Forall P l -> List.Forall (fun x => P x /\ f x = true) (List.filter f l).
Proof.
  induction 1 as [|x l Hx Hl IH]; simpl; [constructor|].
  destruct (f x) eqn:E; [constructor; [split; assumption | exact IH] | exact IH].
Qed.

(** The words that [clean_chars] joins. *)
Lemma clean_chars_words (text : list ascii) :
  exists words,
    clean_chars text = join words /\
    List.Forall
      (fun w => (word w /\ List.Forall kept_char w) /\ kept_word w = true) words.
Proof.
  unfold clean_chars.
  set (s2 := fold_left sub_phrase remove_phrases (strip (lower text))).
  set (s4 := List.filter password_char (strip (sub_spaces s2))).
  exists (List.filter kept_word (split s4)).
  assert (Hs4 : List.Forall
                  (fun c => (lowered c /\ lower_char c <> "a"%char)
                            /\ password_char c = true) s4).
  { subst s4. apply filter_Forall.
    eapply within_Forall; [apply strip_within|].
    apply sub_spaces_from_keeps; [split; [reflexivity | discriminate]|].
    subst s2. apply Forall_and.
    - apply sub_phrases_keep. eapply within_Forall; [apply strip_within|].
      apply lower_lowered.
    - apply sub_phrases_drop_a, a_is_removed. }
  pose proof (split_words _ _ Hs4) as Hwords.
  assert (Hkept : List.Forall
                    (fun w => (word w /\ List.Forall kept_char w) /\ kept_word w = true)
                    (List.filter kept_word (split s4))).
  { apply filter_Forall. revert Hwords. apply List.Forall_impl.
    intros w [[Hne Hs] Hc]. split; [split; assumption|].
    apply List.Forall_forall. intros c Hin.
    pose proof (proj1 (List.Forall_forall _ _) Hs c Hin) as H1.
    pose proof (proj1 (List.Forall_forall _ _) Hc c Hin) as [[H2 H3] H4].
    repeat split; assumption. }
  split; [|exact Hkept].
  apply join_clean. revert Hkept. apply List.Forall_impl.
  intros w [[H _] _]. exact H.
Qed.

Lemma kept_char_cleaned c : kept_char c -> cleaned_char c.
Proof.
  intros [Hl [Ha [Hp Hs]]]. split; [exact Hl|]. split.
  - intros ->. apply Ha. reflexivity.
  - unfold password_char in Hp. rewrite Hs, orb_false_r in Hp.
    apply orb_prop in Hp as [Hp|Hp]; [left; exact Hp|].
    right. right. apply existsb_exists in Hp as [x [Hx E]].
    apply Ascii.eqb_eq in E. subst x. exact Hx.
Qed.

Lemma space_cleaned : cleaned_char space.
Proof.
  split; [reflexivity|]. split; [discriminate|]. right. left. reflexivity.
Qed.

Lemma words_cleaned (words : list (list ascii)) :
  List.Forall (fun w => (word w /\ List.Forall kept_char w) /\ kept_word w = true)
    words ->
  List.Forall cleaned_char (join words).
Proof.
  intros H. apply join_chars; [apply space_cleaned|].
  revert H. apply List.Forall_impl. intros w [[_ H] _].
  revert H. apply List.Forall_impl. apply kept_char_cleaned.
Qed.

Lemma clean_password_chars (text : string) :
  exists words,
    list_ascii_of_string (clean_password text) = join words /\
    List.Forall
      (fun w => (word w /\ List.Forall kept_char w) /\ kept_word w = true) words.
Proof.
  unfold clean_password. destruct (String.eqb text "").
  - exists []. split; [reflexivity | constructor].
  - rewrite list_ascii_of_string_of_list_ascii. apply clean_chars_words.
Qed.

(** X18. Whatever the text, what [clean_password] returns is in lower
    case and holds no letter a (the phrase [a] is among those dropped
    wherever they occur), and no character but word characters, single
    blanks and the signs [-_@#$%&*+=]. It neither starts nor ends with
    white space; it is the join of its words; and each of its words holds
    a letter a-z, is one of [123], [456], [789], [000], [111], or is more
    than two characters long. *)
Theorem clean_password_shape (text : string) :
  let cleaned := list_ascii_of_string (clean_password text) in
  List.Forall cleaned_char cleaned /\
  trimmed cleaned /\
  single_spaced false cleaned = true /\
  join (split cleaned) = cleaned /\
  List.Forall (fun w => kept_word w = true) (split cleaned).
Proof.
  cbv zeta. destruct (clean_password_chars text) as [words [-> Hwords]].
  assert (Hw : List.Forall word words).
  { revert Hwords. apply List.Forall_impl. intros w [[H _] _]. exact H. }
  rewrite (split_join _ Hw).
  split; [apply words_cleaned, Hwords|].
  split; [apply join_trimmed, Hw|].
  split; [apply join_spaced, Hw|].
  split; [reflexivity|].
  revert Hwords. apply List.Forall_impl. intros w [_ H]. exact H.
Qed.

(** *** The password of a save *)

Lemma last_three_length {A} (l : list A) : (length (last_three l) <= 3)%nat.
Proof. unfold last_three. rewrite length_skipn. lia. Qed.

Lemma last_three_short {A} (l : list A) :
  (length l <= 3)%nat -> last_three l = l.
Proof.
  intros H. unfold last_three.
  replace (length l - 3)%nat with 0%nat by lia. reflexivity.
Qed.

Lemma Forall_skipn {A} (P : A -> Prop) n (l : list A) :
  List.Forall P l -> List.Forall P (skipn n l).
Proof.
  intros H. rewrite <- (firstn_skipn n l) in H.
  apply List.Forall_app in H. apply H.
Qed.

(** X19. Whatever the text, the password that [_extract_password] takes
    from it is made of the last three words of the cleaned text, or of all
    of them when they are fewer: it has at most three words, none with a
    letter a or an upper-case letter. *)
Theorem extract_password_last_words (text : string) :
  let cleaned := list_ascii_of_string (clean_password text) in
  let password := list_ascii_of_string (_extract_password text) in
  password = join (last_three (split cleaned)) /\
  split password = last_three (split cleaned) /\
  (length (split password) <= 3)%nat /\
  List.Forall cleaned_char password.
Proof.
  cbv zeta. destruct (clean_password_chars text) as [words [E Hwords]].
  assert (Hw : List.Forall word words).
  { revert Hwords. apply List.Forall_impl. intros w [[H _] _]. exact H. }
  assert (Hpw : list_ascii_of_string (_extract_password text)
                = join (last_three words)).
  { unfold _extract_password. rewrite E, (split_join _ Hw).
    destruct (1 <? length words)%nat eqn:L.
    - apply list_ascii_of_string_of_list_ascii.
    - apply Nat.ltb_ge in L. rewrite last_three_short by lia. exact E. }
  rewrite Hpw, E, (split_join _ Hw).
  assert (Hlast : List.Forall
                    (fun w => (word w /\ List.Forall kept_char w) /\ kept_word w = true)
                    (last_three words)) by (apply Forall_skipn, Hwords).
  assert (Hlw : List.Forall word (last_three words)) by (apply Forall_skipn, Hw).
  rewrite (split_join _ Hlw).
  split; [reflexivity|]. split; [reflexivity|].
  split; [apply last_three_length | apply words_cleaned, Hlast].
Qed.

Example clean_password_drops_letters :
  clean_password "My password is Hunter2" = "hunt2"
  /\ clean_password "banana" = "bnn"
  /\ _extract_password "gmail password is correct horse battery staple"
     = "hse btty stple".
Proof. vm_compute. repeat split. Qed.

End PasswordFacts.

(** ** The heuristic resolver and the intents *)

Module IntentFacts.

Local Open Scope Q_scope.

Import Matchers NumFacts MatcherFacts Resolve ResolveFacts.

(** *** The normaliser of [resolve.py] *)

Lemma heuristic_normalize_stages l :
  normalize_chars l
  = Text.strip (Text.sub_spaces
      (fold_left (fun n tld => Text.sub_suffix tld n) domain_suffixes
         (Text.strip (Text.lower l)))).
Proof. reflexivity. Qed.

Lemma heuristic_normalize_chars text :
  list_ascii_of_string (_normalize_text text)
  = normalize_chars (list_ascii_of_string text).
Proof. unfold _normalize_text. apply list_ascii_of_string_of_list_ascii. Qed.

Lemma heuristic_normalize_shape l :
  List.Forall Text.lowered (normalize_chars l)
  /\ Text.trimmed (normalize_chars l)
  /\ Text.single_spaced false (normalize_chars l) = true
  /\ (length (normalize_chars l) <= length l)%nat.
Proof.
  rewrite heuristic_normalize_stages. repeat split.
  - eapply TextFacts.within_Forall; [apply TextFacts.strip_within|].
    apply TextFacts.sub_spaces_from_keeps; [reflexivity|].
    eapply TextFacts.within_Forall; [apply NormalizeFacts.sub_suffixes_within|].
    eapply TextFacts.within_Forall; [apply TextFacts.strip_within|].
    apply TextFacts.lower_lowered.
  - apply TextFacts.strip_trimmed.
  - apply TextFacts.strip_trimmed.
  - apply TextFacts.single_spaced_strip, TextFacts.sub_spaces_from_spaced.
  - set (s1 := Text.strip (Text.lower l)).
    set (s2 := fold_left _ domain_suffixes s1).
    pose proof (TextFacts.strip_length (Text.sub_spaces s2)).
    pose proof (TextFacts.sub_spaces_from_length false s2).
    pose proof (NormalizeFacts.sub_suffixes_length domain_suffixes s1).
    pose proof (TextFacts.strip_length (Text.lower l)).
    unfold Text.sub_spaces in *. fold s2 in H1. fold s1 in H2.
    unfold Text.lower in H2. rewrite length_map in H2. lia.
Qed.

Lemma heuristic_normalize_twice l :
  normalize_chars (normalize_chars l) = normalize_chars l <->
  (forall tld, In tld domain_suffixes ->
     Text.sub_suffix tld (normalize_chars l) = normalize_chars l).
Proof.
  destruct (heuristic_normalize_shape l) as [Hl [Ht [Hs _]]].
  set (n := normalize_chars l) in *.
  assert (Hn : normalize_chars n
               = Text.strip (Text.sub_spaces
                   (fold_left (fun n tld => Text.sub_suffix tld n) domain_suffixes n))).
  { rewrite heuristic_normalize_stages.
    rewrite (TextFacts.lower_fixed _ Hl), (TextFacts.strip_fixed _ Ht). reflexivity. }
  split.
  - intros Hfix tld Hin.
    destruct (List.list_eq_dec ascii_dec (Text.sub_suffix tld n) n) as [E|E];
      [exact E|].
    pose proof (NormalizeFacts.sub_suffixes_shorter _ _ _ Hin E) as H1.
    set (s2 := fold_left _ domain_suffixes n) in *.
    pose proof (TextFacts.strip_length (Text.sub_spaces s2)) as H2.
    pose proof (TextFacts.sub_spaces_from_length false s2) as H3.
    fold (Text.sub_spaces s2) in H3.
    rewrite <- Hn, Hfix in H2. lia.
  - intros Hfree. rewrite Hn, (NormalizeFacts.sub_suffixes_fixed _ _ Hfree).
    unfold Text.sub_spaces. rewrite (TextFacts.sub_spaces_from_fixed _ _ Hs).
    apply TextFacts.strip_fixed, Ht.
Qed.

(** X20. The normaliser of the heuristic resolver returns a text in lower
    case, without white space at either end or white space other than
    single blanks; punctuation stays. Applied to its own result it changes
    it exactly when that result still ends in white space and one of the
    suffixes com, org, net, edu: each suffix is taken off once. *)
Theorem heuristic_normalize_text_shape (text : string) :
  let cleaned := list_ascii_of_string (_normalize_text text) in
  List.Forall Text.lowered cleaned /\
  Text.trimmed cleaned /\
  Text.single_spaced false cleaned = true /\
  (_normalize_text (_normalize_text text) = _normalize_text text <->
   suffix_free (_normalize_text text)).
Proof.
  cbv zeta. rewrite heuristic_normalize_chars.
  destruct (heuristic_normalize_shape (list_ascii_of_string text))
    as [Hl [Ht [Hs _]]].
  split; [exact Hl|]. split; [exact Ht|]. split; [exact Hs|].
  unfold suffix_free. rewrite heuristic_normalize_chars.
  rewrite <- heuristic_normalize_twice.
  unfold _normalize_text at 1 3. rewrite heuristic_normalize_chars. split.
  - intros H. apply (f_equal list_ascii_of_string) in H.
    rewrite !list_ascii_of_string_of_list_ascii in H. exact H.
  - intros ->. reflexivity.
Qed.

Example heuristic_normalize_keeps_punctuation :
  _normalize_text " Amazon.COM " = "amazon.com"
  /\ _normalize_text "a com com" = "a com"
  /\ _normalize_text (_normalize_text "a com com") = "a".
Proof. vm_compute. repeat split. Qed.

(** *** The default catalog *)

Lemma heuristic_keep_best_top cleaned best strategy :
  confidence best = 1.0 -> confidence (strategy cleaned) <= 1 ->
  keep_best cleaned best strategy = best.
Proof.
  intros Hb Hs. unfold keep_best. rewrite Hb.
  assert (G : Num.gtb (confidence (strategy cleaned)) 1.0 = false).
  { apply gtb_false_le. eapply Qle_trans; [exact Hs|]. unfold Qle. simpl. lia. }
  rewrite G. reflexivity.
Qed.

Lemma heuristic_fuzzy_bounded scorer sites text :
  (forall b, In b (get_all_aliases sites) -> scorer text b <= 100) ->
  confidence (_fuzzy_match scorer sites text) <= 1.
Proof.
  intros Hs. unfold _fuzzy_match.
  destruct (fuzzy_search _ _ _ _) as [[c q]|] eqn:E; simpl.
  - apply fuzzy_search_score in E as [a [Ha [-> _]]].
    apply Qle_shift_div_r; [reflexivity|]. rewrite Qmult_1_l. apply Hs, Ha.
  - unfold Qle. simpl. lia.
Qed.

Lemma heuristic_phonetic_bounded dm sites text :
  confidence (_phonetic_match dm sites text) <= 1.
Proof.
  unfold _phonetic_match.
  destruct (phonetic_search _ _ _) as [[s q]|] eqn:E; simpl.
  - apply phonetic_search_found in E as [_ [_ E]].
    eapply Qle_trans; [exact E|]. unfold Qle. simpl. lia.
  - unfold Qle. simpl. lia.
Qed.

Lemma heuristic_partial_bounded sites text :
  confidence (_partial_match sites text) <= 1.
Proof.
  unfold _partial_match.
  destruct (partial_search _ _) as [[s q]|] eqn:E; simpl.
  - apply partial_search_found in E as [_ [_ E]]. exact E.
  - unfold Qle. simpl. lia.
Qed.

(** With the placeholder model, the result of the intent resolver is the
    one of the heuristics. *)
Lemma resolve_site_name_heuristic dm scorer sites is_available text :
  fst (resolve_site_name dm scorer sites is_available text)
  = resolve_site dm scorer sites text.
Proof.
  unfold resolve_site_name, _resolve_site_name.
  destruct (Num.geb _ 0.82); [reflexivity|].
  destruct (Num.gtb 0.65 _); [|reflexivity].
  rewrite placeholder_unsited. simpl.
  destruct (heuristic_resolve_site_settled dm scorer sites text) as [_ H].
  assert (G : Num.gtb 0.0 (confidence (resolve_site dm scorer sites text)) = false).
  { apply gtb_false_le. eapply Qle_trans; [|exact H]. unfold Qle. simpl. lia. }
  rewrite G. reflexivity.
Qed.

Lemma exact_catalog_alias sites c al a :
  exact_catalog sites = true -> In (c, al) sites -> In a al ->
  a <> "" /\ _normalize_text a = a /\ exact_search sites a = Some c.
Proof.
  unfold exact_catalog. intros H Hc Ha.
  pose proof (proj1 (forallb_forall _ _) H (c, al) Hc) as H1. simpl in H1.
  pose proof (proj1 (forallb_forall _ _) H1 a Ha) as H2.
  apply andb_prop in H2 as [H2 H3]. apply andb_prop in H2 as [H2 H4].
  split; [|split].
  - intros ->. discriminate.
  - apply String.eqb_eq, H4.
  - destruct (exact_search sites a) as [c'|]; [|discriminate].
    apply String.eqb_eq in H3. subst c'. reflexivity.
Qed.

(** An exact match on a normal form wins over the other strategies. *)
Lemma heuristic_exact_wins dm scorer sites a c :
  a <> "" -> _normalize_text a = a -> exact_search sites a = Some c ->
  (forall b, In b (get_all_aliases sites) -> scorer a b <= 100) ->
  resolve_site dm scorer sites a = mkResult (Some c) 1.0 "heuristic" a a.
Proof.
  intros Hne Hnorm Hexact Hscore.
  unfold resolve_site. apply String.eqb_neq in Hne. rewrite Hne, Hnorm.
  unfold strategies. cbn [fold_left].
  assert (H1 : keep_best a (mkResult None 0.0 "heuristic" a a)
                 (_exact_match sites)
               = mkResult (Some c) 1.0 "heuristic" a a).
  { unfold keep_best, _exact_match. rewrite Hexact. reflexivity. }
  rewrite H1. set (top := mkResult (Some c) 1.0 "heuristic" a a).
  rewrite (heuristic_keep_best_top a top (_fuzzy_match scorer sites));
    [|reflexivity | apply heuristic_fuzzy_bounded, Hscore].
  rewrite (heuristic_keep_best_top a top (_phonetic_match dm sites));
    [|reflexivity | apply heuristic_phonetic_bounded].
  rewrite (heuristic_keep_best_top a top (_partial_match sites));
    [|reflexivity | apply heuristic_partial_bounded].
  reflexivity.
Qed.

(** X21. Against the catalog that [_create_default_catalog] builds, every
    one of its aliases is resolved by the heuristic resolver to the
    canonical name that lists it, with confidence 1.0 (the scorer being one
    that keeps to [0, 100] against the aliases), and the intent resolver
    returns the same without a prompt to the model. *)
Theorem default_catalog_exact_law
    (doublemetaphone : string -> string * string)
    (scorer : string -> string -> Q) (is_available : bool)
    (c a : string) (al : list string) :
  In (c, al) default_catalog ->
  In a al ->
  (forall b, In b (get_all_aliases default_catalog) -> scorer a b <= 100) ->
  let r := resolve_site doublemetaphone scorer default_catalog a in
  site r = Some c /\ confidence r = 1.0 /\
  resolve_site_name doublemetaphone scorer default_catalog is_available a = (r, []).
Proof.
  intros Hc Ha Hscore.
  assert (Hcat : exact_catalog default_catalog = true) by (vm_compute; reflexivity).
  destruct (exact_catalog_alias _ _ _ _ Hcat Hc Ha) as [Hne [Hnorm Hexact]].
  pose proof (heuristic_exact_wins doublemetaphone scorer default_catalog a c
                Hne Hnorm Hexact Hscore) as Hr.
  cbv zeta. rewrite Hr. split; [reflexivity|]. split; [reflexivity|].
  unfold resolve_site_name, _resolve_site_name. rewrite Hr. reflexivity.
Qed.

(** The alias [wells fargo] of [bank]. *)
Lemma default_catalog_exact_law_sample :
  let r := resolve_site Samples.doublemetaphone Fuzz.ratio default_catalog
             "wells fargo" in
  site r = Some "bank" /\ confidence r = 1.0 /\
  resolve_site_name Samples.doublemetaphone Fuzz.ratio default_catalog true
    "wells fargo"
  = (r, []).
Proof.
  apply (default_catalog_exact_law Samples.doublemetaphone Fuzz.ratio true
           "bank" "wells fargo"
           ["bank"; "banking"; "chase"; "wells fargo"; "bank of america"]).
  - do 14 right. left. reflexivity.
  - do 3 right. left. reflexivity.
  - intros b Hb. apply Qle_bool_iff. revert b Hb. apply forallb_forall.
    vm_compute. reflexivity.
Defined.

(** *** The intents *)

Lemma level_low r :
  get_resolution_confidence r = "low" <-> confidence r < 0.65.
Proof.
  unfold get_resolution_confidence.
  destruct (Num.geb (confidence r) 0.85) eqn:G1.
  - apply geb_le in G1. split; [discriminate|]. intros H. exfalso.
    apply (Qlt_irrefl (confidence r)). eapply Qlt_trans; [exact H|].
    eapply Qlt_le_trans; [|exact G1]. reflexivity.
  - destruct (Num.geb (confidence r) 0.65) eqn:G2.
    + apply geb_le in G2. split; [discriminate|]. intros H. exfalso.
      exact (Qlt_not_le _ _ H G2).
    + apply geb_false_lt in G2. split; [intros _; exact G2 | reflexivity].
Qed.

Ltac looked_up :=
  repeat first
    [ rewrite lookup_insert_eq
    | rewrite lookup_insert_ne by discriminate
    | rewrite lookup_empty ];
  simpl; try reflexivity.

Lemma prompts_only_when_low dm scorer sites is_available text :
  snd (resolve_site_name dm scorer sites is_available text) <> [] ->
  get_resolution_confidence (resolve_site dm scorer sites text) = "low".
Proof.
  unfold resolve_site_name, _resolve_site_name. intros H. apply level_low.
  destruct (Num.geb _ 0.82); [contradiction|].
  destruct (Num.gtb 0.65 _) eqn:G; [apply gtb_lt, G | contradiction].
Qed.

(** X22. What [resolve_intent] makes of a transcription. The intent is the
    state of the interface in lower case. For [save] and [retrieve] the
    entities hold the site, confidence and method of the heuristic result
    (with the placeholder model the LLM never changes it), the confidence
    of the answer is that confidence, and is 0.0 when no site was found;
    a password is among the entities for [save] only; and a prompt went to
    the model only if the heuristic confidence rates as low. For any other
    intent there is no entity, the confidence is 0.0, and the model is not
    consulted. *)
Theorem resolve_intent_entities
    (doublemetaphone : string -> string * string)
    (scorer : string -> string -> Q) (sites : catalog) (is_available : bool)
    (text ui_state : string) (started finished : Q) :
  let answer :=
    resolve_intent doublemetaphone scorer sites is_available text ui_state
      started finished in
  let found := resolve_site doublemetaphone scorer sites text in
  let name := intent (fst answer) in
  name = string_of_list_ascii (Text.lower (list_ascii_of_string ui_state)) /\
  (name = "save" \/ name = "retrieve" ->
   entities (fst answer) !! "site" = Some (of_site (site found)) /\
   entities (fst answer) !! "site_method" = Some (VStr (method found)) /\
   intent_confidence (fst answer) = VFloat (confidence found) /\
   entities (fst answer) !! "password"
   = (if String.eqb name "save" then Some (VStr (_extract_password text))
      else None) /\
   (site found = None -> intent_confidence (fst answer) = VFloat 0.0) /\
   (snd answer <> [] -> get_resolution_confidence found = "low")) /\
  (name <> "save" -> name <> "retrieve" ->
   entities (fst answer) = ∅ /\
   intent_confidence (fst answer) = VFloat 0.0 /\
   snd answer = []).
Proof.
  cbv zeta. unfold resolve_intent. simpl.
  set (name := string_of_list_ascii (Text.lower (list_ascii_of_string ui_state))).
  split; [reflexivity|].
  unfold _extract_entities, Text.mem. simpl.
  rewrite resolve_site_name_heuristic.
  pose proof (prompts_only_when_low doublemetaphone scorer sites is_available text)
    as Hlow.
  set (found := resolve_site doublemetaphone scorer sites text) in *.
  destruct (heuristic_resolve_site_settled doublemetaphone scorer sites text)
    as [Hzero _].
  fold found in Hzero.
  destruct (String.eqb_spec name "save") as [Es|Es].
  - simpl. split; [|intros H; contradiction]. intros _.
    unfold get_site_confidence.
    do 4 (split; [looked_up|]).
    split; [intros H; looked_up; rewrite (Hzero H); reflexivity | exact Hlow].
  - destruct (String.eqb_spec name "retrieve") as [Er|Er]; simpl.
    + split; [|intros _ H; contradiction]. intros _.
      unfold get_site_confidence.
      do 4 (split; [looked_up|]).
      split; [intros H; looked_up; rewrite (Hzero H); reflexivity | exact Hlow].
    + split; [intros [H|H]; contradiction|]. intros _ _.
      repeat split.
Qed.

Example resolve_intent_of_retrieve :
  let answer :=
    resolve_intent Samples.doublemetaphone Fuzz.ratio default_catalog true
      "gmail" "Retrieve" 0 1 in
  intent (fst answer) = "retrieve"
  /\ entities (fst answer) !! "site" = Some (VStr "gmail")
  /\ entities (fst answer) !! "password" = None
  /\ intent_confidence (fst answer) = VFloat 1.0
  /\ snd answer = [].
Proof. vm_compute. repeat split. Qed.

Example resolve_intent_of_save :
  let answer :=
    resolve_intent Samples.doublemetaphone Fuzz.ratio default_catalog true
      "gmail hunter2" "SAVE" 0 1 in
  intent (fst answer) = "save"
  /\ entities (fst answer) !! "site" = Some VNone
  /\ entities (fst answer) !! "password" = Some (VStr "gmil hunt2")
  /\ intent_confidence (fst answer) = VFloat 0.0
  /\ snd answer = ["gmail hunter2"].
Proof. vm_compute. repeat split. Qed.

End IntentFacts.

(** ** The catalogs and their files *)

Module CatalogFacts.

Local Open Scope Q_scope.

Import Matchers NumFacts MatcherFacts CatalogFile.

(** *** The catalog as a [dict] *)

Lemma dict_get_set k v (d : catalog) : dict_get k (dict_set k v d) = Some v.
Proof.
  unfold dict_get. induction d as [|[k' v'] d IH]; simpl.
  - rewrite String.eqb_refl. reflexivity.
  - destruct (String.eqb k' k) eqn:E; simpl.
    + rewrite String.eqb_refl. reflexivity.
    + rewrite E. exact IH.
Qed.

Lemma dict_get_set_other k k' v (d : catalog) :
  k' <> k -> dict_get k' (dict_set k v d) = dict_get k' d.
Proof.
  intros N. unfold dict_get. induction d as [|[k0 v0] d IH]; simpl.
  - destruct (String.eqb_spec k k'); [congruence|reflexivity].
  - destruct (String.eqb_spec k0 k) as [->|Nk]; simpl.
    + destruct (String.eqb_spec k k'); [congruence|reflexivity].
    + destruct (String.eqb k0 k'); [reflexivity|exact IH].
Qed.

Lemma dict_set_new k v (d : catalog) :
  dict_get k d = None -> dict_set k v d = (d ++ [(k, v)])%list.
Proof.
  unfold dict_get. induction d as [|[k0 v0] d IH]; simpl; [reflexivity|].
  destruct (String.eqb k0 k); simpl; [discriminate|].
  intros H. rewrite (IH H). reflexivity.
Qed.

Lemma dict_set_length k v (d : catalog) :
  dict_get k d <> None -> length (dict_set k v d) = length d.
Proof.
  unfold dict_get. induction d as [|[k0 v0] d IH]; simpl; [congruence|].
  destruct (String.eqb k0 k); simpl; [reflexivity|].
  intros H. rewrite (IH H). reflexivity.
Qed.

Lemma dict_set_In k v (d : catalog) : In (k, v) (dict_set k v d).
Proof.
  induction d as [|[k0 v0] d IH]; simpl; [left; reflexivity|].
  destruct (String.eqb k0 k); [left; reflexivity | right; exact IH].
Qed.

Lemma canonical_of_set k v (d : catalog) a :
  In a v ->
  (forall entry, In entry d -> fst entry <> k -> ~ In a (snd entry)) ->
  canonical_of (dict_set k v d) a = Some k.
Proof.
  intros Ha. unfold canonical_of.
  assert (Hm : Text.mem a v = true) by (apply mem_In, Ha).
  induction d as [|[k0 v0] d IH]; intros Hd; simpl.
  - rewrite Hm. reflexivity.
  - destruct (String.eqb_spec k0 k) as [->|Nk]; simpl.
    + rewrite Hm. reflexivity.
    + destruct (Text.mem a v0) eqn:M.
      * exfalso. apply (Hd (k0, v0)); [left; reflexivity | exact Nk |].
        apply mem_In, M.
      * apply IH. intros entry He. apply Hd. right. exact He.
Qed.

Lemma exact_search_set k v (d : catalog) a :
  In a v ->
  (forall entry, In entry d -> fst entry <> k -> ~ In a (snd entry)) ->
  exact_search (dict_set k v d) a = Some k.
Proof.
  intros Ha Hd. unfold exact_search.
  assert (M : Text.mem a (get_all_aliases (dict_set k v d)) = true).
  { apply mem_In. unfold get_all_aliases. apply in_flat_map.
    exists (k, v). split; [apply dict_set_In | exact Ha]. }
  rewrite M. apply canonical_of_set; assumption.
Qed.

(** *** Paths *)

Lemma from_slash_none l :
  existsb (Ascii.eqb "/") l = false -> Path.from_slash l = [].
Proof.
  induction l as [|c l IH]; [reflexivity|].
  cbn [existsb Path.from_slash].
  destruct (Ascii.eqb_spec c "/") as [->|N].
  - rewrite Ascii.eqb_refl. discriminate.
  - intros H. apply orb_false_iff in H as [_ H]. exact (IH H).
Qed.

Lemma existsb_rev {A} (f : A -> bool) l : existsb f (rev l) = existsb f l.
Proof.
  induction l as [|x l IH]; simpl; [reflexivity|].
  rewrite existsb_app, IH. simpl. rewrite orb_false_r. apply orb_comm.
Qed.

Lemma bare_dirname p : Path.bare p = true -> Path.dirname p = "".
Proof.
  unfold Path.bare, Path.dirname. intros H. apply negb_true_iff in H.
  rewrite from_slash_none; [reflexivity|].
  rewrite existsb_rev. exact H.
Qed.

(** *** [DeterministicResolver] *)

Section Deterministic.

Import ResolveDeterministic.

Lemma empty_catalog_resolves_nothing dm scorer self text :
  sites self = [] -> accept_threshold self = 0.88 ->
  confirmation_threshold self = 0.75 ->
  let r := resolve_site dm scorer self text in
  site r = None /\ confidence r = 0.0 /\ needs_confirmation r = false.
Proof.
  intros Hs Ha Hc. unfold resolve_site.
  destruct (String.eqb text ""); [repeat split|].
  unfold strategies, keep_best, _exact_match, _fuzzy_match, _phonetic_match,
    _partial_match.
  rewrite Hs, Ha, Hc. generalize (_normalize_text text). intros cleaned.
  simpl. repeat split.
Qed.

(** X23. A resolver built on a catalog file that is missing or cannot be
    read has an empty catalog: the file is left as it was, the failure is
    logged, and [resolve_site] finds no site for any text, with confidence
    0.0 and no confirmation asked. *)
Theorem unreadable_catalog_resolves_nothing
    (doublemetaphone : string -> string * string)
    (scorer : string -> string -> Q)
    (catalog_path : string) (d : disk) (text : string) :
  files d !! catalog_path = None \/ files d !! catalog_path = Some Broken ->
  let made := new catalog_path d in
  sites (fst made) = [] /\
  files (snd made) = files d /\
  (exists msg, log (snd made) = (log d ++ [LogError msg])%list) /\
  let r := resolve_site doublemetaphone scorer (fst made) text in
  site r = None /\ confidence r = 0.0 /\ needs_confirmation r = false.
Proof.
  intros H. cbv zeta.
  assert (E : new catalog_path d
              = (init [], logged (LogError "Site catalog not found") d)
              \/ new catalog_path d
                 = (init [], logged (LogError "Error loading site catalog") d)).
  { unfold new, load_catalog. destruct H as [-> | ->]; [left|right]; reflexivity. }
  destruct E as [-> | ->]; simpl;
    (split; [reflexivity|]); (split; [reflexivity|]);
    (split; [eexists; reflexivity|]);
    apply (empty_catalog_resolves_nothing doublemetaphone scorer (init []) text);
    reflexivity.
Qed.

Lemma unreadable_catalog_sample :
  let d := mkDisk (<["/data/sites.json" := Broken]> ∅) [] in
  let made := new "/data/sites.json" d in
  sites (fst made) = [] /\
  files (snd made) = files d /\
  (exists msg, log (snd made) = (log d ++ [LogError msg])%list) /\
  let r := resolve_site Samples.doublemetaphone Fuzz.ratio (fst made) "gmail" in
  site r = None /\ confidence r = 0.0 /\ needs_confirmation r = false.
Proof.
  apply (unreadable_catalog_resolves_nothing Samples.doublemetaphone Fuzz.ratio
           "/data/sites.json"
           (mkDisk (<["/data/sites.json" := Broken]> ∅) []) "gmail").
  right. apply lookup_insert_eq.
Defined.

Lemma total_aliases_app (d1 d2 : catalog) :
  list_sum (map (fun entry => length (snd entry)) (d1 ++ d2))
  = (list_sum (map (fun entry => length (snd entry)) d1)
     + list_sum (map (fun entry => length (snd entry)) d2))%nat.
Proof. rewrite map_app, list_sum_app. reflexivity. Qed.

(** X24. After [add_site], [get_site_info] of the name gives the aliases
    and their number, and the information on every other name is what it
    was, whether or not the file could be written. A name that was not in
    the catalog makes one site and its aliases more in
    [get_catalog_stats]; a name that was there leaves the number of sites
    as it is. *)
Theorem add_site_then_get_site_info
    (writes : string -> bool) (catalog_path name : string)
    (site_aliases : list string) (self : DeterministicResolver) (d : disk) :
  let added := fst (add_site writes catalog_path name site_aliases self d) in
  get_site_info added name
  = Some (mkInfo name site_aliases (length site_aliases)) /\
  (forall other, other <> name ->
     get_site_info added other = get_site_info self other) /\
  (get_site_info self name = None ->
     total_sites (get_catalog_stats added)
     = S (total_sites (get_catalog_stats self)) /\
     total_aliases (get_catalog_stats added)
     = (total_aliases (get_catalog_stats self) + length site_aliases)%nat) /\
  (get_site_info self name <> None ->
     total_sites (get_catalog_stats added)
     = total_sites (get_catalog_stats self)).
Proof.
  cbv zeta. unfold add_site, get_site_info, get_catalog_stats. simpl.
  split; [rewrite dict_get_set; reflexivity|].
  split; [intros other N; rewrite (dict_get_set_other _ _ _ _ N); reflexivity|].
  split.
  - intros H. destruct (dict_get name (sites self)) eqn:E; [discriminate|].
    rewrite (dict_set_new _ _ _ E). rewrite length_app, total_aliases_app.
    simpl. split; lia.
  - intros H. apply dict_set_length.
    destruct (dict_get name (sites self)); [discriminate | congruence].
Qed.

(** X25. The catalog that [add_site] saves is the one a new resolver loads:
    when the path has a directory part and the file can be written, a
    resolver built afterwards on the same path has the catalog of the one
    that saved, and no other file has changed. *)
Theorem saved_catalog_is_reloaded
    (writes : string -> bool) (catalog_path name : string)
    (site_aliases : list string) (self : DeterministicResolver) (d : disk) :
  Path.dirname catalog_path <> "" -> writes catalog_path = true ->
  let added := add_site writes catalog_path name site_aliases self d in
  sites (fst (new catalog_path (snd added))) = sites (fst added) /\
  get_site_info (fst (new catalog_path (snd added))) name
  = Some (mkInfo name site_aliases (length site_aliases)) /\
  (forall other, other <> catalog_path ->
     files (snd added) !! other = files d !! other).
Proof.
  intros Hdir Hw. cbv zeta.
  unfold add_site, save_catalog, CatalogFile.save_catalog.
  apply String.eqb_neq in Hdir. rewrite Hdir, Hw. simpl.
  unfold new, load_catalog. simpl. rewrite lookup_insert_eq. simpl.
  split; [reflexivity|]. split.
  - unfold get_site_info. simpl. rewrite dict_get_set. reflexivity.
  - intros other N. apply lookup_insert_ne. congruence.
Qed.

Lemma saved_catalog_is_reloaded_sample :
  let added := add_site (fun _ => true) "/data/sites.json" "proton"
                 ["proton mail"] (init Samples.gmail) (mkDisk ∅ []) in
  sites (fst (new "/data/sites.json" (snd added))) = sites (fst added) /\
  get_site_info (fst (new "/data/sites.json" (snd added))) "proton"
  = Some (mkInfo "proton" ["proton mail"] 1) /\
  (forall other, other <> "/data/sites.json" ->
     files (snd added) !! other = files (mkDisk ∅ []) !! other).
Proof.
  apply (saved_catalog_is_reloaded (fun _ => true) "/data/sites.json" "proton"
           ["proton mail"] (init Samples.gmail) (mkDisk ∅ [])).
  - vm_compute. discriminate.
  - reflexivity.
Defined.

(** X26. A catalog path without a slash is never written: [os.makedirs]
    of its empty directory name raises, [save_catalog] logs the error and
    returns. After [add_site] the resolver has the site, the files are
    what they were, and a resolver built afterwards on the same path loads
    what it would have loaded before. *)
Theorem bare_catalog_path_is_never_saved
    (writes : string -> bool) (catalog_path name : string)
    (site_aliases : list string) (self : DeterministicResolver) (d : disk) :
  Path.bare catalog_path = true ->
  let added := add_site writes catalog_path name site_aliases self d in
  get_site_info (fst added) name
  = Some (mkInfo name site_aliases (length site_aliases)) /\
  files (snd added) = files d /\
  log (snd added) = (log d ++ [LogError "Error saving site catalog"])%list /\
  sites (fst (new catalog_path (snd added))) = sites (fst (new catalog_path d)).
Proof.
  intros Hbare. cbv zeta.
  unfold add_site, save_catalog, CatalogFile.save_catalog.
  rewrite (bare_dirname _ Hbare). simpl.
  split; [unfold get_site_info; simpl; rewrite dict_get_set; reflexivity|].
  split; [reflexivity|]. split; [reflexivity|].
  unfold new, load_catalog. simpl.
  destruct (files d !! catalog_path) as [[s| |]|]; reflexivity.
Qed.

Lemma bare_catalog_path_sample :
  let added := add_site (fun _ => true) "sites.json" "proton"
                 ["proton mail"] (init Samples.gmail) (mkDisk ∅ []) in
  get_site_info (fst added) "proton"
  = Some (mkInfo "proton" ["proton mail"] 1) /\
  files (snd added) = files (mkDisk ∅ []) /\
  log (snd added)
  = (log (mkDisk ∅ []) ++ [LogError "Error saving site catalog"])%list /\
  sites (fst (new "sites.json" (snd added)))
  = sites (fst (new "sites.json" (mkDisk ∅ []))).
Proof.
  apply (bare_catalog_path_is_never_saved (fun _ => true) "sites.json" "proton"
           ["proton mail"] (init Samples.gmail) (mkDisk ∅ [])).
  reflexivity.
Defined.

End Deterministic.

(** *** [SiteCatalog] *)

Section Heuristic.

Import Resolve.

(** X27. [SiteCatalog.load_catalog] settles: loading again from the files
    it leaves gives the same catalog. On a file that is missing or cannot
    be read the catalog is the default one, and the file is written with it
    where the path has a directory part and can be written, an unreadable
    file being replaced; a file without the key [sites] gives the empty
    catalog and stays as it is. *)
Theorem site_catalog_load_settles
    (writes : string -> bool) (catalog_path : string) (d : disk) :
  let loaded := load_catalog writes catalog_path d in
  fst (load_catalog writes catalog_path (snd loaded)) = fst loaded /\
  (files d !! catalog_path = None \/ files d !! catalog_path = Some Broken ->
   fst loaded = default_catalog /\
   (Path.dirname catalog_path <> "" -> writes catalog_path = true ->
    files (snd loaded) !! catalog_path = Some (Sites default_catalog))) /\
  (files d !! catalog_path = Some NoSites ->
   fst loaded = [] /\ files (snd loaded) = files d).
Proof.
  cbv zeta. unfold load_catalog, _create_default_catalog, save_catalog,
    CatalogFile.save_catalog.
  destruct (files d !! catalog_path) as [[s| |]|] eqn:E; simpl.
  - rewrite E. simpl. split; [reflexivity|].
    split; [intros [H|H]; discriminate | intros H; discriminate].
  - rewrite E. simpl. split; [reflexivity|].
    split; [intros [H|H]; discriminate | intros _; split; reflexivity].
  - split; [|split; [|intros H; discriminate]].
    + destruct (String.eqb (Path.dirname catalog_path) ""); simpl;
        [rewrite E; reflexivity|].
      destruct (writes catalog_path) eqn:W; simpl.
      * rewrite lookup_insert_eq. reflexivity.
      * rewrite E. reflexivity.
    + intros _. split; [|intros Hdir Hw].
      * destruct (String.eqb (Path.dirname catalog_path) ""); simpl;
          [reflexivity|].
        destruct (writes catalog_path); reflexivity.
      * apply String.eqb_neq in Hdir. rewrite Hdir, Hw. simpl.
        apply lookup_insert_eq.
  - split; [|split; [|intros H; discriminate]].
    + destruct (String.eqb (Path.dirname catalog_path) ""); simpl;
        [rewrite E; reflexivity|].
      destruct (writes catalog_path) eqn:W; simpl.
      * rewrite lookup_insert_eq. reflexivity.
      * rewrite E. reflexivity.
    + intros _. split; [|intros Hdir Hw].
      * destruct (String.eqb (Path.dirname catalog_path) ""); simpl;
          [reflexivity|].
        destruct (writes catalog_path); reflexivity.
      * apply String.eqb_neq in Hdir. rewrite Hdir, Hw. simpl.
        apply lookup_insert_eq.
Qed.

(** X28. A site added with [SiteCatalog.add_site] is found by its
    aliases: an alias in normal form that no site of another name lists is
    resolved by the heuristic resolver to the added name with confidence
    1.0 (the scorer keeping to [0, 100] against the aliases), whether or
    not the catalog file could be written. *)
Theorem added_site_is_found
    (doublemetaphone : string -> string * string)
    (scorer : string -> string -> Q) (writes : string -> bool)
    (catalog_path name : string) (site_aliases : list string)
    (sites : catalog) (d : disk) (a : string) :
  In a site_aliases -> a <> "" -> _normalize_text a = a ->
  (forall entry, In entry sites -> fst entry <> name -> ~ In a (snd entry)) ->
  let added := fst (add_site writes catalog_path name site_aliases sites d) in
  (forall b, In b (get_all_aliases added) -> scorer a b <= 100) ->
  let r := resolve_site doublemetaphone scorer added a in
  site r = Some name /\ confidence r = 1.0.
Proof.
  intros Ha Hne Hnorm Hothers. cbv zeta. unfold add_site. simpl. intros Hscore.
  rewrite (IntentFacts.heuristic_exact_wins doublemetaphone scorer
             (dict_set name site_aliases sites) a name Hne Hnorm
             (exact_search_set name site_aliases sites a Ha Hothers) Hscore).
  split; reflexivity.
Qed.

Lemma added_site_is_found_sample :
  let added := fst (add_site (fun _ => false) "/data/sites.json" "proton"
                      ["proton"; "proton mail"] default_catalog (mkDisk ∅ [])) in
  let r := resolve_site Samples.doublemetaphone Fuzz.ratio added "proton mail" in
  site r = Some "proton" /\ confidence r = 1.0.
Proof.
  apply (added_site_is_found Samples.doublemetaphone Fuzz.ratio (fun _ => false)
           "/data/sites.json" "proton" ["proton"; "proton mail"]
           default_catalog (mkDisk ∅ []) "proton mail").
  - right. left. reflexivity.
  - discriminate.
  - vm_compute. reflexivity.
  - intros entry He Hn Hin.
    assert (F : forallb (fun entry : string * list string =>
                  negb (Text.mem "proton mail" (snd entry))) default_catalog
                = true) by (vm_compute; reflexivity).
    pose proof (proj1 (forallb_forall _ _) F entry He) as H.
    apply negb_true_iff in H. apply mem_In in Hin. congruence.
  - intros b Hb. apply Qle_bool_iff. revert b Hb. apply forallb_forall.
    vm_compute. reflexivity.
Defined.

End Heuristic.

End CatalogFacts.
